(** * Composable Binary Encoding (CBE): the Go codec of bford/cofo

    A shallow embedding of the blob codec:
    - the streaming [Encoder] and [Decoder] (chunked encoding over an
      [io.Reader] / [io.Writer] pair),
    - the small-only contiguous [Encode] / [Decode] of [cbe.go],
    - the full contiguous [Encode] / [Decode] of [cbe/cbe.go].

    Go's [int] values stay far below 2^31 everywhere in this code and are
    plain [Z]; [byte] is [Init.Byte.byte] with the conversions [byte(x)]
    and [int(b)] written out; [uint64] and [int64] are [Z] with explicit
    wrap-around. *)

From Stdlib Require Import ZArith List Lia Bool.
From coqutil Require Import Byte.
Import ListNotations.
Local Open Scope Z_scope.

(** ** Go slices and bytes *)

(** [len(s)] *)
Definition len {A : Type} (s : list A) : Z := Z.of_nat (length s).

(** [s[i]] (callers stay in range; out of range Go panics) *)
Definition idx (s : list byte) (i : Z) : byte := nth (Z.to_nat i) s Byte.x00.

(** [s[lo:hi]] *)
Definition slice {A : Type} (s : list A) (lo hi : Z) : list A :=
  firstn (Z.to_nat (hi - lo)) (skipn (Z.to_nat lo) s).

(** [s[lo:]] *)
Definition from {A : Type} (s : list A) (lo : Z) : list A :=
  skipn (Z.to_nat lo) s.

(** [s[i] = v], for [0 <= i < len(s)] *)
Definition set_at (s : list byte) (i : Z) (v : byte) : list byte :=
  firstn (Z.to_nat i) s ++ v :: skipn (Z.to_nat (i + 1)) s.

(** [copy(s[ofs:], data)], for [ofs + len(data) <= len(s)] *)
Definition copy_at (s : list byte) (ofs : Z) (data : list byte) : list byte :=
  firstn (Z.to_nat ofs) s ++ data ++ skipn (Z.to_nat (ofs + len data)) s.

(** [make([]byte, n)] *)
Definition make (n : Z) : list byte := repeat Byte.x00 (Z.to_nat n).

(** [int(b)] *)
Definition u8 (b : byte) : Z := byte.unsigned b.

(** [byte(x)]: conversion of an integer, keeping the low eight bits *)
Definition to_byte (x : Z) : byte := byte.of_Z x.

(** [a + b], [a - b] and [a & b] on bytes *)
Definition badd (a b : byte) : byte := to_byte (u8 a + u8 b).
Definition bsub (a b : byte) : byte := to_byte (u8 a - u8 b).
Definition band (a b : byte) : byte := byte.and a b.

(** ** Errors and panics *)

Inductive error : Set :=
| EOF                 (* io.EOF *)
| ErrUnexpectedEOF    (* io.ErrUnexpectedEOF *)
| ErrShortWrite       (* errors.New("short write") *)
| TooLong             (* errors.New("blob content too long") *)
| ErrUint64Overflow.  (* errors.New("integer value too large for uint64") *)

Definition error_eqb (a b : error) : bool :=
  match a, b with
  | EOF, EOF | ErrUnexpectedEOF, ErrUnexpectedEOF | ErrShortWrite, ErrShortWrite
  | TooLong, TooLong | ErrUint64Overflow, ErrUint64Overflow => true
  | _, _ => false
  end.

(** [err != nil] *)
Definition is_err (e : option error) : bool :=
  match e with Some _ => true | None => false end.

(** [err != x] *)
Definition err_is (e : option error) (x : error) : bool :=
  match e with Some y => error_eqb y x | None => false end.

Inductive panic : Set :=
| ContentTooLarge     (* "content too large for small-blob encoder" *)
| ChunkTooSmall       (* "chunk size too small" *)
| ChunkTooLarge       (* "chunk size too large" *)
| EncodingError.      (* "encoding error: ..." *)

(** A call either returns or panics. *)
Inductive outcome (A : Type) : Type :=
| Returns (a : A)
| Panics (p : panic).
Arguments Returns {A} a.
Arguments Panics {A} p.

(** ** I/O: in-memory sources and sinks *)

(** [io.ReadFull(r, p)] on a source that holds the octets [r] and then
    reports end of input ([bytes.Reader], [strings.Reader]); [want] is
    [len(p)].  Returns the octets stored at the front of [p], the error
    and what is left of the source. *)
Definition ReadFull (r : list byte) (want : Z)
  : list byte * option error * list byte :=
  let data := firstn (Z.to_nat want) r in
  let rest := skipn (Z.to_nat want) r in
  if len data =? want then (data, None, rest)
  else if len data =? 0 then (data, Some EOF, rest)
  else (data, Some ErrUnexpectedEOF, rest).

(** [w.Write(p)] on a [bytes.Buffer]: everything is accepted. *)
Definition Write (w : list byte) (p : list byte)
  : Z * option error * list byte :=
  (len p, None, w ++ p).

(** ** The streaming encoder *)

(** Minimum and maximum streamable chunk size allowed by the encoding. *)
Definition MinChunkLen : Z := 0x4000.
Definition MaxChunkLen : Z := 0x203fff.
Definition defaultChunkLen : Z := MinChunkLen.

(** A byte slice with its capacity: [vis] is the slice, [spare] the rest
    of the backing array. *)
Record gobuf : Type := mkbuf { vis : list byte; spare : list byte }.

(** [Encoder]: the sink [w] (its content so far) and the chunk buffer,
    [None] while it is nil. *)
Record Encoder : Type := mkEncoder { enc_w : list byte; enc_buf : option gobuf }.

Definition NewEncoder (w : list byte) : Encoder :=
  {| enc_w := w; enc_buf := None |}.

(** [getBuf]: the current chunk buffer, created if necessary. *)
Definition getBuf (e : Encoder) : Encoder * gobuf :=
  match enc_buf e with
  | None =>
      let b := {| vis := make (4 + defaultChunkLen); spare := [] |} in
      ({| enc_w := enc_w e; enc_buf := Some b |}, b)
  | Some b => (e, b)
  end.

Definition ChunkLen (e : Encoder) : Z :=
  let '(_, b) := getBuf e in len (vis b) - 4.

Definition SetChunkLen (e : Encoder) (chunkLen : Z) : outcome Encoder :=
  if chunkLen <? MinChunkLen then Panics ChunkTooSmall
  else if chunkLen >? MaxChunkLen then Panics ChunkTooLarge
  else
    let bufLen := 4 + chunkLen in
    let whole := match enc_buf e with
                 | None => []
                 | Some b => vis b ++ spare b
                 end in
    let whole := if len whole <? bufLen then make bufLen else whole in
    Returns {| enc_w := enc_w e;
               enc_buf := Some {| vis := slice whole 0 bufLen;
                                  spare := from whole bufLen |} |}.

(** One pass of the loop of [ReadFrom] emits one chunk: [c_more] is the
    loop's [more], [c_h] its [h], [c_len] its [l] (the payload length) and
    [c_wire] the octets [buf[h:4+l]] handed to the sink. *)
Record chunk : Type := mkchunk
  { c_more : bool; c_h : Z; c_len : Z; c_wire : list byte }.

(** What [ReadFrom] leaves behind: its results [n] and [err], the sink,
    the chunk buffer, the unread rest of the source and the chunks
    emitted, first to last. *)
Record pumped : Type := mkpumped
  { p_n : Z; p_err : option error; p_w : list byte; p_buf : list byte;
    p_rest : list byte; p_chunks : list chunk }.

(** The header written into [buf[0:4]] and the offset [h] chosen for a
    chunk of [l] octets read with result [err]. *)
Definition header_for (chunkLen : Z) (buf : list byte) (l : Z)
  (err : option error) : list byte * Z * bool :=
  if (l =? chunkLen) && negb (is_err err) then  (* chunk-size partial blob *)
    let n := l - 16384 in
    let buf := set_at buf 0 (to_byte 0x81) in
    let buf := set_at buf 1 (badd (to_byte 0x60) (to_byte (Z.shiftr n 16))) in
    let buf := set_at buf 2 (to_byte (Z.shiftr n 8)) in
    let buf := set_at buf 3 (to_byte n) in
    (buf, 0, true)
  else if (l =? 1) && (u8 (idx buf 4) <? 128) then  (* 1-byte no-header blob *)
    (buf, 4, false)
  else if l <? 128 then                   (* short blob with 1-byte header *)
    let buf := set_at buf 3 (to_byte (0x80 + l)) in
    (buf, 3, false)
  else if l <? 16384 + 128 then          (* medium blob with 3-byte header *)
    let n := l - 128 in
    let buf := set_at buf 1 (to_byte 0x81) in
    let buf := set_at buf 2 (to_byte (Z.shiftr n 8)) in
    let buf := set_at buf 3 (to_byte n) in
    (buf, 1, false)
  else                                    (* large blob with 4-byte header *)
    let n := l - 16384 in
    let buf := set_at buf 0 (to_byte 0x81) in
    let buf := set_at buf 1 (badd (to_byte 0x40) (to_byte (Z.shiftr n 16))) in
    let buf := set_at buf 2 (to_byte (Z.shiftr n 8)) in
    let buf := set_at buf 3 (to_byte n) in
    (buf, 0, false).

(** The loop [for more { ... }] of [ReadFrom]; [fuel] bounds the number
    of passes and [None] means that it ran out. *)
Fixpoint pump (fuel : nat) (chunkLen : Z) (buf r w : list byte) (tot : Z)
  (log : list chunk) : option pumped :=
  match fuel with
  | O => None
  | S fuel =>
      (* Read a full chunk into the chunk buffer or until EOF *)
      let '(data, err, r) := ReadFull r (len (from buf 4)) in
      let l := len data in
      let buf := copy_at buf 4 data in
      if is_err err && negb (err_is err EOF) && negb (err_is err ErrUnexpectedEOF)
      then Some (mkpumped 0 err w buf r log)
      else
        (* Write either a complete or partial blob *)
        let '(buf, h, more) := header_for chunkLen buf l err in
        (* Write the blob header and data from the buffer *)
        let p := slice buf h (4 + l) in
        let '(lw, werr, w) := Write w p in
        let log := log ++ [mkchunk more h l p] in
        if is_err werr then Some (mkpumped 0 werr w buf r log)
        else if negb (lw =? 4 - h + l)
        then Some (mkpumped 0 (Some ErrShortWrite) w buf r log)
        else
          let tot := tot + l in
          if more then pump fuel chunkLen buf r w tot log
          else Some (mkpumped tot None w buf r log)
  end.

(** What a call of [ReadFrom] returns together with the encoder after
    the call. *)
Record encoded : Type := mkencoded
  { e_n : Z; e_err : option error; e_enc : Encoder; e_chunks : list chunk }.

(** [ReadFrom]: encode a blob by reading octets from [r] until EOF.  A
    pass that reads a full chunk consumes [chunkLen >= 1] octets, so
    [length r + 1] passes are enough ([ReadFrom_returns]). *)
Definition ReadFrom (e : Encoder) (r : list byte) : option encoded :=
  let '(e, b) := getBuf e in
  let chunkLen := len (vis b) - 4 in
  match pump (S (length r)) chunkLen (vis b) r (enc_w e) 0 [] with
  | None => None
  | Some p =>
      Some {| e_n := p_n p; e_err := p_err p;
              e_enc := {| enc_w := p_w p;
                          enc_buf := Some {| vis := p_buf p; spare := spare b |} |};
              e_chunks := p_chunks p |}
  end.

(** [Bytes]: encode a byte slice as a blob. *)
Definition Encoder_Bytes (e : Encoder) (b : list byte) : option encoded :=
  ReadFrom e b.

(** [binary.BigEndian.PutUint64(b, v)] on an 8-byte array *)
Definition PutUint64 (v : Z) : list byte :=
  [ to_byte (Z.shiftr v 56); to_byte (Z.shiftr v 48); to_byte (Z.shiftr v 40);
    to_byte (Z.shiftr v 32); to_byte (Z.shiftr v 24); to_byte (Z.shiftr v 16);
    to_byte (Z.shiftr v 8); to_byte v ].

(** [for len(b) > 0 && b[0] == 0 { b = b[1:] }] *)
Fixpoint trim (b : list byte) : list byte :=
  match b with
  | [] => []
  | x :: b' => if u8 x =? 0 then trim b' else b
  end.

(** [Uint64]: encode a uint64 as a big-endian unsigned integer blob. *)
Definition Encoder_Uint64 (e : Encoder) (v : Z) : option encoded :=
  Encoder_Bytes e (trim (PutUint64 v)).

(** uint64 and int64 as [Z], with the wrap-around of Go's conversions and
    operators. *)
Definition wrap64 (x : Z) : Z := x mod 2 ^ 64.              (* uint64(x) *)
Definition swrap64 (x : Z) : Z := (x + 2 ^ 63) mod 2 ^ 64 - 2 ^ 63. (* int64(x) *)

(** The zig-zag map of [Encoder.Int64], from int64 to uint64. *)
Definition zigzag (v : Z) : Z :=
  if v >=? 0 then wrap64 (Z.shiftl (wrap64 v) 1)
  else wrap64 (wrap64 (Z.shiftl (wrap64 (Z.lnot v)) 1) + 1).

(** [Int64]: encode an int64 as a zigzag-encoded signed integer blob. *)
Definition Encoder_Int64 (e : Encoder) (v : Z) : option encoded :=
  Encoder_Uint64 e (zigzag v).

(** ** The streaming decoder *)

(** [Decoder] wraps a [bufio.Reader] over an in-memory source: [dec_in]
    is what is still unread and [dec_last] the octet that [UnreadByte]
    would give back. *)
Record Decoder : Type := mkDecoder { dec_in : list byte; dec_last : option byte }.

Definition NewDecoder (r : list byte) : Decoder :=
  {| dec_in := r; dec_last := None |}.

(** [d.r.ReadByte()] *)
Definition ReadByte (d : Decoder) : (byte * option error) * Decoder :=
  match dec_in d with
  | [] => ((Byte.x00, Some EOF), d)
  | b :: rest => ((b, None), {| dec_in := rest; dec_last := Some b |})
  end.

(** [d.r.UnreadByte()]; its error result is dropped by the callers. *)
Definition UnreadByte (d : Decoder) : Decoder :=
  match dec_last d with
  | Some b => {| dec_in := b :: dec_in d; dec_last := None |}
  | None => d
  end.

(** [io.CopyN(w, d.r, n)]: copies what is there, up to [n] octets, and
    reports EOF when that is less than [n]. *)
Definition CopyN (w : list byte) (d : Decoder) (n : Z)
  : (Z * option error) * list byte * Decoder :=
  let data := firstn (Z.to_nat n) (dec_in d) in
  let d' := {| dec_in := skipn (Z.to_nat n) (dec_in d);
               dec_last := match rev data with
                           | [] => dec_last d
                           | b :: _ => Some b
                           end |} in
  ((len data, if len data <? n then Some EOF else None), w ++ data, d').

(** [header]: decode the header of the next blob or chunk. *)
Definition header (d : Decoder) : (Z * bool * option error) * Decoder :=
  (* first header byte *)
  let '((h0, err), d) := ReadByte d in
  if is_err err then ((0, false, err), d)
  else if u8 h0 <? 0x80 then
    let d := UnreadByte d in      (* the header is also the 1-byte content *)
    ((1, false, None), d)
  else if negb (u8 h0 =? 0x81) then
    ((u8 (bsub h0 (to_byte 0x80)), false, None), d)
  else
  (* second header byte *)
  let '((h1, err), d) := ReadByte d in
  if is_err err then ((0, false, err), d)
  else if u8 h1 >=? 0x80 then
    let d := UnreadByte d in      (* 1-byte actual content *)
    ((1, false, None), d)
  else
  (* third header byte *)
  let '((h2, err), d) := ReadByte d in
  if is_err err then ((0, false, err), d)
  else if u8 h1 <? 0x40 then      (* 3-byte header for medium-size blob *)
    ((128 + Z.shiftl (u8 h1) 8 + u8 h2, false, None), d)
  else
  (* fourth header byte *)
  let '((h3, err), d) := ReadByte d in
  if is_err err then ((0, false, err), d)
  else if u8 h1 <? 0x60 then      (* 4-byte header of final large chunk *)
    ((16384 + Z.shiftl (u8 (band h1 (to_byte 0x1f))) 16 + Z.shiftl (u8 h2) 8 + u8 h3,
      false, None), d)
  else                            (* 4-byte header of partial blob *)
    ((16384 + Z.shiftl (u8 (band h1 (to_byte 0x1f))) 16 + Z.shiftl (u8 h2) 8 + u8 h3,
      true, None), d).

(** What [WriteTo] leaves behind: [n], [err], the sink and the decoder. *)
Record drained : Type := mkdrained
  { d_n : Z; d_err : option error; d_w : list byte; d_dec : Decoder }.

(** The loop [for { ... }] of [WriteTo]; [None] when [fuel] ran out. *)
Fixpoint drain (fuel : nat) (d : Decoder) (w : list byte) (tot : Z)
  : option drained :=
  match fuel with
  | O => None
  | S fuel =>
      (* Decode the next blob or part header *)
      let '((n, part, err), d) := header d in
      if is_err err then Some (mkdrained 0 err w d)
      else
        (* Copy the data to the writer *)
        let '((wn, err), w, d) := CopyN w d n in
        if is_err err then Some (mkdrained 0 err w d)
        else if negb (wn =? n) then Some (mkdrained 0 (Some ErrShortWrite) w d)
        else
          let tot := tot + n in
          if negb part then Some (mkdrained tot None w d)
          else drain fuel d w tot
  end.

(** [WriteTo]: decode the next complete blob from the input and write it
    to [w].  Every partial chunk takes four header octets from the input,
    so [length (dec_in d) + 1] passes are enough. *)
Definition WriteTo (d : Decoder) (w : list byte) : option drained :=
  drain (S (length (dec_in d))) d w 0.

(** [Bytes]: decode a blob into a byte slice. *)
Definition Decoder_Bytes (d : Decoder)
  : option ((list byte * option error) * Decoder) :=
  match WriteTo d [] with
  | None => None
  | Some r =>
      if is_err (d_err r) then Some (([], d_err r), d_dec r)
      else Some ((d_w r, None), d_dec r)
  end.

(** [binary.BigEndian.Uint64(b)] on an 8-byte array *)
Definition BigEndian_Uint64 (b : list byte) : Z :=
  Z.lor (u8 (idx b 7))
 (Z.lor (Z.shiftl (u8 (idx b 6)) 8)
 (Z.lor (Z.shiftl (u8 (idx b 5)) 16)
 (Z.lor (Z.shiftl (u8 (idx b 4)) 24)
 (Z.lor (Z.shiftl (u8 (idx b 3)) 32)
 (Z.lor (Z.shiftl (u8 (idx b 2)) 40)
 (Z.lor (Z.shiftl (u8 (idx b 1)) 48)
        (Z.shiftl (u8 (idx b 0)) 56))))))).

(** [Uint64]: decode a blob as a big-endian unsigned integer. *)
Definition Decoder_Uint64 (d : Decoder)
  : option ((Z * option error) * Decoder) :=
  match Decoder_Bytes d with
  | None => None
  | Some ((b, err), d) =>
      if is_err err then Some ((0, err), d)
      else if len b >? 8 then Some ((0, Some ErrUint64Overflow), d)
      else
        let b8 := make 8 in
        let b8 := copy_at b8 (8 - len b) b in
        Some ((BigEndian_Uint64 b8, None), d)
  end.

(** The zig-zag decoding of [Decoder.Int64], from uint64 to int64:
    0 -> 0, 1 -> -1, 2 -> 1, 3 -> -2, etc. *)
Definition unzigzag (v : Z) : Z :=
  if Z.land v 1 =? 0 then swrap64 (Z.shiftr v 1)
  else swrap64 (-1 - swrap64 (Z.shiftr v 1)).

(** [Int64]: decode a blob as a zigzag-encoded signed integer. *)
Definition Decoder_Int64 (d : Decoder)
  : option ((Z * option error) * Decoder) :=
  match Decoder_Uint64 d with
  | None => None
  | Some ((v, err), d) =>
      if is_err err then Some ((0, err), d)
      else Some ((unzigzag v, None), d)
  end.

(** ** The small-only contiguous codec ([cbe.go]) *)

Module SmallCbe.

(** [Encode]: append the encoding of [src] to [dst]; small slices only. *)
Definition Encode (dst src : list byte) : outcome (list byte) :=
  (* 1-byte header encoding *)
  let n := len src in
  if (n =? 1) && (u8 (idx src 0) <? 128) then
    Returns (dst ++ src)                 (* value is the blob encoding *)
  else if n <? 64 then
    let dst := dst ++ [to_byte (128 + n)] in
    Returns (dst ++ src)
  (* 2-byte header encoding *)
  else if n <? 16448 then
    let n := n - 64 in
    let dst := dst ++ [badd (to_byte 0xc0) (to_byte (Z.shiftr n 8)); to_byte n] in
    Returns (dst ++ src)
  else Panics ContentTooLarge.

(** [decodeHeader]: offset and length of the content of a small blob. *)
Definition decodeHeader (buf : list byte) : Z * Z * option error :=
  (* 1-byte headers *)
  if len buf =? 0 then (0, 0, Some EOF)
  else if u8 (idx buf 0) <? 128 then (0, 1, None)
  else if negb (u8 (idx buf 0) =? 129) && (u8 (idx buf 0) <? 128 + 64) then
    (1, u8 (bsub (idx buf 0) (to_byte 128)), None)
  (* 2-byte headers *)
  else if len buf <? 2 then (0, 0, Some EOF)
  else if (u8 (idx buf 0) =? 129) && (u8 (idx buf 1) >=? 128) then (1, 1, None)
  else if u8 (idx buf 0) >=? 128 + 64 then
    (2, 64 + Z.shiftl (u8 (band (idx buf 0) (to_byte 63))) 8 + u8 (idx buf 1), None)
  (* 4-byte streaming-capable headers *)
  else (0, 0, Some TooLong).

(** [Decode]: content and remainder of a small blob. *)
Definition Decode (buf : list byte) : list byte * list byte * option error :=
  let '(ofs, n, err) := decodeHeader buf in
  if is_err err then ([], [], err)
  else if len buf <? ofs + n then ([], [], Some EOF)
  else (slice buf ofs (ofs + n), from buf (ofs + n), None).

End SmallCbe.

(** ** The full contiguous codec ([cbe/cbe.go]) *)

Module Cbe.

(** [Encode]: append the encoding of [src] to [dst].  Really large
    inputs go through the streaming [Encoder] on a [bytes.Buffer] that
    starts as [dst], with maximum-size chunks. *)
Definition Encode (dst src : list byte) : option (outcome (list byte)) :=
  (* 1-byte header encoding *)
  let n := len src in
  if (n =? 1) && (u8 (idx src 0) <? 128) then
    Some (Returns (dst ++ src))
  else if n <? 64 then
    let dst := dst ++ [to_byte (128 + n)] in
    Some (Returns (dst ++ src))
  (* 2-byte header encoding *)
  else if n <? 16448 then
    let n := n - 64 in
    let dst := dst ++ [badd (to_byte 0xc0) (to_byte (Z.shiftr n 8)); to_byte n] in
    Some (Returns (dst ++ src))
  (* 4-byte header encoding *)
  else if n <? 4210752 then
    let n := n - 16448 in
    let dst := dst ++ [to_byte 0x81; badd (to_byte 0x00) (to_byte (Z.shiftr n 16));
                       to_byte (Z.shiftr n 8); to_byte n] in
    Some (Returns (dst ++ src))
  else
    (* fall back on the general Encoder *)
    let enc := NewEncoder dst in
    match SetChunkLen enc MaxChunkLen with
    | Panics p => Some (Panics p)
    | Returns enc =>
        match Encoder_Bytes enc src with
        | None => None
        | Some r =>
            if is_err (e_err r) then Some (Panics EncodingError)
            else Some (Returns (enc_w (e_enc r)))
        end
    end.

(** [decodeHeader]: offset and length of the payload of the chunk at the
    start of [buf], and whether the chunk is partial. *)
Definition decodeHeader (buf : list byte) : Z * Z * bool * option error :=
  (* 1-byte headers *)
  if len buf =? 0 then (0, 0, false, Some EOF)
  else if u8 (idx buf 0) <? 128 then (0, 1, false, None)
  else if negb (u8 (idx buf 0) =? 129) && (u8 (idx buf 0) <? 128 + 64) then
    (1, u8 (bsub (idx buf 0) (to_byte 128)), false, None)
  (* 2-byte headers *)
  else if len buf <? 2 then (0, 0, false, Some EOF)
  else if (u8 (idx buf 0) =? 129) && (u8 (idx buf 1) >=? 128) then
    (1, 1, false, None)
  else if u8 (idx buf 0) >=? 128 + 64 then
    (2, 64 + Z.shiftl (u8 (band (idx buf 0) (to_byte 63))) 8 + u8 (idx buf 1),
     false, None)
  (* 4-byte headers *)
  else if len buf <? 4 then (0, 0, false, Some EOF)
  else
    let part := u8 (idx buf 1) >=? 0x40 in
    (4, 16448 + Z.shiftl (u8 (band (idx buf 1) (to_byte 0x3f))) 16
          + Z.shiftl (u8 (idx buf 2)) 8 + u8 (idx buf 3), part, None).

(** [append(content, p...)] where [content] may be nil ([None]): appending
    nothing to nil leaves nil. *)
Definition append_nil (content : option (list byte)) (p : list byte)
  : option (list byte) :=
  match content, p with
  | None, [] => None
  | None, _ => Some p
  | Some c, _ => Some (c ++ p)
  end.

(** A nil slice read as a byte sequence. *)
Definition bytes_of (content : option (list byte)) : list byte :=
  match content with None => [] | Some c => c end.

(** The loop of [Decode]; [None] when [fuel] ran out. *)
Fixpoint Decode_loop (fuel : nat) (content : option (list byte))
  (buf : list byte) : option (list byte * list byte * option error) :=
  match fuel with
  | O => None
  | S fuel =>
      let '(ofs, n, part, err) := decodeHeader buf in
      if is_err err then Some ([], [], err)
      else if len buf <? ofs + n then Some ([], [], Some EOF)
      else if negb part && negb (match content with Some _ => true | None => false end) then   (* all in only one chunk *)
        Some (slice buf ofs (ofs + n), from buf (ofs + n), None)
      else
        (* Concatenate all content into one buffer *)
        let content := append_nil content (slice buf ofs (ofs + n)) in
        let buf := from buf (ofs + n) in
        if negb part then Some (bytes_of content, buf, None)   (* final chunk *)
        else Decode_loop fuel content buf
  end.

(** [Decode]: content and remainder of the blob at the start of [buf].
    A partial chunk takes at least four octets of [buf], so
    [length buf + 1] passes are enough. *)
Definition Decode (buf : list byte)
  : option (list byte * list byte * option error) :=
  Decode_loop (S (length buf)) None buf.

End Cbe.

(** ** The small-only contiguous codec of package [cbs] *)

Module Cbs.

(** [Encode]: blob-encode [src] and append it to [dst]; slices of less
    than 16KiB only. *)
Definition Encode (dst src : list byte) : outcome (list byte) :=
  (* 1-byte header encoding *)
  let n := len src in
  if (n =? 1) && (u8 (idx src 0) <? 128) then
    Returns (dst ++ src)                 (* value is the blob encoding *)
  else if n <? 128 then
    let dst := dst ++ [to_byte (128 + n)] in
    Returns (dst ++ src)
  (* 3-byte header encoding *)
  else if n <? 16384 then
    let n := n - 128 in
    let dst := dst ++ [to_byte 0x81; to_byte (Z.shiftr n 8); to_byte n] in
    Returns (dst ++ src)
  else Panics ContentTooLarge.

(** [decodeHeader]: offset and length of the content of a small blob. *)
Definition decodeHeader (buf : list byte) : Z * Z * option error :=
  (* 1-byte headers *)
  if len buf =? 0 then (0, 0, Some EOF)
  else if u8 (idx buf 0) <? 128 then (0, 1, None)
  else if negb (u8 (idx buf 0) =? 129) then
    (1, u8 (bsub (idx buf 0) (to_byte 128)), None)
  (* 2-byte headers *)
  else if len buf <? 2 then (0, 0, Some EOF)
  else if u8 (idx buf 1) >=? 128 then (1, 1, None)
  (* 3-byte headers *)
  else if len buf <? 3 then (0, 0, Some EOF)
  else if u8 (idx buf 1) <? 64 then
    (3, 128 + Z.shiftl (u8 (idx buf 1)) 8 + u8 (idx buf 2), None)
  (* 4-byte streaming-capable headers *)
  else (0, 0, Some TooLong).

(** [Decode]: content and remainder of a small blob. *)
Definition Decode (buf : list byte) : list byte * list byte * option error :=
  let '(ofs, n, err) := decodeHeader buf in
  if is_err err then ([], [], err)
  else if len buf <? ofs + n then ([], [], Some EOF)
  else (slice buf ofs (ofs + n), from buf (ofs + n), None).

End Cbs.

(** ** Big integers

    A [*big.Int] is a [Z].  [x.Bytes()] is the absolute value of [x] as a
    big-endian byte slice without leading zero octets and [SetBytes(b)]
    reads [b] as a big-endian unsigned integer. *)

(** The big-endian octets of [n >= 0]; [fuel] bounds their number. *)
Fixpoint be_octets (fuel : nat) (n : Z) : list byte :=
  match fuel with
  | O => []
  | S fuel => if n <=? 0 then [] else be_octets fuel (n / 256) ++ [to_byte n]
  end.

Definition big_Bytes (x : Z) : list byte :=
  be_octets (S (Z.to_nat (Z.log2 (Z.abs x)))) (Z.abs x).

Definition big_SetBytes (b : list byte) : Z :=
  fold_left (fun acc x => acc * 256 + u8 x) b 0.

(** [UnsignedInt]: encode the absolute value of a big.Int as a
    big-endian unsigned integer blob. *)
Definition Encoder_UnsignedInt (e : Encoder) (v : Z) : option encoded :=
  Encoder_Bytes e (big_Bytes v).

(** [SignedInt]: encode a big.Int as a big-endian zigzag-encoded signed
    integer blob. *)
Definition Encoder_SignedInt (e : Encoder) (v : Z) : option encoded :=
  let u :=
    if Z.sgn v >=? 0 then Z.shiftl v 1             (* u.Lsh(v, 1) *)
    else
      let u := -1 - v in                           (* u.Sub(minusOne, v) *)
      let u := Z.shiftl u 1 in                     (* u.Lsh(u, 1) *)
      Z.setbit u 0                                 (* u.SetBit(u, 0, 1) *)
  in
  Encoder_Bytes e (big_Bytes u).

(** [UnsignedInt]: decode a blob as a big-endian unsigned integer,
    placing its value into the designated big.Int, whose value before
    the call is [v]; the result is its value after the call. *)
Definition Decoder_UnsignedInt (d : Decoder) (v : Z)
  : option ((Z * option error) * Decoder) :=
  match Decoder_Bytes d with
  | None => None
  | Some ((b, err), d) =>
      if is_err err then Some ((v, err), d)
      else Some ((big_SetBytes b, None), d)
  end.

(** [SignedInt]: decode a blob as a big-endian zigzag-encoded signed
    integer, placing its value into the designated big.Int. *)
Definition Decoder_SignedInt (d : Decoder) (v : Z)
  : option ((Z * option error) * Decoder) :=
  match Decoder_UnsignedInt d v with
  | None => None
  | Some ((v, err), d) =>
      if is_err err then Some ((v, err), d)
      else
        (* pull the sign out of the least-significant bit *)
        let sign := Z.testbit v 0 in
        let v := Z.shiftr v 1 in
        Some ((if sign then -1 - v else v, None), d)
  end.

(** ** Predicates used in the statements *)

(** An encoder whose chunk buffer, once created, has a length that
    [SetChunkLen] accepts: every encoder reachable from [NewEncoder]. *)
Definition legal (e : Encoder) : Prop :=
  MinChunkLen <= ChunkLen e <= MaxChunkLen.

(** The octets that a list of chunks puts on the wire. *)
Definition wire_of (cs : list chunk) : list byte := concat (map c_wire cs).

(** The payload of a chunk: its wire octets after the [4 - h] header octets. *)
Definition payload (c : chunk) : list byte := from (c_wire c) (4 - c_h c).

(** The header octets of a chunk. *)
Definition header_of (c : chunk) : list byte := slice (c_wire c) 0 (4 - c_h c).

(** [buf] starts with all four octets of a 4-byte header of the full
    contiguous grammar. *)
Definition large_header_complete (buf : list byte) : Prop :=
  4 <= len buf /\ u8 (idx buf 0) = 0x81 /\ u8 (idx buf 1) < 0x80.

(** [buf] starts with the first two octets of a 4-byte header. *)
Definition large_header_begun (buf : list byte) : Prop :=
  2 <= len buf /\ u8 (idx buf 0) = 0x81 /\ u8 (idx buf 1) < 0x80.

(** int64 and uint64 values *)
Definition is_int64 (v : Z) : Prop := - 2 ^ 63 <= v < 2 ^ 63.
Definition is_uint64 (u : Z) : Prop := 0 <= u < 2 ^ 64.

(** ** The chunks of a blob, as [ReadFrom] cuts them

    [partial_header l] and [final_header data] are the header octets that
    the branches of [header_for] leave in [buf[h:4]]; [emits c r cs] says
    that [cs] is the sequence of chunks for the source [r] at chunk size
    [c].  [ReadFrom_emits] shows that this is what [ReadFrom] does. *)

Definition partial_header (l : Z) : list byte :=
  let n := l - 16384 in
  [ to_byte 0x81; badd (to_byte 0x60) (to_byte (Z.shiftr n 16));
    to_byte (Z.shiftr n 8); to_byte n ].

Definition final_header (data : list byte) : list byte :=
  let l := len data in
  if (l =? 1) && (u8 (idx data 0) <? 128) then []
  else if l <? 128 then [ to_byte (0x80 + l) ]
  else if l <? 16384 + 128 then
    [ to_byte 0x81; to_byte (Z.shiftr (l - 128) 8); to_byte (l - 128) ]
  else
    [ to_byte 0x81; badd (to_byte 0x40) (to_byte (Z.shiftr (l - 16384) 16));
      to_byte (Z.shiftr (l - 16384) 8); to_byte (l - 16384) ].

Definition partial_chunk (data : list byte) : chunk :=
  mkchunk true 0 (len data) (partial_header (len data) ++ data).

Definition final_chunk (data : list byte) : chunk :=
  mkchunk false (4 - len (final_header data)) (len data)
          (final_header data ++ data).

Inductive emits (c : Z) : list byte -> list chunk -> Prop :=
| emits_final (r : list byte) :
    len r < c -> emits c r [final_chunk r]
| emits_partial (r : list byte) (cs : list chunk) :
    c <= len r ->
    emits c (skipn (Z.to_nat c) r) cs ->
    emits c r (partial_chunk (firstn (Z.to_nat c) r) :: cs).

(** Every partial chunk among the chunks of [res] carries between [lo]
    and [hi] payload octets. *)
Definition partial_payloads_within (lo hi : Z) (res : encoded) : Prop :=
  Forall (fun ch => c_more ch = true -> lo <= len (payload ch) <= hi)
         (e_chunks res).

(** The two chunks of the 40000-octet scenario at chunk size 16384 as
    the specification lists them. *)
Definition two_chunk_scenario (res : encoded) : Prop :=
  exists c1 c2,
    e_chunks res = [c1; c2] /\
    c_more c1 = true /\ len (payload c1) = 16384 /\
    header_of c1 = [Byte.x81; Byte.x40; Byte.x00; Byte.x00] /\
    c_more c2 = false /\ len (payload c2) = 23616 /\
    header_of c2 = [Byte.x81; Byte.x00; Byte.x1c; Byte.x00].

(** The wire octets of [ch] are one chunk as the [Decoder] reads it:
    on these octets, followed by anything, [header] returns the length
    of the payload of [ch] and the flag [c_more ch], without error, and
    leaves the payload and what follows unread. *)
Definition chunk_on_wire (ch : chunk) : Prop :=
  forall (rest : list byte) (l : option byte),
  exists l',
    header {| dec_in := c_wire ch ++ rest; dec_last := l |} =
      ((len (payload ch), c_more ch, None),
       {| dec_in := payload ch ++ rest; dec_last := l' |}).

(** The header octets that the contiguous encoders put before [src]
    ([contiguous_header_Encode]). *)
Definition contiguous_header (src : list byte) : list byte :=
  let n := len src in
  if (n =? 1) && (u8 (idx src 0) <? 128) then []
  else if n <? 64 then [ to_byte (128 + n) ]
  else if n <? 16448 then
    [ badd (to_byte 0xc0) (to_byte (Z.shiftr (n - 64) 8)); to_byte (n - 64) ]
  else
    [ to_byte 0x81; badd (to_byte 0x00) (to_byte (Z.shiftr (n - 16448) 16));
      to_byte (Z.shiftr (n - 16448) 8); to_byte (n - 16448) ].

(** * Properties *)

(** ** Bytes and slices *)

Lemma u8_to_byte (x : Z) : u8 (to_byte x) = x mod 256.
Proof. unfold u8, to_byte. rewrite byte.unsigned_of_Z. reflexivity. Qed.

Lemma u8_range (b : byte) : 0 <= u8 b < 256.
Proof. unfold u8. pose proof (byte.unsigned_range b). lia. Qed.

Lemma to_byte_u8 (b : byte) : to_byte (u8 b) = b.
Proof. apply byte.of_Z_unsigned. Qed.

Lemma u8_to_byte_small (x : Z) : 0 <= x < 256 -> u8 (to_byte x) = x.
Proof. intros H. rewrite u8_to_byte. apply Z.mod_small. exact H. Qed.

Lemma u8_inj (a b : byte) : u8 a = u8 b -> a = b.
Proof. apply byte.unsigned_inj. Qed.

Lemma len_nil {A : Type} : len (@nil A) = 0.
Proof. reflexivity. Qed.

Lemma len_cons {A : Type} (x : A) (s : list A) : len (x :: s) = 1 + len s.
Proof. unfold len. simpl length. lia. Qed.

Lemma len_app {A : Type} (s t : list A) : len (s ++ t) = len s + len t.
Proof. unfold len. rewrite length_app. lia. Qed.

Lemma len_nonneg {A : Type} (s : list A) : 0 <= len s.
Proof. unfold len. lia. Qed.

Lemma len_0 {A : Type} (s : list A) : len s = 0 -> s = [].
Proof. destruct s; [reflexivity | rewrite len_cons; pose proof (len_nonneg s); lia]. Qed.

Lemma len_firstn {A : Type} (n : Z) (s : list A) :
  len (firstn (Z.to_nat n) s) = Z.min (Z.max 0 n) (len s).
Proof. unfold len. rewrite length_firstn. lia. Qed.

Lemma len_skipn {A : Type} (n : Z) (s : list A) :
  len (skipn (Z.to_nat n) s) = Z.max 0 (len s - Z.max 0 n).
Proof. unfold len. rewrite length_skipn. lia. Qed.

Lemma firstn_exact {A : Type} (n : Z) (s t : list A) :
  len s = n -> firstn (Z.to_nat n) (s ++ t) = s.
Proof.
  unfold len. intros H.
  replace (Z.to_nat n) with (length s + 0)%nat by lia.
  rewrite firstn_app_2. simpl. apply app_nil_r.
Qed.

Lemma skipn_exact {A : Type} (n : Z) (s t : list A) :
  len s = n -> skipn (Z.to_nat n) (s ++ t) = t.
Proof.
  unfold len. intros H.
  replace (Z.to_nat n) with (length s) by lia.
  rewrite skipn_app, skipn_all, Nat.sub_diag. reflexivity.
Qed.

Lemma firstn_whole {A : Type} (n : Z) (s : list A) :
  len s <= n -> firstn (Z.to_nat n) s = s.
Proof. unfold len. intros H. apply firstn_all2. lia. Qed.

Lemma skipn_whole {A : Type} (n : Z) (s : list A) :
  len s <= n -> skipn (Z.to_nat n) s = [].
Proof. unfold len. intros H. apply skipn_all2. lia. Qed.

Lemma slice_exact {A : Type} (p s t : list A) (lo hi : Z) :
  len p = lo -> len s = hi - lo -> slice (p ++ s ++ t) lo hi = s.
Proof.
  intros Hp Hs. unfold slice.
  rewrite (skipn_exact lo p) by exact Hp.
  apply firstn_exact. exact Hs.
Qed.

Lemma from_exact {A : Type} (p t : list A) (lo : Z) :
  len p = lo -> from (p ++ t) lo = t.
Proof. intros Hp. unfold from. apply skipn_exact. exact Hp. Qed.

Lemma idx_0 (b : byte) (s : list byte) : idx (b :: s) 0 = b.
Proof. reflexivity. Qed.

Lemma idx_1 (a b : byte) (s : list byte) : idx (a :: b :: s) 1 = b.
Proof. reflexivity. Qed.

Lemma idx_app_l (s t : list byte) (i : Z) :
  0 <= i < len s -> idx (s ++ t) i = idx s i.
Proof. unfold idx, len. intros H. apply app_nth1. lia. Qed.

(** Bits of small numbers: [0xc0 | x] is [0xc0 + x] below 64. *)
Lemma lor_192 (x : Z) : 0 <= x < 64 -> Z.lor 0xC0 x = 0xC0 + x.
Proof.
  intros H.
  assert (E : Z.land 0xC0 x = 0).
  { apply Z.bits_inj'. intros n Hn.
    rewrite Z.land_spec, Z.bits_0.
    destruct (Z.ltb_spec n 6) as [Hl | Hl].
    - assert (C : n = 0 \/ n = 1 \/ n = 2 \/ n = 3 \/ n = 4 \/ n = 5) by lia.
      destruct C as [-> | [-> | [-> | [-> | [-> | ->]]]]]; reflexivity.
    - replace x with (x mod 2 ^ 6) by (apply Z.mod_small; lia).
      rewrite Z.mod_pow2_bits_high by lia. apply andb_false_r. }
  rewrite <- Z.lxor_lor by exact E.
  symmetry. apply Z.add_nocarry_lxor. exact E.
Qed.

Lemma land_255 (x : Z) : Z.land x 0xFF = x mod 256.
Proof. change 0xFF with (Z.ones 8). rewrite Z.land_ones by lia. reflexivity. Qed.

Lemma shiftr_8_bound (n : Z) : 0 <= n < 16384 -> 0 <= Z.shiftr n 8 < 64.
Proof.
  intros H. rewrite Z.shiftr_div_pow2 by lia. change (2 ^ 8) with 256.
  split; [apply Z.div_pos; lia | apply Z.div_lt_upper_bound; lia].
Qed.

(** Case analysis on the integer tests of a goal. *)
Ltac ztests :=
  rewrite ?Z.geb_leb, ?Z.gtb_ltb in *;
  repeat match goal with
    | |- context [Z.ltb ?a ?b] => destruct (Z.ltb_spec a b)
    | |- context [Z.leb ?a ?b] => destruct (Z.leb_spec a b)
    | |- context [Z.eqb ?a ?b] => destruct (Z.eqb_spec a b)
    end;
  cbn [andb orb negb is_err fst snd].

(** ** The small-only codec *)

(** C10. The small-only [Encode] returns normally whenever
    [len(src) < 16448]; it reaches its panic exactly when
    [len(src) >= 16448]. *)
Theorem small_Encode_panic_free (dst src : list byte) :
  (len src < 16448 -> exists out, SmallCbe.Encode dst src = Returns out) /\
  (SmallCbe.Encode dst src = Panics ContentTooLarge <-> 16448 <= len src).
Proof.
  unfold SmallCbe.Encode. split; [intros Hlt | split; intros H].
  - ztests; try lia; eexists; reflexivity.
  - revert H. ztests; try lia; discriminate.
  - ztests; try lia; reflexivity.
Qed.

Lemma small_Encode_panic_free_witness :
  (exists out, SmallCbe.Encode [] [Byte.x2a; Byte.xff] = Returns out) /\
  SmallCbe.Encode [] (make 16448) = Panics ContentTooLarge.
Proof.
  split.
  - apply (proj1 (small_Encode_panic_free [] [Byte.x2a; Byte.xff])).
    vm_compute. reflexivity.
  - apply (proj2 (small_Encode_panic_free [] (make 16448))).
    vm_compute. discriminate.
Defined.

Lemma small_decodeHeader_TooLong (buf : list byte) :
  snd (SmallCbe.decodeHeader buf) = Some TooLong <-> large_header_begun buf.
Proof.
  unfold SmallCbe.decodeHeader, large_header_begun.
  pose proof (u8_range (idx buf 0)). pose proof (u8_range (idx buf 1)).
  split.
  - ztests; cbn [snd]; intros E; try discriminate E; lia.
  - intros (H1 & H2 & H3). ztests; cbn [snd]; try lia; reflexivity.
Qed.

Lemma small_Decode_err (buf : list byte) :
  snd (SmallCbe.Decode buf) = Some TooLong <->
  snd (SmallCbe.decodeHeader buf) = Some TooLong.
Proof.
  unfold SmallCbe.Decode.
  destruct (SmallCbe.decodeHeader buf) as [[ofs n] [e|]]; cbn [is_err snd].
  - reflexivity.
  - destruct (len buf <? ofs + n); cbn [snd]; split; discriminate.
Qed.

(** ** The full contiguous decoder *)

(** What [decodeHeader] can return. *)
Lemma decodeHeader_shape (buf : list byte) :
  match Cbe.decodeHeader buf with
  | (ofs, n, part, None) =>
      0 <= ofs <= 4 /\ 0 <= n /\ (part = true -> ofs = 4 /\ 16448 <= n)
  | (_, _, _, Some e) => e = EOF
  end.
Proof.
  unfold Cbe.decodeHeader.
  pose proof (u8_range (idx buf 0)). pose proof (u8_range (idx buf 1)).
  pose proof (u8_range (idx buf 2)). pose proof (u8_range (idx buf 3)).
  pose proof (u8_range (band (idx buf 0) (to_byte 63))).
  pose proof (u8_range (band (idx buf 1) (to_byte 0x3f))).
  pose proof (u8_range (bsub (idx buf 0) (to_byte 128))).
  repeat rewrite Z.shiftl_mul_pow2 by lia.
  ztests; try reflexivity; repeat split; try lia; try discriminate.
Qed.

(** With enough fuel the loop of [Decode] returns, and its error is nil
    or EOF. *)
Lemma Decode_loop_returns (fuel : nat) :
  forall content buf, (length buf < fuel)%nat ->
  exists c r e, Cbe.Decode_loop fuel content buf = Some (c, r, e) /\
                (e = None \/ e = Some EOF).
Proof.
  induction fuel as [| fuel IH]; intros content buf Hf; [lia |].
  cbn [Cbe.Decode_loop].
  pose proof (decodeHeader_shape buf) as Hs.
  destruct (Cbe.decodeHeader buf) as [[[ofs n] part] [e|]]; cbn [is_err].
  - subst e. do 3 eexists. split; [reflexivity | now right].
  - destruct Hs as (Ho & Hn & Hp).
    destruct (Z.ltb_spec (len buf) (ofs + n)) as [Hl | Hl].
    + do 3 eexists. split; [reflexivity | now right].
    + destruct part; cbn [negb andb].
      * apply IH. destruct (Hp eq_refl) as [-> Hn'].
        unfold from. rewrite length_skipn. unfold len in Hl. lia.
      * destruct content; cbn [negb];
          do 3 eexists; (split; [reflexivity | now left]).
Qed.

(** The full [decodeHeader] on a complete 4-byte header. *)
Lemma decodeHeader_large (buf : list byte) :
  large_header_complete buf ->
  Cbe.decodeHeader buf =
    (4, 16448 + Z.shiftl (Z.land (u8 (idx buf 1)) 0x3f) 16
          + Z.shiftl (u8 (idx buf 2)) 8 + u8 (idx buf 3),
     0x40 <=? u8 (idx buf 1), None).
Proof.
  intros (H1 & H2 & H3). unfold Cbe.decodeHeader.
  pose proof (u8_range (idx buf 1)).
  assert (Eb : u8 (band (idx buf 1) (to_byte 0x3f)) =
               Z.land (u8 (idx buf 1)) 0x3f).
  { unfold band, byte.and. fold (u8 (idx buf 1)). fold (u8 (to_byte 0x3f)).
    fold (to_byte (Z.land (u8 (idx buf 1)) (u8 (to_byte 63)))).
    rewrite (u8_to_byte_small 63) by lia.
    apply u8_to_byte_small.
    change 63 with (Z.ones 6). rewrite Z.land_ones by lia.
    pose proof (Z.mod_pos_bound (u8 (idx buf 1)) (2 ^ 6)). lia. }
  rewrite Eb.
  ztests; try lia; reflexivity.
Qed.

(** What the two decoders do with a 4-byte header.  The small-only
    [Decode] returns [TooLong] exactly when its input has at least two
    octets, the first [0x81] and the second below [0x80].  The full
    [Decode] always returns, never with [TooLong], and its
    [decodeHeader] decodes a complete 4-byte header as offset 4, length
    [16448 + (b1 & 0x3f) << 16 + b2 << 8 + b3] and the partial flag
    [b1 >= 0x40]. *)
Theorem TooLong_small_only (buf : list byte) :
  (snd (SmallCbe.Decode buf) = Some TooLong <-> large_header_begun buf) /\
  (exists c r e, Cbe.Decode buf = Some (c, r, e) /\ e <> Some TooLong) /\
  (large_header_complete buf ->
   Cbe.decodeHeader buf =
     (4, 16448 + Z.shiftl (Z.land (u8 (idx buf 1)) 0x3f) 16
           + Z.shiftl (u8 (idx buf 2)) 8 + u8 (idx buf 3),
      0x40 <=? u8 (idx buf 1), None)).
Proof.
  split; [| split].
  - rewrite small_Decode_err. apply small_decodeHeader_TooLong.
  - destruct (Decode_loop_returns (S (length buf)) None buf) as (c & r & e & E & He);
      [lia |].
    exists c, r, e. split; [exact E |].
    destruct He as [-> | ->]; discriminate.
  - apply decodeHeader_large.
Qed.

Lemma TooLong_small_only_witness :
  Cbe.decodeHeader [Byte.x81; Byte.x41; Byte.x02; Byte.x03; Byte.xee] =
    (4, 16448 + 65536 + 512 + 3, true, None).
Proof.
  apply (proj2 (proj2
    (TooLong_small_only [Byte.x81; Byte.x41; Byte.x02; Byte.x03; Byte.xee]))).
  unfold large_header_complete. vm_compute. intuition discriminate.
Defined.

(** C8.  On the two octets [0x81 0x00], the start of a 4-byte header
    whose last two octets are missing, the small-only [Decode] returns
    [TooLong] where the full [Decode] returns EOF: the input holds no
    complete header, so [TooLong] is not returned exactly on complete
    headers of large blobs. *)
Lemma TooLong_on_incomplete_header :
  SmallCbe.Decode [Byte.x81; Byte.x00] = ([], [], Some TooLong) /\
  Cbe.Decode [Byte.x81; Byte.x00] = Some ([], [], Some EOF) /\
  ~ large_header_complete [Byte.x81; Byte.x00] /\
  ~ (snd (SmallCbe.Decode [Byte.x81; Byte.x00]) = Some TooLong <->
     large_header_complete [Byte.x81; Byte.x00]).
Proof.
  assert (N : ~ large_header_complete [Byte.x81; Byte.x00]).
  { intros [C _]. vm_compute in C. apply C. reflexivity. }
  repeat split; try reflexivity; [exact N |].
  intros [H _]. apply N, H. reflexivity.
Qed.

(** The complete 4-byte headers are those that the full [decodeHeader]
    accepts with offset 4; they announce 16448 octets or more. *)
Lemma large_header_complete_iff (buf : list byte) :
  large_header_complete buf <->
  exists n part, Cbe.decodeHeader buf = (4, n, part, None) /\ 16448 <= n.
Proof.
  split.
  - intros H. pose proof (decodeHeader_large buf H) as E.
    do 2 eexists. split; [exact E |].
    pose proof (u8_range (idx buf 2)). pose proof (u8_range (idx buf 3)).
    pose proof (Z.land_nonneg (u8 (idx buf 1)) 0x3f).
    repeat rewrite Z.shiftl_mul_pow2 by lia. lia.
  - intros (n & part & E & _).
    assert (O : fst (fst (fst (Cbe.decodeHeader buf))) = 4)
      by (rewrite E; reflexivity).
    clear E. revert O.
    unfold Cbe.decodeHeader, large_header_complete.
    pose proof (u8_range (idx buf 0)). pose proof (u8_range (idx buf 1)).
    ztests; intros O; lia.
Qed.

(** ** The contiguous encoder *)

Lemma two_byte_header (n : Z) :
  0 <= n < 16384 ->
  [badd (to_byte 0xc0) (to_byte (Z.shiftr n 8)); to_byte n] =
  [to_byte (Z.lor 0xC0 (Z.shiftr n 8)); to_byte (Z.land n 0xFF)].
Proof.
  intros H. pose proof (shiftr_8_bound n H) as Hb.
  f_equal; [| f_equal].
  - apply u8_inj. unfold badd.
    rewrite (u8_to_byte_small 0xc0), (u8_to_byte_small (Z.shiftr _ 8)) by lia.
    rewrite lor_192 by lia. reflexivity.
  - apply u8_inj. rewrite !u8_to_byte, land_255, Z.mod_mod by lia. reflexivity.
Qed.

(** C7. For [64 <= L <= 16447] the contiguous [Encode] appends the two
    header octets [0xC0 | ((L-64) >> 8)] and [(L-64) & 0xFF] and then
    the [L] payload octets; 64 octets are encoded as [0xC0 0x00] and the
    payload. *)
Theorem Encode_two_byte_header (dst src : list byte) :
  64 <= len src <= 16447 ->
  Cbe.Encode dst src =
    Some (Returns (dst ++ [to_byte (Z.lor 0xC0 (Z.shiftr (len src - 64) 8));
                           to_byte (Z.land (len src - 64) 0xFF)] ++ src)) /\
  (len src = 64 ->
   Cbe.Encode dst src = Some (Returns (dst ++ [Byte.xc0; Byte.x00] ++ src))).
Proof.
  intros H.
  assert (E : Cbe.Encode dst src =
    Some (Returns (dst ++ [to_byte (Z.lor 0xC0 (Z.shiftr (len src - 64) 8));
                           to_byte (Z.land (len src - 64) 0xFF)] ++ src))).
  { unfold Cbe.Encode.
    ztests; try lia; rewrite <- app_assoc, two_byte_header by lia; reflexivity. }
  split; [exact E |].
  intros H64. rewrite E, H64. reflexivity.
Qed.

Lemma Encode_two_byte_header_witness :
  Cbe.Encode [Byte.x07] (make 300) =
    Some (Returns ([Byte.x07] ++ [Byte.xc0; Byte.xec] ++ make 300)) /\
  Cbe.Encode [] (make 64) = Some (Returns ([] ++ [Byte.xc0; Byte.x00] ++ make 64)).
Proof.
  split.
  - apply (proj1 (Encode_two_byte_header [Byte.x07] (make 300)
                    ltac:(vm_compute; intuition discriminate))).
  - apply (proj2 (Encode_two_byte_header [] (make 64)
                    ltac:(vm_compute; intuition discriminate))).
    reflexivity.
Defined.

(** ** The streaming encoder, one pass at a time *)

Lemma set_at_0 (b0 : byte) (s : list byte) (v : byte) :
  set_at (b0 :: s) 0 v = v :: s.
Proof. reflexivity. Qed.

Lemma set_at_1 (b0 b1 : byte) (s : list byte) (v : byte) :
  set_at (b0 :: b1 :: s) 1 v = b0 :: v :: s.
Proof. reflexivity. Qed.

Lemma set_at_2 (b0 b1 b2 : byte) (s : list byte) (v : byte) :
  set_at (b0 :: b1 :: b2 :: s) 2 v = b0 :: b1 :: v :: s.
Proof. reflexivity. Qed.

Lemma set_at_3 (b0 b1 b2 b3 : byte) (s : list byte) (v : byte) :
  set_at (b0 :: b1 :: b2 :: b3 :: s) 3 v = b0 :: b1 :: b2 :: v :: s.
Proof. reflexivity. Qed.

Lemma copy_at_4 (b0 b1 b2 b3 : byte) (pay data : list byte) :
  copy_at (b0 :: b1 :: b2 :: b3 :: pay) 4 data =
  b0 :: b1 :: b2 :: b3 :: data ++ skipn (Z.to_nat (len data)) pay.
Proof.
  unfold copy_at. pose proof (len_nonneg data).
  replace (Z.to_nat (4 + len data)) with (4 + Z.to_nat (len data))%nat by lia.
  reflexivity.
Qed.

Lemma from_4 (b0 b1 b2 b3 : byte) (pay : list byte) :
  from (b0 :: b1 :: b2 :: b3 :: pay) 4 = pay.
Proof. reflexivity. Qed.

Lemma idx_4 (b0 b1 b2 b3 : byte) (s : list byte) :
  idx (b0 :: b1 :: b2 :: b3 :: s) 4 = idx s 0.
Proof. reflexivity. Qed.

(** [buf[h:4+l]] is the tail of the header area followed by the payload. *)
Lemma slice_chunk (hd data tl : list byte) (h l : Z) :
  len hd = 4 -> 0 <= h <= 4 -> len data = l ->
  slice (hd ++ data ++ tl) h (4 + l) = skipn (Z.to_nat h) hd ++ data.
Proof.
  intros Hhd Hh Hl. unfold slice.
  rewrite skipn_app.
  replace (Z.to_nat h - length hd)%nat with 0%nat by (unfold len in Hhd; lia).
  cbn [skipn]. rewrite app_assoc.
  apply firstn_exact. rewrite len_app, len_skipn. lia.
Qed.

(** When the buffer has a long list: [len] of a four-octet header area. *)
Lemma len_4 (a b c d : byte) : len [a; b; c; d] = 4.
Proof. reflexivity. Qed.

(** [io.ReadFull] on a source that still fills the buffer, and on one
    that does not. *)
Lemma ReadFull_full (r : list byte) (c : Z) :
  0 <= c <= len r ->
  ReadFull r c = (firstn (Z.to_nat c) r, None, skipn (Z.to_nat c) r).
Proof.
  intros H. unfold ReadFull. rewrite len_firstn.
  destruct (Z.eqb_spec (Z.min (Z.max 0 c) (len r)) c); [reflexivity | lia].
Qed.

Lemma ReadFull_short (r : list byte) (c : Z) :
  len r < c ->
  ReadFull r c = (r, Some (if len r =? 0 then EOF else ErrUnexpectedEOF), []).
Proof.
  intros H. unfold ReadFull.
  rewrite firstn_whole, skipn_whole by lia.
  destruct (Z.eqb_spec (len r) c); [lia |].
  destruct (len r =? 0); reflexivity.
Qed.

(** The header area after [header_for]: the chosen header sits right
    before the payload. *)
Lemma header_for_chunk (c : Z) (b0 b1 b2 b3 : byte) (data tl : list byte)
  (err : option error) :
  let more := (len data =? c) && negb (is_err err) in
  let hdr := if more then partial_header (len data) else final_header data in
  exists hd : list byte,
    len hd = 4 /\
    header_for c (b0 :: b1 :: b2 :: b3 :: data ++ tl) (len data) err =
      (hd ++ data ++ tl, 4 - len hdr, more) /\
    skipn (Z.to_nat (4 - len hdr)) hd = hdr /\ 0 <= 4 - len hdr <= 4.
Proof.
  intros more hdr. subst more hdr. unfold header_for, final_header.
  destruct ((len data =? c) && negb (is_err err)).
  - rewrite set_at_0, set_at_1, set_at_2, set_at_3.
    eexists [_; _; _; _]. repeat split; cbn; lia.
  - rewrite idx_4.
    assert (E0 : idx (data ++ tl) 0 = idx data 0 \/ len data <> 1).
    { destruct data; [right; cbn; lia | left; reflexivity]. }
    destruct ((len data =? 1) && (u8 (idx data 0) <? 128)) eqn:E1.
    + apply andb_prop in E1. destruct E1 as [E1 E2].
      destruct E0 as [-> | N]; [| apply Z.eqb_eq in E1; lia].
      rewrite E1, E2. cbn [andb].
      exists [b0; b1; b2; b3]. repeat split; cbn; lia.
    + replace ((len data =? 1) && (u8 (idx (data ++ tl) 0) <? 128)) with false.
      2:{ destruct E0 as [-> | N]; [now rewrite E1 |].
          apply Z.eqb_neq in N. now rewrite N. }
      destruct (len data <? 128); [| destruct (len data <? 16384 + 128)].
      * rewrite set_at_3. eexists [_; _; _; _]. repeat split; cbn; lia.
      * rewrite set_at_1, set_at_2, set_at_3.
        eexists [_; _; _; _]. repeat split; cbn; lia.
      * rewrite set_at_0, set_at_1, set_at_2, set_at_3.
        eexists [_; _; _; _]. repeat split; cbn; lia.
Qed.

(** One pass of the loop on a buffer of [4 + c] octets that still gets a
    full chunk from the source: a partial chunk, and the loop goes on. *)
Lemma pump_partial (f : nat) (c : Z) (buf r w : list byte) (tot : Z)
  (log : list chunk) :
  0 < c -> len buf = 4 + c -> c <= len r ->
  exists buf',
    len buf' = 4 + c /\
    pump (S f) c buf r w tot log =
    pump f c buf' (skipn (Z.to_nat c) r)
         (w ++ c_wire (partial_chunk (firstn (Z.to_nat c) r))) (tot + c)
         (log ++ [partial_chunk (firstn (Z.to_nat c) r)]).
Proof.
  intros Hc Hbuf Hr.
  destruct buf as [| b0 [| b1 [| b2 [| b3 pay]]]];
    try (unfold len in Hbuf; cbn [length] in Hbuf; lia).
  assert (Hpay : len pay = c) by (rewrite !len_cons in Hbuf; lia).
  cbn [pump]. rewrite from_4, Hpay, ReadFull_full by lia.
  set (data := firstn (Z.to_nat c) r).
  assert (Hd : len data = c) by (unfold data; rewrite len_firstn; lia).
  cbn [is_err andb]. rewrite copy_at_4.
  destruct (header_for_chunk c b0 b1 b2 b3 data
              (skipn (Z.to_nat (len data)) pay) None)
    as (hd & Hhd & E & Hsk & Hh).
  rewrite Hd, Z.eqb_refl in *. cbn [is_err negb andb] in *.
  rewrite E.
  unfold Write. rewrite (slice_chunk _ _ _ _ c) by assumption.
  rewrite Hsk. cbn [is_err].
  rewrite len_app, Hd.
  replace (len (partial_header c) + c =? 4 - (4 - len (partial_header c)) + c)
    with true by (symmetry; apply Z.eqb_eq; lia).
  cbn [negb].
  exists (hd ++ data ++ skipn (Z.to_nat c) pay). split.
  - rewrite !len_app, len_skipn. lia.
  - unfold partial_chunk. rewrite Hd. cbn [c_wire]. reflexivity.
Qed.

(** One pass on a source that no longer fills the buffer: the final
    chunk, and the loop ends. *)
Lemma pump_final (f : nat) (c : Z) (buf r w : list byte) (tot : Z)
  (log : list chunk) :
  0 < c -> len buf = 4 + c -> len r < c ->
  exists buf',
    len buf' = 4 + c /\
    pump (S f) c buf r w tot log =
    Some (mkpumped (tot + len r) None (w ++ c_wire (final_chunk r)) buf' []
                   (log ++ [final_chunk r])).
Proof.
  intros Hc Hbuf Hr.
  destruct buf as [| b0 [| b1 [| b2 [| b3 pay]]]];
    try (unfold len in Hbuf; cbn [length] in Hbuf; lia).
  assert (Hpay : len pay = c) by (rewrite !len_cons in Hbuf; lia).
  pose proof (len_nonneg r) as Hr0.
  cbn [pump]. rewrite from_4, Hpay, ReadFull_short by lia.
  set (err := Some (if len r =? 0 then EOF else ErrUnexpectedEOF)).
  assert (Ee : is_err err && negb (err_is err EOF) &&
               negb (err_is err ErrUnexpectedEOF) = false)
    by (unfold err; destruct (len r =? 0); reflexivity).
  rewrite Ee, copy_at_4.
  destruct (header_for_chunk c b0 b1 b2 b3 r
              (skipn (Z.to_nat (len r)) pay) err)
    as (hd & Hhd & E & Hsk & Hh).
  replace ((len r =? c) && negb (is_err err)) with false in *
    by (symmetry; apply andb_false_intro1, Z.eqb_neq; lia).
  rewrite E. unfold Write. rewrite (slice_chunk _ _ _ _ (len r)) by auto.
  rewrite Hsk. cbn [is_err].
  rewrite len_app.
  replace (len (final_header r) + len r =? 4 - (4 - len (final_header r)) + len r)
    with true by (symmetry; apply Z.eqb_eq; lia).
  cbn [negb].
  exists (hd ++ r ++ skipn (Z.to_nat (len r)) pay). split.
  - rewrite !len_app, len_skipn. lia.
  - reflexivity.
Qed.

(** With enough fuel the loop reads the whole source, reports no error
    and emits the chunks that [emits] describes. *)
Lemma pump_emits (f : nat) (c : Z) :
  0 < c ->
  forall buf r w tot log,
    len buf = 4 + c -> (length r < f)%nat ->
    exists cs buf',
      emits c r cs /\ len buf' = 4 + c /\
      pump f c buf r w tot log =
      Some (mkpumped (tot + len r) None (w ++ wire_of cs) buf' [] (log ++ cs)).
Proof.
  intros Hc. induction f as [| f IH]; intros buf r w tot log Hbuf Hf; [lia |].
  destruct (Z.lt_ge_cases (len r) c) as [Hr | Hr].
  - destruct (pump_final f c buf r w tot log Hc Hbuf Hr) as (buf' & Hb' & E).
    exists [final_chunk r], buf'. split; [now constructor | split; [exact Hb' |]].
    rewrite E. unfold wire_of. cbn [map concat]. rewrite app_nil_r. reflexivity.
  - destruct (pump_partial f c buf r w tot log Hc Hbuf Hr) as (buf1 & Hb1 & E).
    set (data := firstn (Z.to_nat c) r) in *.
    set (rest := skipn (Z.to_nat c) r) in *.
    assert (Hrest : len rest = len r - c)
      by (unfold rest; rewrite len_skipn; lia).
    destruct (IH buf1 rest (w ++ c_wire (partial_chunk data)) (tot + c)
                 (log ++ [partial_chunk data]) Hb1)
      as (cs & buf' & Hcs & Hb' & E').
    { unfold len in Hrest, Hr. lia. }
    exists (partial_chunk data :: cs), buf'.
    split; [now constructor | split; [exact Hb' |]].
    rewrite E, E'. unfold wire_of. cbn [map concat].
    rewrite <- !app_assoc. cbn [app].
    do 2 f_equal. lia.
Qed.

Lemma len_make (n : Z) : 0 <= n -> len (make n) = n.
Proof. intros H. unfold len, make. rewrite repeat_length. lia. Qed.

Lemma legal_NewEncoder (w : list byte) : legal (NewEncoder w).
Proof.
  unfold legal, ChunkLen, NewEncoder, getBuf. cbn [enc_buf vis].
  rewrite len_make by (unfold defaultChunkLen, MinChunkLen; lia).
  unfold defaultChunkLen, MinChunkLen, MaxChunkLen. lia.
Qed.

(** [SetChunkLen] accepts exactly the sizes from [MinChunkLen] to
    [MaxChunkLen], keeps the sink and sets the chunk size. *)
Lemma SetChunkLen_legal (e : Encoder) (c : Z) :
  MinChunkLen <= c <= MaxChunkLen ->
  exists e', SetChunkLen e c = Returns e' /\ ChunkLen e' = c /\
             enc_w e' = enc_w e /\ legal e'.
Proof.
  intros H. unfold SetChunkLen.
  destruct (Z.ltb_spec c MinChunkLen); [lia |].
  rewrite Z.gtb_ltb. destruct (Z.ltb_spec MaxChunkLen c); [lia |].
  eexists. split; [reflexivity |].
  assert (E : forall whole : list byte,
             len (slice (if len whole <? 4 + c then make (4 + c) else whole)
                        0 (4 + c)) - 4 = c).
  { intros whole. unfold slice. cbn [Z.to_nat skipn]. rewrite len_firstn.
    unfold MinChunkLen in *.
    destruct (Z.ltb_spec (len whole) (4 + c)); [rewrite len_make by lia |]; lia. }
  unfold legal, ChunkLen, getBuf. cbn [enc_buf enc_w vis].
  rewrite E. repeat split; lia.
Qed.

Lemma SetChunkLen_panics (e : Encoder) (c : Z) :
  c < MinChunkLen \/ MaxChunkLen < c -> exists p, SetChunkLen e c = Panics p.
Proof.
  intros H. unfold SetChunkLen.
  destruct (Z.ltb_spec c MinChunkLen); [eexists; reflexivity |].
  rewrite Z.gtb_ltb. destruct (Z.ltb_spec MaxChunkLen c); [| lia].
  eexists; reflexivity.
Qed.

(** [ReadFrom] on a legal encoder: it returns, reads the whole source,
    reports no error, and the sink receives, in order, the chunks that
    [emits] describes for the encoder's chunk size. *)
Lemma ReadFrom_emits (e : Encoder) (r : list byte) :
  legal e ->
  exists cs res,
    emits (ChunkLen e) r cs /\ ReadFrom e r = Some res /\
    e_n res = len r /\ e_err res = None /\
    enc_w (e_enc res) = enc_w e ++ wire_of cs /\ e_chunks res = cs /\
    ChunkLen (e_enc res) = ChunkLen e.
Proof.
  unfold legal, ChunkLen, ReadFrom. intros H.
  destruct (getBuf e) as [e1 b] eqn:Eg.
  assert (Ew : enc_w e1 = enc_w e).
  { unfold getBuf in Eg. destruct (enc_buf e); inversion Eg; reflexivity. }
  unfold MinChunkLen in H.
  destruct (pump_emits (S (length r)) (len (vis b) - 4) ltac:(lia)
              (vis b) r (enc_w e1) 0 []) as (cs & buf' & Hcs & Hb & E);
    [lia | lia |].
  rewrite E. exists cs. eexists. split; [exact Hcs |].
  split; [reflexivity |].
  cbn [e_n e_err e_enc e_chunks enc_w p_n p_err p_w p_buf p_chunks app].
  unfold getBuf. cbn [enc_buf vis]. rewrite Ew, Hb.
  repeat split; lia.
Qed.

(** The chunk sequences of [emits]: partial chunks of exactly [c] octets
    and then one final chunk. *)
Lemma emits_shape (c : Z) (r : list byte) (cs : list chunk) :
  0 < c -> emits c r cs ->
  exists partials final,
    cs = partials ++ [final] /\
    Forall (fun ch => c_more ch = true /\ c_h ch = 0 /\ c_len ch = c /\
                      len (payload ch) = c) partials /\
    c_more final = false /\ len (payload final) = c_len final /\
    concat (map payload partials) ++ payload final = r.
Proof.
  intros Hc. induction 1 as [r Hr | r cs Hr Hcs IH].
  - exists [], (final_chunk r).
    assert (Ep : payload (final_chunk r) = r).
    { unfold payload, final_chunk. cbn [c_wire c_h].
      apply from_exact. lia. }
    rewrite Ep. repeat split; constructor.
  - destruct IH as (ps & fin & -> & Hps & Hm & Hl & Hcat).
    set (data := firstn (Z.to_nat c) r) in *.
    assert (Hd : len data = c) by (unfold data; rewrite len_firstn; lia).
    assert (Ep : payload (partial_chunk data) = data).
    { unfold payload, partial_chunk. cbn [c_wire c_h].
      apply from_exact. reflexivity. }
    exists (partial_chunk data :: ps), fin.
    split; [reflexivity |]. split.
    + constructor; [| exact Hps]. rewrite Ep.
      cbn [partial_chunk c_more c_h c_len]. auto.
    + split; [exact Hm | split; [exact Hl |]].
      cbn [map concat]. rewrite Ep, <- app_assoc, Hcat.
      apply firstn_skipn.
Qed.

(** ** The partial-chunk invariant *)

Lemma payload_partial_chunk (data : list byte) :
  payload (partial_chunk data) = data.
Proof.
  unfold payload, partial_chunk. cbn [c_wire c_h]. apply from_exact. reflexivity.
Qed.

Lemma payload_final_chunk (r : list byte) : payload (final_chunk r) = r.
Proof.
  unfold payload, final_chunk. cbn [c_wire c_h]. apply from_exact. lia.
Qed.

Lemma emits_inv_final (c : Z) (r : list byte) (cs : list chunk) :
  len r < c -> emits c r cs -> cs = [final_chunk r].
Proof. intros Hr H. inversion H; subst; [reflexivity | lia]. Qed.

Lemma emits_inv_partial (c : Z) (r : list byte) (cs : list chunk) :
  c <= len r -> emits c r cs ->
  exists cs', cs = partial_chunk (firstn (Z.to_nat c) r) :: cs' /\
              emits c (skipn (Z.to_nat c) r) cs'.
Proof. intros Hr H. inversion H; subst; [lia | eauto]. Qed.

Lemma ChunkLen_NewEncoder (w : list byte) : ChunkLen (NewEncoder w) = 16384.
Proof.
  unfold ChunkLen, NewEncoder, getBuf. cbn [enc_buf vis].
  rewrite len_make by (unfold defaultChunkLen, MinChunkLen; lia).
  unfold defaultChunkLen, MinChunkLen. lia.
Qed.

(** C4, as the code has it.  Every partial chunk that a legal encoder
    emits carries exactly the encoder's chunk size as payload, a length
    in [16384, 2113535] ([MinChunkLen] to [MaxChunkLen]). *)
Theorem partial_chunk_payload (e : Encoder) (r : list byte) :
  legal e ->
  exists res,
    ReadFrom e r = Some res /\
    Forall (fun ch => c_more ch = true ->
                      len (payload ch) = ChunkLen e /\ c_len ch = ChunkLen e)
           (e_chunks res) /\
    partial_payloads_within 16384 2113535 res.
Proof.
  intros H.
  destruct (ReadFrom_emits e r H) as (cs & res & Hcs & E & _ & _ & _ & Hc & _).
  assert (Hpos : 0 < ChunkLen e) by (unfold legal, MinChunkLen in H; lia).
  destruct (emits_shape _ _ _ Hpos Hcs) as (ps & fin & -> & Hps & Hm & _).
  exists res. split; [exact E |].
  unfold partial_payloads_within. rewrite Hc.
  assert (F : Forall (fun ch => c_more ch = true ->
                        len (payload ch) = ChunkLen e /\ c_len ch = ChunkLen e)
                     (ps ++ [fin])).
  { apply Forall_app. split.
    - eapply Forall_impl; [| exact Hps]. cbn. tauto.
    - constructor; [intros Hf; congruence | constructor]. }
  split; [exact F |].
  eapply Forall_impl; [| exact F]. cbn. intros ch Hch Hmore.
  unfold legal, MinChunkLen, MaxChunkLen in H.
  destruct (Hch Hmore) as [-> _]. lia.
Qed.

Lemma partial_chunk_payload_witness :
  exists res,
    ReadFrom (NewEncoder []) (make 20000) = Some res /\
    Forall (fun ch => c_more ch = true ->
                      len (payload ch) = ChunkLen (NewEncoder []) /\
                      c_len ch = ChunkLen (NewEncoder []))
           (e_chunks res) /\
    partial_payloads_within 16384 2113535 res.
Proof.
  apply (partial_chunk_payload (NewEncoder []) (make 20000)).
  unfold legal. vm_compute. intuition discriminate.
Defined.

(** C4 as stated fails at the default chunk size: on a source of 16384
    octets the encoder emits a partial chunk of 16384 octets, less than
    16448. *)
Lemma partial_chunk_of_16384 :
  ~ (legal (NewEncoder []) ->
     forall res, ReadFrom (NewEncoder []) (make 16384) = Some res ->
                 partial_payloads_within 16448 2113535 res).
Proof.
  intros H. specialize (H (legal_NewEncoder [])).
  destruct (ReadFrom_emits (NewEncoder []) (make 16384) (legal_NewEncoder []))
    as (cs & res & Hcs & E & _ & _ & _ & Hc & _).
  specialize (H res E). unfold partial_payloads_within in H.
  rewrite Hc in H. rewrite ChunkLen_NewEncoder in Hcs.
  apply emits_inv_partial in Hcs; [| rewrite len_make; lia].
  destruct Hcs as (cs' & -> & _).
  assert (Hd : len (firstn (Z.to_nat 16384) (make 16384)) = 16384)
    by (rewrite len_firstn, len_make; lia).
  revert H Hd. generalize (firstn (Z.to_nat 16384) (make 16384)).
  intros data H Hd. apply Forall_inv in H.
  specialize (H eq_refl). rewrite payload_partial_chunk in H. lia.
Qed.

(** ** The 40000-octet scenario at chunk size 16384 *)

(** The buffer takes at most 16384 octets per pass, so 40000 octets make
    three chunks. *)
Lemma chunks_of_40000 (e : Encoder) (s : list byte) :
  ChunkLen e = 16384 -> len s = 40000 ->
  exists res p1 p2 p3,
    ReadFrom e s = Some res /\ e_err res = None /\ e_n res = 40000 /\
    e_chunks res = [partial_chunk p1; partial_chunk p2; final_chunk p3] /\
    len p1 = 16384 /\ len p2 = 16384 /\ len p3 = 7232 /\
    p1 ++ p2 ++ p3 = s.
Proof.
  intros Hc Hs.
  assert (Hl : legal e) by (unfold legal, MinChunkLen, MaxChunkLen; lia).
  destruct (ReadFrom_emits e s Hl) as (cs & res & Hcs & E & Hn & He & _ & Hch & _).
  rewrite Hc in Hcs.
  apply emits_inv_partial in Hcs; [| lia].
  destruct Hcs as (cs1 & -> & Hcs).
  set (p1 := firstn (Z.to_nat 16384) s) in *.
  set (s1 := skipn (Z.to_nat 16384) s) in *.
  assert (H1 : len p1 = 16384) by (unfold p1; rewrite len_firstn; lia).
  assert (Hs1 : len s1 = 23616) by (unfold s1; rewrite len_skipn; lia).
  apply emits_inv_partial in Hcs; [| lia].
  destruct Hcs as (cs2 & -> & Hcs).
  set (p2 := firstn (Z.to_nat 16384) s1) in *.
  set (p3 := skipn (Z.to_nat 16384) s1) in *.
  assert (H2 : len p2 = 16384) by (unfold p2; rewrite len_firstn; lia).
  assert (H3 : len p3 = 7232) by (unfold p3; rewrite len_skipn; lia).
  apply emits_inv_final in Hcs; [| lia]. subst cs2.
  exists res, p1, p2, p3. repeat split; try assumption; try lia.
  unfold p2, p3. rewrite firstn_skipn. apply firstn_skipn.
Qed.

(** C6, as the code has it.  At chunk size 16384 a source of 40000
    octets is emitted as exactly three chunks: two partial chunks of
    16384 payload octets each and then the final chunk with the last
    7232 octets. *)
Theorem chunks_of_40000_at_16384 (e : Encoder) (s : list byte) :
  ChunkLen e = 16384 -> len s = 40000 ->
  exists res c1 c2 c3,
    ReadFrom e s = Some res /\ e_err res = None /\
    e_chunks res = [c1; c2; c3] /\
    c_more c1 = true /\ len (payload c1) = 16384 /\
    c_more c2 = true /\ len (payload c2) = 16384 /\
    c_more c3 = false /\ len (payload c3) = 7232 /\
    payload c1 ++ payload c2 ++ payload c3 = s.
Proof.
  intros Hc Hs.
  destruct (chunks_of_40000 e s Hc Hs)
    as (res & p1 & p2 & p3 & E & He & _ & Hch & H1 & H2 & H3 & Hcat).
  exists res, (partial_chunk p1), (partial_chunk p2), (final_chunk p3).
  rewrite !payload_partial_chunk, payload_final_chunk.
  repeat split; assumption.
Qed.

Lemma chunks_of_40000_at_16384_witness :
  exists res c1 c2 c3,
    ReadFrom (NewEncoder []) (make 40000) = Some res /\ e_err res = None /\
    e_chunks res = [c1; c2; c3] /\
    c_more c1 = true /\ len (payload c1) = 16384 /\
    c_more c2 = true /\ len (payload c2) = 16384 /\
    c_more c3 = false /\ len (payload c3) = 7232 /\
    payload c1 ++ payload c2 ++ payload c3 = make 40000.
Proof.
  apply (chunks_of_40000_at_16384 (NewEncoder []) (make 40000));
    vm_compute; reflexivity.
Defined.

(** C6 as stated fails on 40000 zero octets: the encoder does not emit
    the two chunks of the scenario. *)
Lemma not_two_chunks_of_40000 :
  exists res,
    ReadFrom (NewEncoder []) (make 40000) = Some res /\
    ~ two_chunk_scenario res.
Proof.
  destruct (chunks_of_40000 (NewEncoder []) (make 40000))
    as (res & p1 & p2 & p3 & E & _ & _ & Hch & _).
  - apply ChunkLen_NewEncoder.
  - apply len_make. lia.
  - exists res. split; [exact E |].
    intros (c1 & c2 & Hch' & _). rewrite Hch in Hch'. discriminate Hch'.
Qed.

(** The headers of these three chunks, as [ReadFrom] writes them. *)
Lemma headers_of_40000 (p1 p2 p3 : list byte) :
  len p1 = 16384 -> len p2 = 16384 -> len p3 = 7232 ->
  header_of (partial_chunk p1) = [Byte.x81; Byte.x60; Byte.x00; Byte.x00] /\
  header_of (partial_chunk p2) = [Byte.x81; Byte.x60; Byte.x00; Byte.x00] /\
  header_of (final_chunk p3) = [Byte.x81; Byte.x1b; Byte.xc0].
Proof.
  intros H1 H2 H3.
  assert (P : forall p, len p = 16384 ->
            header_of (partial_chunk p) = [Byte.x81; Byte.x60; Byte.x00; Byte.x00]).
  { intros p Hp. unfold header_of, partial_chunk. cbn [c_wire c_h].
    rewrite Hp.
    change (partial_header 16384 ++ p) with ([] ++ partial_header 16384 ++ p).
    apply slice_exact; reflexivity. }
  repeat split; [now apply P | now apply P |].
  unfold header_of, final_chunk. cbn [c_wire c_h].
  assert (F : final_header p3 = [Byte.x81; Byte.x1b; Byte.xc0]).
  { unfold final_header. rewrite H3. reflexivity. }
  rewrite F.
  change ([Byte.x81; Byte.x1b; Byte.xc0] ++ p3)
    with ([] ++ [Byte.x81; Byte.x1b; Byte.xc0] ++ p3).
  apply slice_exact; reflexivity.
Qed.

(** ** The streaming decoder on the encoder's chunks *)

Lemma u8_band_ones (a : byte) (k : Z) :
  0 <= k <= 8 -> u8 (band a (to_byte (Z.ones k))) = u8 a mod 2 ^ k.
Proof.
  intros Hk. unfold band, byte.and.
  fold (u8 a). fold (u8 (to_byte (Z.ones k))).
  fold (to_byte (Z.land (u8 a) (u8 (to_byte (Z.ones k))))).
  assert (Ho : 0 <= Z.ones k < 256).
  { rewrite Z.ones_equiv.
    assert (0 < 2 ^ k <= 2 ^ 8) by (split; [| apply Z.pow_le_mono_r]; lia).
    change (2 ^ 8) with 256 in *. lia. }
  rewrite (u8_to_byte_small (Z.ones k)) by exact Ho.
  rewrite Z.land_ones by lia.
  apply u8_to_byte_small.
  pose proof (u8_range a). pose proof (Z.mod_pos_bound (u8 a) (2 ^ k)).
  assert (u8 a mod 2 ^ k <= u8 a) by (apply Z.mod_le; lia). lia.
Qed.

Lemma u8_bsub (a : byte) (k : Z) :
  0 <= k < 256 -> k <= u8 a -> u8 (bsub a (to_byte k)) = u8 a - k.
Proof.
  intros Hk Ha. unfold bsub. pose proof (u8_range a).
  rewrite (u8_to_byte_small k) by exact Hk.
  apply u8_to_byte_small. lia.
Qed.

Lemma u8_badd (k x : Z) :
  0 <= k -> 0 <= x -> k + x < 256 -> u8 (badd (to_byte k) (to_byte x)) = k + x.
Proof.
  intros Hk Hx H. unfold badd.
  rewrite (u8_to_byte_small k), (u8_to_byte_small x) by lia.
  apply u8_to_byte_small. lia.
Qed.

(** The five shapes of a header, as [header] reads them. *)
Lemma header_inline (b0 : byte) (rest : list byte) (l : option byte) :
  u8 b0 < 0x80 ->
  header {| dec_in := b0 :: rest; dec_last := l |} =
    ((1, false, None), {| dec_in := b0 :: rest; dec_last := None |}).
Proof.
  intros H. unfold header. cbn [ReadByte dec_in is_err].
  destruct (Z.ltb_spec (u8 b0) 0x80); [reflexivity | lia].
Qed.

Lemma header_short (b0 : byte) (rest : list byte) (l : option byte) :
  0x80 <= u8 b0 -> u8 b0 <> 0x81 ->
  header {| dec_in := b0 :: rest; dec_last := l |} =
    ((u8 b0 - 0x80, false, None), {| dec_in := rest; dec_last := Some b0 |}).
Proof.
  intros H N. unfold header. cbn [ReadByte dec_in is_err].
  destruct (Z.ltb_spec (u8 b0) 0x80); [lia |].
  destruct (Z.eqb_spec (u8 b0) 0x81); [lia |]. cbn [negb].
  rewrite u8_bsub by lia. reflexivity.
Qed.

Lemma header_inline2 (b0 b1 : byte) (rest : list byte) (l : option byte) :
  u8 b0 = 0x81 -> 0x80 <= u8 b1 ->
  header {| dec_in := b0 :: b1 :: rest; dec_last := l |} =
    ((1, false, None), {| dec_in := b1 :: rest; dec_last := None |}).
Proof.
  intros H0 H1. unfold header. cbn [ReadByte dec_in is_err]. rewrite H0.
  cbn [Z.ltb Z.eqb Z.compare Pos.compare Pos.compare_cont Pos.eqb negb].
  rewrite Z.geb_leb. destruct (Z.leb_spec 0x80 (u8 b1)); [reflexivity | lia].
Qed.

Lemma header_medium (b0 b1 b2 : byte) (rest : list byte) (l : option byte) :
  u8 b0 = 0x81 -> u8 b1 < 0x40 ->
  header {| dec_in := b0 :: b1 :: b2 :: rest; dec_last := l |} =
    ((128 + u8 b1 * 256 + u8 b2, false, None),
     {| dec_in := rest; dec_last := Some b2 |}).
Proof.
  intros H0 H1. unfold header. cbn [ReadByte dec_in is_err]. rewrite H0.
  cbn [Z.ltb Z.eqb Z.compare Pos.compare Pos.compare_cont Pos.eqb negb].
  rewrite Z.geb_leb. destruct (Z.leb_spec 0x80 (u8 b1)); [lia |].
  destruct (Z.ltb_spec (u8 b1) 0x40); [| lia].
  rewrite Z.shiftl_mul_pow2 by lia. reflexivity.
Qed.

Lemma header_large (b0 b1 b2 b3 : byte) (rest : list byte) (l : option byte) :
  u8 b0 = 0x81 -> 0x40 <= u8 b1 < 0x80 ->
  header {| dec_in := b0 :: b1 :: b2 :: b3 :: rest; dec_last := l |} =
    ((16384 + (u8 b1 mod 32) * 65536 + u8 b2 * 256 + u8 b3,
      0x60 <=? u8 b1, None),
     {| dec_in := rest; dec_last := Some b3 |}).
Proof.
  intros H0 H1. unfold header. cbn [ReadByte dec_in is_err]. rewrite H0.
  cbn [Z.ltb Z.eqb Z.compare Pos.compare Pos.compare_cont Pos.eqb negb].
  rewrite Z.geb_leb. destruct (Z.leb_spec 0x80 (u8 b1)); [lia |].
  destruct (Z.ltb_spec (u8 b1) 0x40); [lia |].
  change 0x1f with (Z.ones 5). rewrite u8_band_ones by lia.
  rewrite !Z.shiftl_mul_pow2 by lia.
  destruct (Z.ltb_spec (u8 b1) 0x60), (Z.leb_spec 0x60 (u8 b1));
    try lia; reflexivity.
Qed.

(** Splitting a length into the octets of a header and back. *)
Lemma split_3 (n k : Z) :
  0 <= n < k * 65536 ->
  0 <= Z.shiftr n 16 < k /\
  Z.shiftr n 16 * 65536 + (Z.shiftr n 8 mod 256) * 256 + n mod 256 = n.
Proof.
  intros H. rewrite !Z.shiftr_div_pow2 by lia.
  change (2 ^ 16) with 65536. change (2 ^ 8) with 256.
  Z.div_mod_to_equations. lia.
Qed.

Lemma split_2 (n : Z) :
  0 <= n < 2 ^ 14 ->
  0 <= Z.shiftr n 8 < 64 /\ Z.shiftr n 8 * 256 + n mod 256 = n.
Proof.
  intros H. rewrite !Z.shiftr_div_pow2 by lia.
  change (2 ^ 8) with 256. change (2 ^ 14) with 16384 in H.
  Z.div_mod_to_equations. lia.
Qed.

Lemma header_partial_chunk (data rest : list byte) (l : option byte) :
  MinChunkLen <= len data <= MaxChunkLen ->
  exists l',
    header {| dec_in := c_wire (partial_chunk data) ++ rest; dec_last := l |} =
      ((len data, true, None), {| dec_in := data ++ rest; dec_last := l' |}).
Proof.
  unfold MinChunkLen, MaxChunkLen. intros H.
  unfold partial_chunk, partial_header. cbn [c_wire app].
  set (n := len data - 16384).
  destruct (split_3 n 32) as [Hx Hn]; [lia |].
  eexists. rewrite header_large.
  - rewrite u8_badd by lia. rewrite !u8_to_byte.
    replace ((96 + Z.shiftr n 16) mod 32) with (Z.shiftr n 16)
      by (Z.div_mod_to_equations; lia).
    destruct (Z.leb_spec 0x60 (96 + Z.shiftr n 16)); [| lia].
    do 3 f_equal. lia.
  - reflexivity.
  - rewrite u8_badd by lia. lia.
Qed.

Lemma header_final_chunk (data rest : list byte) (l : option byte) :
  len data < MaxChunkLen ->
  exists l',
    header {| dec_in := c_wire (final_chunk data) ++ rest; dec_last := l |} =
      ((len data, false, None), {| dec_in := data ++ rest; dec_last := l' |}).
Proof.
  unfold MaxChunkLen. intros H. pose proof (len_nonneg data) as H0.
  unfold final_chunk, final_header. cbn [c_wire].
  destruct ((len data =? 1) && (u8 (idx data 0) <? 128)) eqn:E1.
  - apply andb_prop in E1. destruct E1 as [E1 E2].
    apply Z.eqb_eq in E1. apply Z.ltb_lt in E2.
    destruct data as [| d0 [| d1 data]];
      try (unfold len in E1; cbn [length] in E1; lia).
    cbn [app]. rewrite idx_0 in E2. rewrite header_inline by lia.
    eexists. reflexivity.
  - destruct (Z.ltb_spec (len data) 128) as [Hs | Hs];
      [| destruct (Z.ltb_spec (len data) (16384 + 128)) as [Hm | Hm]].
    + cbn [app]. destruct (Z.eqb_spec (len data) 1) as [E | E].
      * destruct data as [| d0 [| d1 data]];
          try (unfold len in E; cbn [length] in E; lia).
        cbn [andb] in E1. rewrite idx_0 in E1. apply Z.ltb_ge in E1.
        cbn [app]. rewrite header_inline2; [eexists; reflexivity | reflexivity | lia].
      * rewrite header_short.
        -- rewrite u8_to_byte_small by lia. eexists. do 3 f_equal. lia.
        -- rewrite u8_to_byte_small by lia. lia.
        -- rewrite u8_to_byte_small by lia. lia.
    + cbn [app].
      destruct (split_2 (len data - 128)) as [Hx Hn];
        [change (2 ^ 14) with 16384; lia |].
      rewrite header_medium.
      * rewrite (u8_to_byte_small (Z.shiftr _ 8)) by lia. rewrite u8_to_byte.
        eexists. do 3 f_equal. lia.
      * reflexivity.
      * rewrite u8_to_byte_small by lia. lia.
    + cbn [app].
      set (n := len data - 16384) in *.
      destruct (split_3 n 32) as [Hx Hn]; [lia |].
      eexists. rewrite header_large.
      * rewrite u8_badd by lia. rewrite !u8_to_byte.
        replace ((64 + Z.shiftr n 16) mod 32) with (Z.shiftr n 16)
          by (Z.div_mod_to_equations; lia).
        destruct (Z.leb_spec 0x60 (64 + Z.shiftr n 16)); [lia |].
        do 3 f_equal. lia.
      * reflexivity.
      * rewrite u8_badd by lia. lia.
Qed.

Lemma CopyN_exact (w data rest : list byte) (l : option byte) :
  exists l',
    CopyN w {| dec_in := data ++ rest; dec_last := l |} (len data) =
      ((len data, None), w ++ data, {| dec_in := rest; dec_last := l' |}).
Proof.
  unfold CopyN. cbn [dec_in dec_last].
  rewrite firstn_exact, skipn_exact by reflexivity.
  rewrite Z.ltb_irrefl. eexists. reflexivity.
Qed.

(** The loop of [WriteTo] on the chunks of a blob, with any input after
    them: it copies the payloads to the sink and stops after the final
    chunk. *)
Lemma drain_emits (c : Z) (r : list byte) (cs : list chunk) :
  MinChunkLen <= c <= MaxChunkLen -> emits c r cs ->
  forall fuel rest l w tot, (length cs <= fuel)%nat ->
  exists l',
    drain fuel {| dec_in := wire_of cs ++ rest; dec_last := l |} w tot =
      Some (mkdrained (tot + len r) None (w ++ r)
                      {| dec_in := rest; dec_last := l' |}).
Proof.
  intros Hc. induction 1 as [r Hr | r cs Hr Hcs IH];
    intros fuel rest l w tot Hf.
  - destruct fuel as [| fuel]; [cbn [length] in Hf; lia |].
    unfold wire_of. cbn [map concat]. rewrite app_nil_r.
    cbn [drain].
    destruct (header_final_chunk r rest l) as (l1 & ->); [lia |].
    destruct (CopyN_exact w r rest l1) as (l2 & ->).
    cbn [is_err]. rewrite Z.eqb_refl. cbn [negb].
    eexists. reflexivity.
  - destruct fuel as [| fuel]; [cbn [length] in Hf; lia |].
    unfold wire_of. cbn [map concat]. fold (wire_of cs).
    rewrite <- app_assoc.
    set (data := firstn (Z.to_nat c) r) in *.
    assert (Hd : len data = c)
      by (unfold data, MinChunkLen in *; rewrite len_firstn; lia).
    cbn [drain].
    destruct (header_partial_chunk data (wire_of cs ++ rest) l) as (l1 & ->);
      [lia |].
    destruct (CopyN_exact w data (wire_of cs ++ rest) l1) as (l2 & ->).
    cbn [is_err]. rewrite Z.eqb_refl. cbn [negb].
    destruct (IH fuel rest l2 (w ++ data) (tot + len data)) as (l3 & ->);
      [cbn [length] in Hf; lia |].
    exists l3. do 2 f_equal.
    + rewrite Hd. pose proof (firstn_skipn (Z.to_nat c) r) as Hsplit.
      assert (len r = len data + len (skipn (Z.to_nat c) r))
        by (rewrite <- Hsplit at 1; apply len_app).
      lia.
    + rewrite <- app_assoc. f_equal. apply firstn_skipn.
Qed.

Lemma emits_length (c : Z) (r : list byte) (cs : list chunk) :
  0 < c -> emits c r cs -> (length cs <= S (length (wire_of cs)))%nat.
Proof.
  intros Hc. induction 1 as [r Hr | r cs Hr Hcs IH].
  - cbn. lia.
  - unfold wire_of in *. cbn [map concat length]. rewrite length_app.
    assert (0 < length (c_wire (partial_chunk (firstn (Z.to_nat c) r))))%nat
      by (unfold partial_chunk, partial_header; cbn [c_wire app length]; lia).
    lia.
Qed.

(** ** Streaming termination *)

(** The chunks of a source are partial chunks that carry [c] octets each
    and then one final chunk that carries fewer, and the payloads, in
    order, make up the source. *)
Lemma emits_payloads (c : Z) (r : list byte) (cs : list chunk) :
  emits c r cs ->
  exists ds d,
    cs = map partial_chunk ds ++ [final_chunk d] /\
    Forall (fun x => len x = c) ds /\ len d < c /\ concat ds ++ d = r.
Proof.
  induction 1 as [r Hr | r cs Hr Hcs IH].
  - exists [], r. repeat split; [constructor | exact Hr].
  - destruct IH as (ds & d & -> & Hds & Hd & Hcat).
    exists (firstn (Z.to_nat c) r :: ds), d.
    split; [reflexivity |]. split; [| split; [exact Hd |]].
    + constructor; [| exact Hds]. pose proof (len_nonneg d).
      rewrite len_firstn; lia.
    + cbn [concat]. rewrite <- app_assoc, Hcat. apply firstn_skipn.
Qed.

(** C5. On every finite source a legal encoder's [ReadFrom] returns
    without error, having read all of the source.  The chunks it emits
    are zero or more partial chunks and then exactly one final chunk,
    which is the last one, and the sink holds their octets in this
    order.  Each partial chunk carries as many octets as the chunk size
    and the final chunk fewer; the payloads, in order, are the source;
    and on the wire every chunk is a header that the [Decoder] reads as
    partial or final, as the chunk is, followed by the payload. *)
Theorem ReadFrom_one_final_chunk (e : Encoder) (r : list byte) :
  legal e ->
  exists res partials final,
    ReadFrom e r = Some res /\ e_err res = None /\ e_n res = len r /\
    e_chunks res = partials ++ [final] /\
    Forall (fun ch => c_more ch = true) partials /\
    c_more final = false /\
    enc_w (e_enc res) = enc_w e ++ wire_of (partials ++ [final]) /\
    Forall (fun ch => len (payload ch) = ChunkLen e) partials /\
    len (payload final) < ChunkLen e /\
    concat (map payload (partials ++ [final])) = r /\
    Forall chunk_on_wire (partials ++ [final]).
Proof.
  intros H.
  destruct (ReadFrom_emits e r H) as (cs & res & Hcs & E & Hn & He & Hw & Hc & _).
  destruct (emits_payloads _ _ _ Hcs) as (ds & d & -> & Hds & Hd & Hcat).
  exists res, (map partial_chunk ds), (final_chunk d).
  rewrite payload_final_chunk.
  assert (Hp : map payload (map partial_chunk ds) = ds).
  { rewrite map_map. rewrite <- (map_id ds) at 2. apply map_ext.
    intros x. apply payload_partial_chunk. }
  repeat split; try assumption.
  - apply Forall_forall. intros ch Hin. apply in_map_iff in Hin.
    destruct Hin as (x & <- & _). reflexivity.
  - apply Forall_forall. intros ch Hin. apply in_map_iff in Hin.
    destruct Hin as (x & <- & Hx). rewrite payload_partial_chunk.
    rewrite Forall_forall in Hds. apply Hds. exact Hx.
  - rewrite map_app, concat_app, Hp. cbn [map concat].
    rewrite payload_final_chunk, app_nil_r. exact Hcat.
  - apply Forall_app. split.
    + apply Forall_forall. intros ch Hin. apply in_map_iff in Hin.
      destruct Hin as (x & <- & Hx). intros rest l.
      rewrite payload_partial_chunk. cbn [partial_chunk c_more].
      apply header_partial_chunk.
      rewrite Forall_forall in Hds. rewrite (Hds x Hx). exact H.
    + constructor; [| constructor]. intros rest l.
      rewrite payload_final_chunk. cbn [final_chunk c_more].
      apply header_final_chunk. unfold legal in H. lia.
Qed.

Lemma ReadFrom_one_final_chunk_witness :
  exists res partials final,
    ReadFrom (NewEncoder []) (make 20000) = Some res /\ e_err res = None /\
    e_n res = len (make 20000) /\
    e_chunks res = partials ++ [final] /\
    Forall (fun ch => c_more ch = true) partials /\
    c_more final = false /\
    enc_w (e_enc res) = enc_w (NewEncoder []) ++ wire_of (partials ++ [final]) /\
    Forall (fun ch => len (payload ch) = ChunkLen (NewEncoder [])) partials /\
    len (payload final) < ChunkLen (NewEncoder []) /\
    concat (map payload (partials ++ [final])) = make 20000 /\
    Forall chunk_on_wire (partials ++ [final]).
Proof.
  apply (ReadFrom_one_final_chunk (NewEncoder []) (make 20000)).
  unfold legal. vm_compute. intuition discriminate.
Defined.

(** ** Streaming round trip *)

(** [WriteTo] on exactly the octets that [ReadFrom] produced. *)
Lemma WriteTo_emits (c : Z) (r : list byte) (cs : list chunk) (w : list byte) :
  MinChunkLen <= c <= MaxChunkLen -> emits c r cs ->
  exists d,
    WriteTo (NewDecoder (wire_of cs)) w = Some (mkdrained (len r) None (w ++ r) d) /\
    dec_in d = [].
Proof.
  intros Hc Hcs. unfold WriteTo, NewDecoder. cbn [dec_in].
  assert (Hpos : 0 < c) by (unfold MinChunkLen in Hc; lia).
  pose proof (emits_length c r cs Hpos Hcs) as Hlen.
  destruct (drain_emits c r cs Hc Hcs (S (length (wire_of cs))) [] None w 0 Hlen)
    as (l' & E).
  rewrite app_nil_r in E. rewrite E.
  eexists. split; reflexivity.
Qed.

Lemma ReadFrom_WriteTo (e : Encoder) (s : list byte) :
  legal e ->
  exists res out d,
    ReadFrom e s = Some res /\ e_err res = None /\ e_n res = len s /\
    enc_w (e_enc res) = enc_w e ++ out /\
    WriteTo (NewDecoder out) [] = Some (mkdrained (len s) None s d) /\
    dec_in d = [].
Proof.
  intros H.
  destruct (ReadFrom_emits e s H) as (cs & res & Hcs & E & Hn & He & Hw & _).
  destruct (WriteTo_emits _ s cs [] H Hcs) as (d & Hd & Hin).
  exists res, (wire_of cs), d. repeat split; assumption.
Qed.

(** C2. For every octet sequence [s] and every encoder whose chunk size
    lies in [16384, 2113535], [ReadFrom] returns without error, and
    [WriteTo] on the octets it wrote returns without error, having
    written exactly [s] to the sink and consumed all its input. *)
Theorem stream_round_trip (e : Encoder) (s : list byte) :
  16384 <= ChunkLen e <= 2113535 ->
  exists res out d,
    ReadFrom e s = Some res /\ e_err res = None /\ e_n res = len s /\
    enc_w (e_enc res) = enc_w e ++ out /\
    WriteTo (NewDecoder out) [] = Some (mkdrained (len s) None s d) /\
    dec_in d = [].
Proof. intros H. apply ReadFrom_WriteTo. exact H. Qed.

Lemma stream_round_trip_witness :
  exists res out d,
    ReadFrom (NewEncoder []) (make 20000) = Some res /\ e_err res = None /\
    e_n res = len (make 20000) /\
    enc_w (e_enc res) = enc_w (NewEncoder []) ++ out /\
    WriteTo (NewDecoder out) [] =
      Some (mkdrained (len (make 20000)) None (make 20000) d) /\
    dec_in d = [].
Proof.
  apply (stream_round_trip (NewEncoder []) (make 20000)).
  vm_compute. intuition discriminate.
Defined.

(** ** Integers *)

Lemma swrap64_id (x : Z) : is_int64 x -> swrap64 x = x.
Proof.
  unfold is_int64, swrap64. intros H.
  rewrite Z.mod_small; [lia |].
  change (2 ^ 64) with (2 * 2 ^ 63). lia.
Qed.

Lemma wrap64_id (x : Z) : is_uint64 x -> wrap64 x = x.
Proof. unfold is_uint64, wrap64. intros H. apply Z.mod_small. exact H. Qed.

(** The zig-zag map of [Encoder.Int64]. *)
Lemma zigzag_spec (v : Z) :
  is_int64 v ->
  zigzag v = (if v >=? 0 then 2 * v else 2 * (- v - 1) + 1) /\
  is_uint64 (zigzag v).
Proof.
  unfold is_int64, zigzag. intros H. rewrite Z.geb_leb.
  change (2 ^ 63) with 9223372036854775808 in H.
  assert (P : 2 ^ 64 = 18446744073709551616) by reflexivity.
  destruct (Z.leb_spec 0 v).
  - rewrite (wrap64_id v) by (unfold is_uint64; lia).
    rewrite Z.shiftl_mul_pow2 by lia. change (2 ^ 1) with 2.
    rewrite wrap64_id by (unfold is_uint64; lia).
    unfold is_uint64. lia.
  - replace (Z.lnot v) with (- v - 1) by (unfold Z.lnot; lia).
    rewrite (wrap64_id (- v - 1)) by (unfold is_uint64; lia).
    rewrite Z.shiftl_mul_pow2 by lia. change (2 ^ 1) with 2.
    rewrite (wrap64_id ((- v - 1) * 2)) by (unfold is_uint64; lia).
    rewrite wrap64_id by (unfold is_uint64; lia).
    unfold is_uint64. lia.
Qed.

(** The zig-zag decoding of [Decoder.Int64]. *)
Lemma unzigzag_spec (u : Z) :
  is_uint64 u ->
  unzigzag u = (if Z.even u then u / 2 else - ((u - 1) / 2) - 1) /\
  is_int64 (unzigzag u).
Proof.
  unfold is_uint64. intros H.
  change (2 ^ 64) with 18446744073709551616 in H.
  assert (P : 2 ^ 63 = 9223372036854775808) by reflexivity.
  assert (Hh : is_int64 (u / 2)) by (unfold is_int64; Z.div_mod_to_equations; lia).
  assert (Hn : is_int64 (-1 - u / 2)) by (unfold is_int64 in *; lia).
  assert (E : unzigzag u = if Z.even u then u / 2 else - ((u - 1) / 2) - 1).
  { unfold unzigzag.
    change 1 with (Z.ones 1) at 1. rewrite Z.land_ones by lia.
    change (2 ^ 1) with 2.
    rewrite Z.shiftr_div_pow2 by lia. change (2 ^ 1) with 2.
    rewrite (swrap64_id (u / 2)) by exact Hh.
    rewrite (swrap64_id (-1 - u / 2)) by exact Hn.
    rewrite Zmod_even.
    destruct (Z.even u) eqn:Ev; cbn [Z.eqb]; [reflexivity |].
    assert (Hodd : u mod 2 = 1) by (rewrite Zmod_even, Ev; reflexivity).
    Z.div_mod_to_equations. lia. }
  split; [exact E |]. rewrite E.
  destruct (Z.even u) eqn:Ev; [exact Hh |].
  assert (Hodd : u mod 2 = 1) by (rewrite Zmod_even, Ev; reflexivity).
  unfold is_int64 in *. Z.div_mod_to_equations. lia.
Qed.

Lemma unzigzag_zigzag (v : Z) : is_int64 v -> unzigzag (zigzag v) = v.
Proof.
  intros H. destruct (zigzag_spec v H) as [E Hu].
  destruct (unzigzag_spec _ Hu) as [E' _]. rewrite E'. rewrite E.
  unfold is_int64 in H. rewrite Z.geb_leb.
  destruct (Z.leb_spec 0 v).
  - rewrite Z.even_mul. cbn [Z.even orb]. Z.div_mod_to_equations. lia.
  - replace (2 * (- v - 1) + 1) with (1 + 2 * (- v - 1)) by lia.
    rewrite Z.even_add_mul_2. cbn [Z.even]. Z.div_mod_to_equations. lia.
Qed.

Lemma u8_zero (x : byte) : u8 x = 0 -> x = Byte.x00.
Proof. intros H. apply u8_inj. rewrite H. reflexivity. Qed.

Lemma len_trim (b : list byte) : len (trim b) <= len b.
Proof.
  induction b as [| x b IH]; [cbn; lia |].
  cbn [trim]. destruct (u8 x =? 0); [rewrite len_cons | ]; lia.
Qed.

(** Right-aligning the trimmed octets in a zeroed 8-byte array gives the
    untrimmed array back. *)
Lemma pad_trim (l : list byte) :
  len l = 8 -> copy_at (make 8) (8 - len (trim l)) (trim l) = l.
Proof.
  intros H.
  do 9 (destruct l as [| ? l]; try (unfold len in H; cbn [length] in H; lia)).
  cbn [trim].
  repeat match goal with
    | |- context [u8 ?x =? 0] =>
        destruct (Z.eqb_spec (u8 x) 0) as [E | E];
        [apply u8_zero in E; subst x | reflexivity]
    end.
  reflexivity.
Qed.

(** One octet of a big-endian integer, bit by bit. *)
Lemma testbit_octet (u k n : Z) :
  0 <= k -> 0 <= n ->
  Z.testbit (Z.shiftl (Z.shiftr u k mod 256) k) n =
  (k <=? n) && (n <? k + 8) && Z.testbit u n.
Proof.
  intros Hk Hn. rewrite Z.shiftl_spec by lia.
  destruct (Z.leb_spec k n) as [H | H]; cbn [andb].
  - change 256 with (2 ^ 8).
    destruct (Z.ltb_spec n (k + 8)) as [H8 | H8]; cbn [andb].
    + rewrite Z.mod_pow2_bits_low by lia.
      rewrite Z.shiftr_spec by lia. f_equal. lia.
    + apply Z.mod_pow2_bits_high. lia.
  - apply Z.testbit_neg_r. lia.
Qed.

Lemma BigEndian_PutUint64 (u : Z) :
  is_uint64 u -> BigEndian_Uint64 (PutUint64 u) = u.
Proof.
  unfold is_uint64. intros H.
  unfold BigEndian_Uint64, PutUint64.
  change (idx _ 7) with (to_byte u).
  change (idx _ 6) with (to_byte (Z.shiftr u 8)).
  change (idx _ 5) with (to_byte (Z.shiftr u 16)).
  change (idx _ 4) with (to_byte (Z.shiftr u 24)).
  change (idx _ 3) with (to_byte (Z.shiftr u 32)).
  change (idx _ 2) with (to_byte (Z.shiftr u 40)).
  change (idx _ 1) with (to_byte (Z.shiftr u 48)).
  change (idx _ 0) with (to_byte (Z.shiftr u 56)).
  rewrite !u8_to_byte.
  replace (u mod 256) with (Z.shiftl (Z.shiftr u 0 mod 256) 0)
    by (rewrite Z.shiftl_0_r, Z.shiftr_0_r; reflexivity).
  apply Z.bits_inj'. intros n Hn.
  rewrite !Z.lor_spec, !testbit_octet by lia.
  destruct (Z.ltb_spec n 64) as [Hlt | Hge].
  - destruct (Z.testbit u n); [| rewrite !andb_false_r; reflexivity].
    rewrite !andb_true_r.
    assert (C : n < 8 \/ 8 <= n < 16 \/ 16 <= n < 24 \/ 24 <= n < 32 \/
                32 <= n < 40 \/ 40 <= n < 48 \/ 48 <= n < 56 \/ 56 <= n) by lia.
    repeat match goal with
      | |- context [Z.leb ?a ?b] => destruct (Z.leb_spec a b); try lia
      | |- context [Z.ltb ?a ?b] => destruct (Z.ltb_spec a b); try lia
      end; reflexivity.
  - replace (Z.testbit u n) with false.
    + rewrite !andb_false_r. reflexivity.
    + symmetry. rewrite <- (Z.mod_small u (2 ^ 64)) by lia.
      apply Z.mod_pow2_bits_high. lia.
Qed.

Lemma len_PutUint64 (u : Z) : len (PutUint64 u) = 8.
Proof. reflexivity. Qed.

(** [Decoder.Bytes] after [Encoder.Bytes]. *)
Lemma Bytes_round_trip (e : Encoder) (b : list byte) :
  legal e ->
  exists res out d,
    Encoder_Bytes e b = Some res /\ e_err res = None /\
    enc_w (e_enc res) = enc_w e ++ out /\
    Decoder_Bytes (NewDecoder out) = Some ((b, None), d) /\ dec_in d = [].
Proof.
  intros H. unfold Encoder_Bytes, Decoder_Bytes.
  destruct (ReadFrom_WriteTo e b H) as (res & out & d & E & He & _ & Hw & Ed & Hd).
  exists res, out, d. rewrite Ed. cbn [d_err is_err d_w d_dec].
  repeat split; assumption.
Qed.

(** [Decoder.Uint64] after [Encoder.Uint64]. *)
Lemma Uint64_round_trip (e : Encoder) (u : Z) :
  legal e -> is_uint64 u ->
  exists res out d,
    Encoder_Uint64 e u = Some res /\ e_err res = None /\
    enc_w (e_enc res) = enc_w e ++ out /\
    Decoder_Uint64 (NewDecoder out) = Some ((u, None), d) /\ dec_in d = [].
Proof.
  intros H Hu. unfold Encoder_Uint64, Decoder_Uint64.
  destruct (Bytes_round_trip e (trim (PutUint64 u)) H)
    as (res & out & d & E & He & Hw & Ed & Hd).
  exists res, out, d. rewrite Ed. cbn [is_err].
  pose proof (len_trim (PutUint64 u)) as Hl. rewrite len_PutUint64 in Hl.
  rewrite Z.gtb_ltb. destruct (Z.ltb_spec 8 (len (trim (PutUint64 u)))); [lia |].
  rewrite pad_trim by reflexivity.
  rewrite BigEndian_PutUint64 by exact Hu.
  repeat split; assumption.
Qed.

(** C9. [Encoder.Int64] maps [v >= 0] to [2v] and [v < 0] to
    [2(-v-1)+1] before encoding the result as an unsigned integer blob;
    [Decoder.Int64] maps an even [u] to [u/2] and an odd [u] to
    [-((u-1)/2)-1]; and decoding what [Encoder.Int64] wrote for an int64
    [v] yields [v], without error and with all input consumed. *)
Theorem Int64_round_trip (e : Encoder) (v : Z) :
  legal e -> is_int64 v ->
  zigzag v = (if v >=? 0 then 2 * v else 2 * (- v - 1) + 1) /\
  Encoder_Int64 e v = Encoder_Uint64 e (zigzag v) /\
  (forall u, is_uint64 u ->
             unzigzag u = if Z.even u then u / 2 else - ((u - 1) / 2) - 1) /\
  exists res out d,
    Encoder_Int64 e v = Some res /\ e_err res = None /\
    enc_w (e_enc res) = enc_w e ++ out /\
    Decoder_Int64 (NewDecoder out) = Some ((v, None), d) /\ dec_in d = [].
Proof.
  intros H Hv. destruct (zigzag_spec v Hv) as [Ez Hu].
  split; [exact Ez |]. split; [reflexivity |].
  split; [intros u Hu'; apply unzigzag_spec; exact Hu' |].
  unfold Encoder_Int64, Decoder_Int64.
  destruct (Uint64_round_trip e (zigzag v) H Hu)
    as (res & out & d & E & He & Hw & Ed & Hd).
  exists res, out, d. rewrite Ed. cbn [is_err].
  rewrite unzigzag_zigzag by exact Hv.
  repeat split; assumption.
Qed.

Lemma Int64_round_trip_witness :
  zigzag (-5) = 9 /\
  exists res out d,
    Encoder_Int64 (NewEncoder []) (-5) = Some res /\ e_err res = None /\
    enc_w (e_enc res) = enc_w (NewEncoder []) ++ out /\
    Decoder_Int64 (NewDecoder out) = Some ((-5, None), d) /\ dec_in d = [].
Proof.
  destruct (Int64_round_trip (NewEncoder []) (-5)) as (Ez & _ & _ & R).
  - unfold legal. vm_compute. intuition discriminate.
  - unfold is_int64. vm_compute. intuition discriminate.
  - split; [exact Ez | exact R].
Defined.

(** ** Contiguous round trip *)

(** [Decode] on a buffer that starts with a single final chunk. *)
Lemma Decode_single (buf : list byte) (ofs n : Z) :
  Cbe.decodeHeader buf = (ofs, n, false, None) -> ofs + n <= len buf ->
  Cbe.Decode buf = Some (slice buf ofs (ofs + n), from buf (ofs + n), None).
Proof.
  intros E H. unfold Cbe.Decode. cbn [Cbe.Decode_loop]. rewrite E.
  cbn [is_err]. destruct (Z.ltb_spec (len buf) (ofs + n)); [lia |].
  reflexivity.
Qed.

Lemma slice_after (hdr src : list byte) (ofs : Z) :
  len hdr = ofs ->
  slice (hdr ++ src) ofs (ofs + len src) = src /\
  from (hdr ++ src) (ofs + len src) = [].
Proof.
  intros H. split.
  - rewrite <- (app_nil_r src) at 1. apply slice_exact; [exact H | lia].
  - unfold from. apply skipn_whole. rewrite len_app. lia.
Qed.

(** Below 4210752 octets [Encode] writes one final chunk, and [Decode]
    gives the content back with nothing left over. *)
Lemma Decode_Encode_single (src : list byte) :
  len src < 4210752 ->
  exists enc,
    Cbe.Encode [] src = Some (Returns enc) /\
    Cbe.Decode enc = Some (src, [], None).
Proof.
  intros H. pose proof (len_nonneg src) as H0. unfold Cbe.Encode.
  destruct ((len src =? 1) && (u8 (idx src 0) <? 128)) eqn:E1.
  { apply andb_prop in E1. destruct E1 as [E1 E2].
    apply Z.eqb_eq in E1. apply Z.ltb_lt in E2.
    destruct src as [| d0 [| d1 src]];
      try (unfold len in E1; cbn [length] in E1; lia).
    rewrite idx_0 in E2. eexists. split; [reflexivity |].
    cbn [app]. rewrite (Decode_single [d0] 0 1); [reflexivity | | cbn; lia].
    unfold Cbe.decodeHeader. rewrite idx_0.
    destruct (Z.ltb_spec (u8 d0) 128); [reflexivity | lia]. }
  destruct (Z.ltb_spec (len src) 64) as [Hs | Hs].
  { eexists. split; [reflexivity |]. cbn [app].
    set (b0 := to_byte (128 + len src)).
    assert (Hb0 : u8 b0 = 128 + len src)
      by (unfold b0; apply u8_to_byte_small; lia).
    destruct (slice_after [b0] src 1 eq_refl) as [Es Ef]. cbn [app] in Es, Ef.
    rewrite (Decode_single (b0 :: src) 1 (len src)); [now rewrite Es, Ef | | rewrite len_cons; lia].
    unfold Cbe.decodeHeader. rewrite len_cons, idx_0, Hb0.
    destruct (Z.eqb_spec (len src) 1) as [L1 | L1].
    - destruct src as [| d0 [| d1 src]];
        try (unfold len in L1; cbn [length] in L1; lia).
      cbn [andb] in E1. rewrite idx_0 in E1. apply Z.ltb_ge in E1.
      rewrite idx_1. cbn [len length Z.of_nat Pos.of_succ_nat Z.add Pos.add
                          Pos.succ Z.eqb Z.ltb Z.compare Pos.compare
                          Pos.compare_cont Pos.eqb negb andb].
      rewrite Z.geb_leb. destruct (Z.leb_spec 128 (u8 d0)); [reflexivity | lia].
    - rewrite u8_bsub by lia. rewrite Hb0.
      ztests; try lia; do 3 f_equal; lia. }
  destruct (Z.ltb_spec (len src) 16448) as [Hm | Hm].
  { eexists. split; [reflexivity |]. cbn [app].
    set (m := len src - 64).
    destruct (split_2 m) as [Hx Hn]; [change (2 ^ 14) with 16384; lia |].
    set (b0 := badd (to_byte 0xc0) (to_byte (Z.shiftr m 8))).
    set (b1 := to_byte m).
    assert (Hb0 : u8 b0 = 192 + Z.shiftr m 8) by (unfold b0; apply u8_badd; lia).
    assert (Hb1 : u8 b1 = m mod 256) by (unfold b1; apply u8_to_byte).
    destruct (slice_after [b0; b1] src 2 eq_refl) as [Es Ef]. cbn [app] in Es, Ef.
    rewrite (Decode_single (b0 :: b1 :: src) 2 (len src));
      [now rewrite Es, Ef | | rewrite !len_cons; lia].
    unfold Cbe.decodeHeader. rewrite !len_cons, idx_0, idx_1.
    change 63 with (Z.ones 6). rewrite u8_band_ones by lia.
    rewrite Hb0, Hb1. rewrite Z.shiftl_mul_pow2 by lia.
    replace ((192 + Z.shiftr m 8) mod 2 ^ 6) with (Z.shiftr m 8)
      by (change (2 ^ 6) with 64; Z.div_mod_to_equations; lia).
    change (2 ^ 8) with 256.
    ztests; try lia; do 3 f_equal; lia. }
  destruct (Z.ltb_spec (len src) 4210752) as [Hl | Hl]; [| lia].
  eexists. split; [reflexivity |]. cbn [app].
  set (m := len src - 16448).
  destruct (split_3 m 64) as [Hx Hn]; [lia |].
  set (b1 := badd (to_byte 0x00) (to_byte (Z.shiftr m 16))).
  set (b2 := to_byte (Z.shiftr m 8)). set (b3 := to_byte m).
  assert (Hb1 : u8 b1 = Z.shiftr m 16) by (unfold b1; rewrite u8_badd; lia).
  assert (Hb2 : u8 b2 = Z.shiftr m 8 mod 256) by (unfold b2; apply u8_to_byte).
  assert (Hb3 : u8 b3 = m mod 256) by (unfold b3; apply u8_to_byte).
  destruct (slice_after [to_byte 0x81; b1; b2; b3] src 4 eq_refl) as [Es Ef].
  cbn [app] in Es, Ef.
  rewrite (Decode_single (to_byte 0x81 :: b1 :: b2 :: b3 :: src) 4 (len src));
    [now rewrite Es, Ef | | rewrite !len_cons; lia].
  rewrite decodeHeader_large.
  - change (idx _ 1) with b1. change (idx _ 2) with b2. change (idx _ 3) with b3.
    rewrite Hb1, Hb2, Hb3.
    change 0x3f with (Z.ones 6). rewrite Z.land_ones by lia.
    rewrite !Z.shiftl_mul_pow2 by lia.
    rewrite (Z.mod_small (Z.shiftr m 16)) by (change (2 ^ 6) with 64; lia).
    destruct (Z.leb_spec 0x40 (Z.shiftr m 16)); [lia |].
    do 3 f_equal. change (2 ^ 16) with 65536. change (2 ^ 8) with 256. lia.
  - unfold large_header_complete. rewrite !len_cons, idx_1, Hb1.
    repeat split; lia.
Qed.

(** ** The contiguous encoder's fallback on the streaming encoder *)

Lemma make_app (a b : Z) : 0 <= a -> 0 <= b -> make (a + b) = make a ++ make b.
Proof.
  intros Ha Hb. unfold make.
  rewrite Z2Nat.inj_add by assumption. apply repeat_app.
Qed.

(** From 4210752 octets on, [Encode] returns what the streaming encoder
    writes at the maximum chunk size. *)
Lemma Encode_fallback (dst src : list byte) :
  4210752 <= len src ->
  exists cs,
    emits MaxChunkLen src cs /\
    Cbe.Encode dst src = Some (Returns (dst ++ wire_of cs)).
Proof.
  intros H. unfold Cbe.Encode.
  destruct (Z.eqb_spec (len src) 1); [lia |]. cbn [andb].
  destruct (Z.ltb_spec (len src) 64); [lia |].
  destruct (Z.ltb_spec (len src) 16448); [lia |].
  destruct (Z.ltb_spec (len src) 4210752); [lia |].
  destruct (SetChunkLen_legal (NewEncoder dst) MaxChunkLen)
    as (e & -> & Hc & Hw & Hl); [unfold MinChunkLen, MaxChunkLen; lia |].
  unfold Encoder_Bytes.
  destruct (ReadFrom_emits e src Hl) as (cs & res & Hcs & -> & _ & -> & Hw' & _).
  cbn [is_err]. rewrite Hc in Hcs. rewrite Hw', Hw.
  exists cs. split; [exact Hcs | reflexivity].
Qed.

Lemma Encode_two_chunks (p1 p2 : list byte) :
  len p1 = MaxChunkLen -> 4210752 <= len p1 + len p2 -> len p2 < MaxChunkLen ->
  Cbe.Encode [] (p1 ++ p2) =
    Some (Returns (partial_header MaxChunkLen ++ p1 ++ final_header p2 ++ p2)).
Proof.
  intros H1 H H2.
  destruct (Encode_fallback [] (p1 ++ p2)) as (cs & Hcs & ->);
    [rewrite len_app; lia |].
  apply emits_inv_partial in Hcs;
    [| rewrite len_app; unfold MaxChunkLen in *; lia].
  destruct Hcs as (cs' & -> & Hcs).
  rewrite firstn_exact by exact H1.
  rewrite skipn_exact in Hcs by exact H1.
  apply emits_inv_final in Hcs; [| exact H2]. subst cs'.
  unfold wire_of, partial_chunk, final_chunk. cbn [map concat c_wire app].
  rewrite H1, app_nil_r, <- app_assoc. reflexivity.
Qed.

Lemma Decode_loop_partial (f : nat) (content : option (list byte))
  (buf : list byte) (ofs n : Z) :
  Cbe.decodeHeader buf = (ofs, n, true, None) -> ofs + n <= len buf ->
  Cbe.Decode_loop (S f) content buf =
  Cbe.Decode_loop f (Cbe.append_nil content (slice buf ofs (ofs + n)))
                  (from buf (ofs + n)).
Proof.
  intros E H. cbn [Cbe.Decode_loop]. rewrite E. cbn [is_err negb andb].
  destruct (Z.ltb_spec (len buf) (ofs + n)); [lia | reflexivity].
Qed.

Lemma Decode_loop_final (f : nat) (c buf : list byte) (ofs n : Z) :
  Cbe.decodeHeader buf = (ofs, n, false, None) -> ofs + n <= len buf ->
  Cbe.Decode_loop (S f) (Some c) buf =
  Some (c ++ slice buf ofs (ofs + n), from buf (ofs + n), None).
Proof.
  intros E H. cbn [Cbe.Decode_loop]. rewrite E. cbn [is_err negb andb].
  destruct (Z.ltb_spec (len buf) (ofs + n)); [lia | reflexivity].
Qed.

(** [Decode] on what the fallback writes for two chunks whose second
    ends in five zero octets: the first header is read as a partial
    chunk of 4210751 octets, which swallows the second header, and the
    fifth octet from the end is read as a final inline chunk. *)
Lemma Decode_two_chunks (p1 p2 : list byte) :
  len p1 = 2113535 -> len p2 = 2097212 ->
  Cbe.Decode ([Byte.x81; Byte.x7f; Byte.xff; Byte.xff] ++ p1 ++
              [Byte.x81; Byte.x5f; Byte.xc0; Byte.x41] ++ p2 ++
              [Byte.x00; Byte.x00; Byte.x00; Byte.x00; Byte.x00]) =
    Some (p1 ++ [Byte.x81; Byte.x5f; Byte.xc0; Byte.x41] ++ p2 ++ [Byte.x00],
          [Byte.x00; Byte.x00; Byte.x00; Byte.x00], None).
Proof.
  intros H1 H2.
  set (h1 := [Byte.x81; Byte.x7f; Byte.xff; Byte.xff]).
  set (body := p1 ++ [Byte.x81; Byte.x5f; Byte.xc0; Byte.x41] ++ p2).
  set (z5 := [Byte.x00; Byte.x00; Byte.x00; Byte.x00; Byte.x00]).
  assert (Hb : len body = 4210751)
    by (unfold body; rewrite !len_app, H1, H2; reflexivity).
  replace (h1 ++ p1 ++ [Byte.x81; Byte.x5f; Byte.xc0; Byte.x41] ++ p2 ++ z5)
    with (h1 ++ body ++ z5)
    by (unfold body; rewrite <- !app_assoc; reflexivity).
  assert (Eh : Cbe.decodeHeader (h1 ++ body ++ z5) = (4, 4210751, true, None)).
  { rewrite decodeHeader_large; [reflexivity |].
    unfold large_header_complete. rewrite !len_app, Hb.
    repeat split; try reflexivity. cbn. lia. }
  assert (Hl : len (h1 ++ body ++ z5) = 4210760)
    by (rewrite !len_app, Hb; reflexivity).
  unfold Cbe.Decode.
  rewrite (Decode_loop_partial _ _ _ 4 4210751 Eh) by lia.
  change (4 + 4210751) with 4210755.
  rewrite (slice_exact h1 body z5 4 4210755) by (try exact Hb; reflexivity).
  replace (from (h1 ++ body ++ z5) 4210755) with z5.
  2:{ rewrite app_assoc. symmetry. apply from_exact.
      rewrite len_app, Hb. reflexivity. }
  assert (Ea : Cbe.append_nil None body = Some body).
  { destruct body; [discriminate Hb | reflexivity]. }
  rewrite Ea.
  change (length (h1 ++ body ++ z5)) with (S (length (skipn 1 h1 ++ body ++ z5))).
  rewrite (Decode_loop_final _ _ z5 0 1) by (cbn; try reflexivity; lia).
  unfold body. rewrite <- !app_assoc. reflexivity.
Qed.

(** C1 fails on 4210752 zero octets.  [Encode] hands them to the
    streaming encoder, which writes two chunks with headers of its own
    grammar ([0x81 0x7f 0xff 0xff] and [0x81 0x5f 0xc0 0x41]); [Decode]
    reads them in the contiguous grammar and returns, without error, a
    content that holds the second header and a remainder of four
    octets. *)
Theorem Decode_Encode_4210752 :
  exists enc content,
    Cbe.Encode [] (make 4210752) = Some (Returns enc) /\
    Cbe.Decode enc =
      Some (content, [Byte.x00; Byte.x00; Byte.x00; Byte.x00], None) /\
    content <> make 4210752.
Proof.
  set (z5 := [Byte.x00; Byte.x00; Byte.x00; Byte.x00; Byte.x00]).
  set (p1 := make 2113535). set (p2 := make 2097212).
  assert (L1 : len p1 = 2113535) by (apply len_make; lia).
  assert (L2 : len p2 = 2097212) by (apply len_make; lia).
  assert (Es : make 4210752 = p1 ++ p2 ++ z5).
  { change 4210752 with (2113535 + (2097212 + 5)).
    rewrite (make_app 2113535 (2097212 + 5)) by lia.
    rewrite (make_app 2097212 5) by lia. reflexivity. }
  assert (Eh : partial_header MaxChunkLen =
               [Byte.x81; Byte.x7f; Byte.xff; Byte.xff]) by reflexivity.
  assert (Ef : final_header (p2 ++ z5) =
               [Byte.x81; Byte.x5f; Byte.xc0; Byte.x41]).
  { unfold final_header. rewrite len_app, L2. reflexivity. }
  assert (E2 : p2 = Byte.x00 :: make 2097211).
  { unfold p2. change 2097212 with (1 + 2097211).
    rewrite (make_app 1 2097211) by lia. reflexivity. }
  rewrite Es. clearbody p1 p2.
  assert (L5 : len (p2 ++ z5) = 2097217) by (rewrite len_app, L2; reflexivity).
  rewrite (Encode_two_chunks p1 (p2 ++ z5))
    by (rewrite ?L1, ?L5; unfold MaxChunkLen; lia).
  rewrite Eh, Ef.
  do 2 eexists. split; [reflexivity |].
  split; [apply Decode_two_chunks; assumption |].
  intros Eq. apply app_inv_head in Eq. rewrite E2 in Eq. discriminate Eq.
Qed.

(** ** Streaming against contiguous encoding of small blobs *)

(** Below 64 octets the streaming encoder appends to its sink what the
    contiguous [Encode] appends to [dst]. *)
Lemma stream_matches_below_64 (e : Encoder) (s : list byte) :
  legal e -> len s < 64 ->
  exists res,
    ReadFrom e s = Some res /\ e_err res = None /\
    Cbe.Encode (enc_w e) s = Some (Returns (enc_w (e_enc res))).
Proof.
  intros H Hs.
  destruct (ReadFrom_emits e s H) as (cs & res & Hcs & E & _ & He & Hw & _).
  unfold legal, MinChunkLen in H.
  apply emits_inv_final in Hcs; [| lia]. subst cs.
  exists res. split; [exact E | split; [exact He |]].
  rewrite Hw. unfold wire_of, final_chunk, final_header, Cbe.Encode.
  cbn [map concat c_wire]. rewrite app_nil_r.
  destruct ((len s =? 1) && (u8 (idx s 0) <? 128)); [reflexivity |].
  destruct (Z.ltb_spec (len s) 64); [| lia].
  destruct (Z.ltb_spec (len s) 128); [| lia].
  rewrite <- app_assoc. reflexivity.
Qed.

(** C3 fails on 64 zero octets at the default chunk size: the streaming
    encoder writes the one header octet [0xc0] of its own grammar, the
    contiguous encoder the two header octets [0xc0 0x00]. *)
Theorem stream_differs_at_64 :
  exists res enc,
    ReadFrom (NewEncoder []) (make 64) = Some res /\ e_err res = None /\
    enc_w (e_enc res) = Byte.xc0 :: make 64 /\
    Cbe.Encode [] (make 64) = Some (Returns enc) /\
    enc = Byte.xc0 :: Byte.x00 :: make 64 /\
    enc_w (e_enc res) <> enc.
Proof.
  destruct (ReadFrom (NewEncoder []) (make 64)) as [res |] eqn:E;
    [| vm_compute in E; discriminate E].
  assert (Hw : enc_w (e_enc res) = Byte.xc0 :: make 64 /\ e_err res = None).
  { vm_compute in E. injection E as <-. vm_compute. split; reflexivity. }
  destruct Hw as [Hw He].
  exists res, (Byte.xc0 :: Byte.x00 :: make 64).
  rewrite Hw. repeat split; try assumption; try (vm_compute; reflexivity).
  vm_compute. discriminate.
Qed.

(** * Further properties of the codec *)

(** ** The contiguous encoders and decoders on single chunks *)

Lemma contiguous_header_Encode (dst src : list byte) :
  len src < 4210752 ->
  Cbe.Encode dst src = Some (Returns (dst ++ contiguous_header src ++ src)).
Proof.
  intros H. unfold Cbe.Encode, contiguous_header.
  destruct ((len src =? 1) && (u8 (idx src 0) <? 128)); [reflexivity |].
  destruct (len src <? 64); [now rewrite <- app_assoc |].
  destruct (len src <? 16448); [now rewrite <- app_assoc |].
  destruct (Z.ltb_spec (len src) 4210752); [now rewrite <- app_assoc | lia].
Qed.

Lemma contiguous_header_small_Encode (dst src : list byte) :
  len src < 16448 ->
  SmallCbe.Encode dst src = Returns (dst ++ contiguous_header src ++ src).
Proof.
  intros H. unfold SmallCbe.Encode, contiguous_header.
  destruct ((len src =? 1) && (u8 (idx src 0) <? 128)); [reflexivity |].
  destruct (len src <? 64); [now rewrite <- app_assoc |].
  destruct (Z.ltb_spec (len src) 16448); [now rewrite <- app_assoc | lia].
Qed.

(** The header overhead: nothing for one octet below 128, one octet
    below 64 octets, two below 16448, four from there on. *)
Lemma len_contiguous_header (src : list byte) :
  len (contiguous_header src) =
    if (len src =? 1) && (u8 (idx src 0) <? 128) then 0
    else if len src <? 64 then 1
    else if len src <? 16448 then 2 else 4.
Proof.
  unfold contiguous_header.
  destruct ((len src =? 1) && (u8 (idx src 0) <? 128)); [reflexivity |].
  destruct (len src <? 64); [reflexivity |].
  destruct (len src <? 16448); reflexivity.
Qed.

(** The full [decodeHeader] on an encoding followed by anything. *)
Lemma decodeHeader_contiguous (src rest : list byte) :
  len src < 4210752 ->
  Cbe.decodeHeader (contiguous_header src ++ src ++ rest) =
    (len (contiguous_header src), len src, false, None).
Proof.
  intros H. pose proof (len_nonneg src) as H0. pose proof (len_nonneg rest) as Hr.
  unfold contiguous_header.
  destruct ((len src =? 1) && (u8 (idx src 0) <? 128)) eqn:E1.
  { apply andb_prop in E1. destruct E1 as [E1 E2].
    apply Z.eqb_eq in E1. apply Z.ltb_lt in E2.
    destruct src as [| d0 [| d1 src]];
      try (unfold len in E1; cbn [length] in E1; lia).
    rewrite idx_0 in E2. cbn [app].
    unfold Cbe.decodeHeader. rewrite len_cons, idx_0.
    destruct (Z.eqb_spec (1 + len rest) 0); [lia |].
    destruct (Z.ltb_spec (u8 d0) 128); [reflexivity | lia]. }
  destruct (Z.ltb_spec (len src) 64) as [Hs | Hs].
  { cbn [app]. set (b0 := to_byte (128 + len src)).
    assert (Hb0 : u8 b0 = 128 + len src)
      by (unfold b0; apply u8_to_byte_small; lia).
    unfold Cbe.decodeHeader. rewrite len_cons, len_app, idx_0, Hb0.
    destruct (Z.eqb_spec (len src) 1) as [L1 | L1].
    - destruct src as [| d0 [| d1 src]];
        try (unfold len in L1; cbn [length] in L1; lia).
      cbn [andb] in E1. rewrite idx_0 in E1. apply Z.ltb_ge in E1.
      cbn [app]. rewrite idx_1. rewrite L1.
      rewrite Z.geb_leb.
      destruct (Z.leb_spec 128 (u8 d0)); [| lia].
      ztests; try lia; reflexivity.
    - rewrite u8_bsub by lia. rewrite Hb0.
      ztests; try lia; do 3 f_equal; lia. }
  destruct (Z.ltb_spec (len src) 16448) as [Hm | Hm].
  { cbn [app]. set (m := len src - 64).
    destruct (split_2 m) as [Hx Hn]; [change (2 ^ 14) with 16384; lia |].
    set (b0 := badd (to_byte 0xc0) (to_byte (Z.shiftr m 8))).
    set (b1 := to_byte m).
    assert (Hb0 : u8 b0 = 192 + Z.shiftr m 8) by (unfold b0; apply u8_badd; lia).
    assert (Hb1 : u8 b1 = m mod 256) by (unfold b1; apply u8_to_byte).
    unfold Cbe.decodeHeader. rewrite !len_cons, len_app, idx_0, idx_1.
    change 63 with (Z.ones 6). rewrite u8_band_ones by lia.
    rewrite Hb0, Hb1. rewrite Z.shiftl_mul_pow2 by lia.
    replace ((192 + Z.shiftr m 8) mod 2 ^ 6) with (Z.shiftr m 8)
      by (change (2 ^ 6) with 64; Z.div_mod_to_equations; lia).
    change (2 ^ 8) with 256.
    ztests; try lia; do 3 f_equal; lia. }
  cbn [app]. set (m := len src - 16448).
  destruct (split_3 m 64) as [Hx Hn]; [lia |].
  set (b1 := badd (to_byte 0x00) (to_byte (Z.shiftr m 16))).
  set (b2 := to_byte (Z.shiftr m 8)). set (b3 := to_byte m).
  assert (Hb1 : u8 b1 = Z.shiftr m 16) by (unfold b1; rewrite u8_badd; lia).
  assert (Hb2 : u8 b2 = Z.shiftr m 8 mod 256) by (unfold b2; apply u8_to_byte).
  assert (Hb3 : u8 b3 = m mod 256) by (unfold b3; apply u8_to_byte).
  rewrite decodeHeader_large.
  - change (idx _ 1) with b1. change (idx _ 2) with b2. change (idx _ 3) with b3.
    rewrite Hb1, Hb2, Hb3.
    change 0x3f with (Z.ones 6). rewrite Z.land_ones by lia.
    rewrite !Z.shiftl_mul_pow2 by lia.
    rewrite (Z.mod_small (Z.shiftr m 16)) by (change (2 ^ 6) with 64; lia).
    destruct (Z.leb_spec 0x40 (Z.shiftr m 16)); [lia |].
    do 3 f_equal. change (2 ^ 16) with 65536. change (2 ^ 8) with 256. lia.
  - unfold large_header_complete. rewrite !len_cons, idx_1, Hb1.
    pose proof (len_nonneg (src ++ rest)). repeat split; lia.
Qed.

(** Where the small-only [decodeHeader] does not give up on a 4-byte
    header, the full one returns the same offset, length and error. *)
Lemma decodeHeader_agree (buf : list byte) :
  snd (SmallCbe.decodeHeader buf) <> Some TooLong ->
  Cbe.decodeHeader buf =
    (fst (fst (SmallCbe.decodeHeader buf)), snd (fst (SmallCbe.decodeHeader buf)),
     false, snd (SmallCbe.decodeHeader buf)).
Proof.
  unfold SmallCbe.decodeHeader, Cbe.decodeHeader.
  ztests; cbn [fst snd]; intros N; try reflexivity; congruence.
Qed.

Lemma Decode_header_error (buf : list byte) (ofs n : Z) (part : bool) (e : error) :
  Cbe.decodeHeader buf = (ofs, n, part, Some e) ->
  Cbe.Decode buf = Some ([], [], Some e).
Proof.
  intros E. unfold Cbe.Decode. cbn [Cbe.Decode_loop]. rewrite E. reflexivity.
Qed.

Lemma Decode_short (buf : list byte) (ofs n : Z) (part : bool) :
  Cbe.decodeHeader buf = (ofs, n, part, None) -> len buf < ofs + n ->
  Cbe.Decode buf = Some ([], [], Some EOF).
Proof.
  intros E H. unfold Cbe.Decode. cbn [Cbe.Decode_loop]. rewrite E.
  cbn [is_err]. destruct (Z.ltb_spec (len buf) (ofs + n)); [reflexivity | lia].
Qed.

(** Contiguous round trip with anything after the blob: below 4210752
    octets [Encode] appends [src] behind a header of 0, 1, 2 or 4 octets,
    the shortest that the length allows, and [Decode] on the encoding
    followed by [rest] returns [src] and [rest]. *)
Theorem Decode_Encode_rest (src rest : list byte) :
  len src < 4210752 ->
  exists enc,
    (forall dst, Cbe.Encode dst src = Some (Returns (dst ++ enc))) /\
    len enc = len src +
              (if (len src =? 1) && (u8 (idx src 0) <? 128) then 0
               else if len src <? 64 then 1
               else if len src <? 16448 then 2 else 4) /\
    Cbe.Decode (enc ++ rest) = Some (src, rest, None).
Proof.
  intros H. exists (contiguous_header src ++ src).
  split; [intros dst; apply contiguous_header_Encode; exact H |].
  split; [rewrite len_app, len_contiguous_header; lia |].
  rewrite <- app_assoc.
  rewrite (Decode_single _ _ _ (decodeHeader_contiguous src rest H))
    by (rewrite !len_app; pose proof (len_nonneg rest); lia).
  rewrite (slice_exact (contiguous_header src) src rest) by (try reflexivity; lia).
  rewrite app_assoc, from_exact by (rewrite len_app; reflexivity).
  reflexivity.
Qed.

Lemma Decode_Encode_rest_witness :
  exists enc,
    (forall dst, Cbe.Encode dst (make 70) = Some (Returns (dst ++ enc))) /\
    len enc = len (make 70) + 2 /\
    Cbe.Decode (enc ++ [Byte.x2a]) = Some (make 70, [Byte.x2a], None).
Proof.
  apply (Decode_Encode_rest (make 70) [Byte.x2a]).
  vm_compute. reflexivity.
Defined.

Lemma small_decodeHeader_of_full (buf : list byte) (ofs n : Z) :
  Cbe.decodeHeader buf = (ofs, n, false, None) -> ofs < 4 ->
  SmallCbe.decodeHeader buf = (ofs, n, None).
Proof.
  intros E Ho.
  assert (Eo : fst (fst (fst (Cbe.decodeHeader buf))) = ofs) by now rewrite E.
  assert (En : snd (fst (fst (Cbe.decodeHeader buf))) = n) by now rewrite E.
  assert (Ee : snd (Cbe.decodeHeader buf) = None) by now rewrite E.
  clear E. revert Eo En Ee.
  unfold SmallCbe.decodeHeader, Cbe.decodeHeader.
  ztests; cbn [fst snd]; intros Eo En Ee; subst;
    try reflexivity; try discriminate; lia.
Qed.

(** Round trip of the small-only codec with anything after the blob:
    below 16448 octets [Encode] appends [src] behind at most two header
    octets, and [Decode] on the encoding followed by [rest] returns
    [src] and [rest]. *)
Theorem small_Decode_Encode_rest (src rest : list byte) :
  len src < 16448 ->
  exists enc,
    (forall dst, SmallCbe.Encode dst src = Returns (dst ++ enc)) /\
    len src <= len enc <= len src + 2 /\
    SmallCbe.Decode (enc ++ rest) = (src, rest, None).
Proof.
  intros H. exists (contiguous_header src ++ src).
  split; [intros dst; apply contiguous_header_small_Encode; exact H |].
  assert (Hh : 0 <= len (contiguous_header src) <= 2).
  { rewrite len_contiguous_header.
    destruct ((len src =? 1) && (u8 (idx src 0) <? 128)); [lia |].
    destruct (len src <? 64); [lia |].
    destruct (Z.ltb_spec (len src) 16448); lia. }
  split; [rewrite len_app; lia |].
  rewrite <- app_assoc. unfold SmallCbe.Decode.
  rewrite (small_decodeHeader_of_full _ (len (contiguous_header src)) (len src))
    by (try apply decodeHeader_contiguous; lia).
  cbn [is_err]. rewrite !len_app. pose proof (len_nonneg rest).
  destruct (Z.ltb_spec (len (contiguous_header src) + (len src + len rest))
                       (len (contiguous_header src) + len src)); [lia |].
  rewrite (slice_exact (contiguous_header src) src rest) by (try reflexivity; lia).
  rewrite app_assoc, from_exact by (rewrite len_app; reflexivity).
  reflexivity.
Qed.

Lemma small_Decode_Encode_rest_witness :
  exists enc,
    (forall dst, SmallCbe.Encode dst (make 70) = Returns (dst ++ enc)) /\
    len (make 70) <= len enc <= len (make 70) + 2 /\
    SmallCbe.Decode (enc ++ [Byte.x2a]) = (make 70, [Byte.x2a], None).
Proof.
  apply (small_Decode_Encode_rest (make 70) [Byte.x2a]).
  vm_compute. reflexivity.
Defined.

(** The full codec extends the small-only one: whatever the small-only
    [Encode] returns, the full [Encode] returns too, and wherever the
    small-only [Decode] does not report [TooLong] the full [Decode]
    returns the same content, remainder and error. *)
Theorem full_extends_small (dst src buf : list byte) :
  (forall out, SmallCbe.Encode dst src = Returns out ->
               Cbe.Encode dst src = Some (Returns out)) /\
  (snd (SmallCbe.Decode buf) <> Some TooLong ->
   Cbe.Decode buf = Some (SmallCbe.Decode buf)).
Proof.
  split.
  - unfold SmallCbe.Encode, Cbe.Encode. intros out.
    destruct ((len src =? 1) && (u8 (idx src 0) <? 128)); [congruence |].
    destruct (len src <? 64); [congruence |].
    destruct (len src <? 16448); [congruence | discriminate].
  - intros N.
    assert (N' : snd (SmallCbe.decodeHeader buf) <> Some TooLong).
    { intros C. apply N. apply small_Decode_err. exact C. }
    pose proof (decodeHeader_agree buf N') as E.
    unfold Cbe.Decode, SmallCbe.Decode. cbn [Cbe.Decode_loop]. rewrite E.
    destruct (SmallCbe.decodeHeader buf) as [[ofs n] [e |]]; cbn [fst snd is_err].
    + reflexivity.
    + destruct (len buf <? ofs + n); reflexivity.
Qed.

Lemma full_extends_small_witness :
  Cbe.Decode [Byte.x82; Byte.xab; Byte.xcd; Byte.x07] =
    Some (SmallCbe.Decode [Byte.x82; Byte.xab; Byte.xcd; Byte.x07]).
Proof.
  apply (proj2 (full_extends_small [] [] [Byte.x82; Byte.xab; Byte.xcd; Byte.x07])).
  vm_compute. discriminate.
Defined.

(** ** Uniqueness of single-chunk encodings *)

Lemma len_slice_in {A : Type} (s : list A) (lo hi : Z) :
  0 <= lo <= hi -> hi <= len s -> len (slice s lo hi) = hi - lo.
Proof.
  intros H1 H2. unfold slice. rewrite len_firstn, len_skipn. lia.
Qed.

Lemma slice_cons_1 {A : Type} (b : A) (s : list A) (n : Z) :
  0 <= n -> slice (b :: s) 1 (1 + n) = firstn (Z.to_nat n) s.
Proof.
  intros H. unfold slice. cbn [Z.to_nat Pos.to_nat Pos.iter_op Nat.add skipn].
  f_equal. lia.
Qed.

Lemma to_byte_eq (b : byte) (x : Z) : u8 b = x mod 256 -> to_byte x = b.
Proof. intros H. apply u8_inj. rewrite u8_to_byte. symmetry. exact H. Qed.

(** A final chunk that the full [decodeHeader] accepts begins with the
    header that the encoder writes for its payload. *)
Lemma header_canonical (buf : list byte) (ofs n : Z) :
  Cbe.decodeHeader buf = (ofs, n, false, None) -> ofs + n <= len buf ->
  contiguous_header (slice buf ofs (ofs + n)) = firstn (Z.to_nat ofs) buf /\
  0 <= ofs /\ 0 <= n < 4210752.
Proof.
  intros E Hlen.
  assert (Eo : fst (fst (fst (Cbe.decodeHeader buf))) = ofs) by now rewrite E.
  assert (En : snd (fst (fst (Cbe.decodeHeader buf))) = n) by now rewrite E.
  assert (Ep : snd (fst (Cbe.decodeHeader buf)) = false) by now rewrite E.
  assert (Ee : snd (Cbe.decodeHeader buf) = None) by now rewrite E.
  clear E. revert Eo En Ep Ee. unfold Cbe.decodeHeader.
  destruct buf as [| b0 buf]; [cbn; discriminate |].
  rewrite len_cons, idx_0 in *. pose proof (len_nonneg buf) as Hb.
  pose proof (u8_range b0) as R0.
  destruct (Z.eqb_spec (1 + len buf) 0); [lia |].
  destruct (Z.ltb_spec (u8 b0) 128) as [H0 | H0].
  { cbn [fst snd]. intros <- <- _ _.
    assert (Es : slice (b0 :: buf) 0 (0 + 1) = [b0]) by reflexivity.
    rewrite Es. unfold contiguous_header. rewrite idx_0.
    change (len [b0]) with 1.
    destruct (Z.ltb_spec (u8 b0) 128); [| lia].
    repeat split; lia. }
  destruct (Z.eqb_spec (u8 b0) 129) as [E9 | E9]; cbn [negb andb].
  2:{ destruct (Z.ltb_spec (u8 b0) (128 + 64)) as [H1 | H1].
      - cbn [fst snd]. rewrite u8_bsub by lia. intros <- <- _ _.
        assert (Hn : len (slice (b0 :: buf) 1 (1 + (u8 b0 - 128))) = u8 b0 - 128).
        { replace (u8 b0 - 128) with (1 + (u8 b0 - 128) - 1) at 2 by lia.
          apply len_slice_in; rewrite ?len_cons; lia. }
        unfold contiguous_header. rewrite Hn.
        destruct (Z.eqb_spec (u8 b0 - 128) 1); [lia |]. cbn [andb].
        destruct (Z.ltb_spec (u8 b0 - 128) 64); [| lia].
        replace (128 + (u8 b0 - 128)) with (u8 b0) by lia. rewrite to_byte_u8.
        repeat split; lia.
      - destruct buf as [| b1 buf]; [cbn; discriminate |].
        rewrite !len_cons, idx_1 in *. pose proof (len_nonneg buf) as Hb'.
        pose proof (u8_range b1) as R1.
        destruct (Z.ltb_spec (1 + (1 + len buf)) 2); [lia |].
        rewrite Z.geb_leb. destruct (Z.leb_spec (128 + 64) (u8 b0)); [| lia].
        cbn [fst snd].
        change 63 with (Z.ones 6). rewrite u8_band_ones by lia.
        rewrite Z.shiftl_mul_pow2 by lia.
        change (2 ^ 6) with 64. change (2 ^ 8) with 256.
        intros <- <- _ _.
        set (m := u8 b0 mod 64 * 256 + u8 b1).
        replace (64 + u8 b0 mod 64 * 256 + u8 b1) with (64 + m) in *
          by (unfold m; lia).
        assert (Hm : 0 <= m < 16384) by (unfold m; Z.div_mod_to_equations; lia).
        assert (Hn : len (slice (b0 :: b1 :: buf) 2 (2 + (64 + m))) = 64 + m).
        { replace (64 + m) with (2 + (64 + m) - 2) at 2 by lia.
          apply len_slice_in; rewrite ?len_cons; lia. }
        unfold contiguous_header. rewrite Hn.
        destruct (Z.eqb_spec (64 + m) 1); [lia |]. cbn [andb].
        destruct (Z.ltb_spec (64 + m) 64); [lia |].
        destruct (Z.ltb_spec (64 + m) 16448); [| lia].
        replace (64 + m - 64) with m by lia.
        assert (Hs : Z.shiftr m 8 = u8 b0 mod 64).
        { rewrite Z.shiftr_div_pow2 by lia. change (2 ^ 8) with 256.
          unfold m. Z.div_mod_to_equations. lia. }
        split; [| lia]. simpl (firstn _ (_ :: _)).
        f_equal; [| f_equal].
        + apply u8_inj. rewrite u8_badd, Hs by (rewrite ?Hs; Z.div_mod_to_equations; lia).
          Z.div_mod_to_equations. lia.
        + apply to_byte_eq. unfold m. Z.div_mod_to_equations. lia. }
  destruct buf as [| b1 buf]; [cbn; discriminate |].
  rewrite !len_cons, idx_1 in *. pose proof (len_nonneg buf) as Hb'.
  pose proof (u8_range b1) as R1.
  destruct (Z.ltb_spec (1 + (1 + len buf)) 2); [lia |].
  rewrite !Z.geb_leb. destruct (Z.leb_spec 128 (u8 b1)) as [H1 | H1].
  { cbn [fst snd]. intros <- <- _ _.
    assert (Es : slice (b0 :: b1 :: buf) 1 (1 + 1) = [b1]) by reflexivity.
    rewrite Es. unfold contiguous_header. rewrite idx_0.
    change (len [b1]) with 1.
    destruct (Z.ltb_spec (u8 b1) 128); [lia |].
    rewrite andb_false_r. change (1 <? 64) with true. cbv iota.
    split; [| lia].
    simpl (firstn _ (_ :: _)). f_equal.
    apply to_byte_eq. rewrite E9. reflexivity. }
  destruct (Z.leb_spec (128 + 64) (u8 b0)); [lia |].
  destruct buf as [| b2 [| b3 buf]]; try (cbn; discriminate).
  rewrite !len_cons in *. pose proof (len_nonneg buf) as Hb''.
  destruct (Z.ltb_spec (1 + (1 + (1 + (1 + len buf)))) 4); [lia |].
  change (idx _ 2) with b2. change (idx _ 3) with b3.
  pose proof (u8_range b2) as R2. pose proof (u8_range b3) as R3.
  change 0x3f with (Z.ones 6). rewrite u8_band_ones by lia.
  rewrite !Z.shiftl_mul_pow2 by lia.
  change (2 ^ 6) with 64. change (2 ^ 8) with 256. change (2 ^ 16) with 65536.
  cbn [fst snd]. intros <- <- Ep _.
  destruct (Z.leb_spec 64 (u8 b1)); [discriminate Ep |].
  rewrite (Z.mod_small (u8 b1) 64) in * by lia.
  set (m := u8 b1 * 65536 + u8 b2 * 256 + u8 b3).
  assert (Hm : 0 <= m < 4194304) by (unfold m; lia).
  replace (16448 + u8 b1 * 65536 + u8 b2 * 256 + u8 b3) with (16448 + m) in *
    by (unfold m; lia).
  assert (Hn : len (slice (b0 :: b1 :: b2 :: b3 :: buf) 4 (4 + (16448 + m)))
               = 16448 + m).
  { replace (16448 + m) with (4 + (16448 + m) - 4) at 2 by lia.
    apply len_slice_in; rewrite ?len_cons; lia. }
  unfold contiguous_header. rewrite Hn.
  destruct (Z.eqb_spec (16448 + m) 1); [lia |]. cbn [andb].
  destruct (Z.ltb_spec (16448 + m) 64); [lia |].
  destruct (Z.ltb_spec (16448 + m) 16448); [lia |].
  replace (16448 + m - 16448) with m by lia.
  split; [| lia]. simpl (firstn _ (_ :: _)).
  assert (S16 : Z.shiftr m 16 = u8 b1).
  { rewrite Z.shiftr_div_pow2 by lia. change (2 ^ 16) with 65536.
    unfold m. Z.div_mod_to_equations. lia. }
  assert (S8 : Z.shiftr m 8 mod 256 = u8 b2).
  { rewrite Z.shiftr_div_pow2 by lia. change (2 ^ 8) with 256.
    unfold m. Z.div_mod_to_equations. lia. }
  f_equal; [| f_equal; [| f_equal; [| f_equal]]].
  - apply to_byte_eq. rewrite E9. reflexivity.
  - apply u8_inj. rewrite u8_badd by (rewrite ?S16; lia). lia.
  - apply to_byte_eq. symmetry. exact S8.
  - apply to_byte_eq. unfold m. Z.div_mod_to_equations. lia.
Qed.

Lemma slice_parts {A : Type} (s : list A) (lo hi : Z) :
  0 <= lo <= hi ->
  firstn (Z.to_nat lo) s ++ slice s lo hi ++ from s hi = s.
Proof.
  intros H. unfold slice, from.
  replace (Z.to_nat hi) with (Z.to_nat (hi - lo) + Z.to_nat lo)%nat by lia.
  rewrite <- skipn_skipn, firstn_skipn. apply firstn_skipn.
Qed.

Lemma small_decodeHeader_shape (buf : list byte) (ofs n : Z) :
  SmallCbe.decodeHeader buf = (ofs, n, None) ->
  0 <= ofs <= 2 /\ 0 <= n < 16448.
Proof.
  intros E.
  assert (Eo : fst (fst (SmallCbe.decodeHeader buf)) = ofs) by now rewrite E.
  assert (En : snd (fst (SmallCbe.decodeHeader buf)) = n) by now rewrite E.
  assert (Ee : snd (SmallCbe.decodeHeader buf) = None) by now rewrite E.
  clear E. revert Eo En Ee. unfold SmallCbe.decodeHeader.
  pose proof (u8_range (idx buf 0)). pose proof (u8_range (idx buf 1)).
  pose proof (u8_range (bsub (idx buf 0) (to_byte 128))).
  assert (Hb : 0 <= u8 (band (idx buf 0) (to_byte 63)) < 64).
  { change 63 with (Z.ones 6). rewrite u8_band_ones by lia.
    apply Z.mod_pos_bound. lia. }
  rewrite Z.shiftl_mul_pow2 by lia. change (2 ^ 8) with 256.
  ztests; cbn [fst snd]; intros Eo En Ee; subst; try discriminate; lia.
Qed.

(** Encodings of small blobs are unique: whenever the small-only
    [Decode] succeeds, its input is the encoding that [Encode] produces
    for the returned content, followed by the returned remainder. *)
Theorem small_Decode_canonical (buf content rem : list byte) :
  SmallCbe.Decode buf = (content, rem, None) ->
  len content < 16448 /\
  exists enc, SmallCbe.Encode [] content = Returns enc /\ buf = enc ++ rem.
Proof.
  unfold SmallCbe.Decode.
  destruct (SmallCbe.decodeHeader buf) as [[ofs n] e] eqn:E.
  destruct e as [e |]; cbn [is_err]; [discriminate |].
  destruct (Z.ltb_spec (len buf) (ofs + n)) as [Hl | Hl]; [discriminate |].
  intros R. injection R as <- <-.
  destruct (small_decodeHeader_shape buf ofs n E) as [Ho Hn].
  assert (Ef : Cbe.decodeHeader buf = (ofs, n, false, None)).
  { rewrite decodeHeader_agree; rewrite E; [reflexivity | cbn; discriminate]. }
  destruct (header_canonical buf ofs n Ef Hl) as [Hh _].
  assert (Hc : len (slice buf ofs (ofs + n)) = n).
  { replace n with (ofs + n - ofs) at 2 by lia. apply len_slice_in; lia. }
  split; [lia |].
  exists (contiguous_header (slice buf ofs (ofs + n)) ++ slice buf ofs (ofs + n)).
  split.
  - rewrite contiguous_header_small_Encode by lia. reflexivity.
  - rewrite Hh, <- app_assoc. symmetry. apply slice_parts. lia.
Qed.

Lemma small_Decode_canonical_witness :
  len [Byte.xab; Byte.xcd] < 16448 /\
  exists enc, SmallCbe.Encode [] [Byte.xab; Byte.xcd] = Returns enc /\
              [Byte.x82; Byte.xab; Byte.xcd; Byte.x07] = enc ++ [Byte.x07].
Proof.
  apply (small_Decode_canonical [Byte.x82; Byte.xab; Byte.xcd; Byte.x07]).
  vm_compute. reflexivity.
Defined.

(** The same for the full codec, for a blob in one chunk: when the first
    chunk of [buf] is final and [Decode] succeeds, [buf] is the encoding
    that [Encode] produces for the content, followed by the remainder. *)
Theorem Decode_canonical (buf content rem : list byte) :
  snd (fst (Cbe.decodeHeader buf)) = false ->
  Cbe.Decode buf = Some (content, rem, None) ->
  len content < 4210752 /\
  exists enc, Cbe.Encode [] content = Some (Returns enc) /\ buf = enc ++ rem.
Proof.
  intros Hp. unfold Cbe.Decode. cbn [Cbe.Decode_loop].
  destruct (Cbe.decodeHeader buf) as [[[ofs n] part] e] eqn:E.
  cbn [fst snd] in Hp. subst part.
  destruct e as [e |]; cbn [is_err negb andb]; [discriminate |].
  destruct (Z.ltb_spec (len buf) (ofs + n)) as [Hl | Hl]; [discriminate |].
  intros R. injection R as <- <-.
  destruct (header_canonical buf ofs n E Hl) as (Hh & Ho & Hn).
  assert (Hc : len (slice buf ofs (ofs + n)) = n).
  { replace n with (ofs + n - ofs) at 2 by lia. apply len_slice_in; lia. }
  split; [lia |].
  exists (contiguous_header (slice buf ofs (ofs + n)) ++ slice buf ofs (ofs + n)).
  split.
  - rewrite contiguous_header_Encode by lia. reflexivity.
  - rewrite Hh, <- app_assoc. symmetry. apply slice_parts. lia.
Qed.

Lemma Decode_canonical_witness :
  len [Byte.xab; Byte.xcd] < 4210752 /\
  exists enc, Cbe.Encode [] [Byte.xab; Byte.xcd] = Some (Returns enc) /\
              [Byte.x82; Byte.xab; Byte.xcd; Byte.x07] = enc ++ [Byte.x07].
Proof.
  apply (Decode_canonical [Byte.x82; Byte.xab; Byte.xcd; Byte.x07]);
    vm_compute; reflexivity.
Defined.

(** ** The loop of the full [Decode] *)

(** More fuel than the loop needs changes nothing. *)
Lemma Decode_loop_fuel (f1 : nat) :
  forall f2 content buf, (length buf < f1)%nat -> (length buf < f2)%nat ->
  Cbe.Decode_loop f1 content buf = Cbe.Decode_loop f2 content buf.
Proof.
  induction f1 as [| f1 IH]; intros f2 content buf H1 H2; [lia |].
  destruct f2 as [| f2]; [lia |].
  cbn [Cbe.Decode_loop].
  pose proof (decodeHeader_shape buf) as Hs.
  destruct (Cbe.decodeHeader buf) as [[[ofs n] part] [e |]]; cbn [is_err];
    [reflexivity |].
  destruct Hs as (Ho & Hn & Hp).
  destruct (Z.ltb_spec (len buf) (ofs + n)) as [Hl | Hl]; [reflexivity |].
  destruct part; cbn [negb andb]; [| reflexivity].
  destruct (Hp eq_refl) as [-> Hn'].
  apply IH; unfold from; rewrite length_skipn; unfold len in Hl; lia.
Qed.

Lemma bytes_of_append_nil (content : option (list byte)) (p : list byte) :
  Cbe.bytes_of (Cbe.append_nil content p) = Cbe.bytes_of content ++ p.
Proof. destruct content, p; cbn; rewrite ?app_nil_r; reflexivity. Qed.

(** What the loop returns with content already collected, in terms of
    what it returns when started afresh on the same buffer. *)
Lemma Decode_loop_content (f : nat) :
  forall content buf,
  Cbe.Decode_loop f content buf =
    match Cbe.Decode_loop f None buf with
    | Some (c, r, None) => Some (Cbe.bytes_of content ++ c, r, None)
    | other => other
    end.
Proof.
  induction f as [| f IH]; intros content buf; [reflexivity |].
  cbn [Cbe.Decode_loop].
  destruct (Cbe.decodeHeader buf) as [[[ofs n] part] [e |]]; cbn [is_err];
    [reflexivity |].
  destruct (len buf <? ofs + n); [reflexivity |].
  destruct part; cbn [negb andb].
  - rewrite (IH (Cbe.append_nil content _)), (IH (Cbe.append_nil None _)).
    destruct (Cbe.Decode_loop f None (from buf (ofs + n)))
      as [[[c r] [e |]] |]; try reflexivity.
    rewrite !bytes_of_append_nil. cbn [Cbe.bytes_of app].
    rewrite app_assoc. reflexivity.
  - destruct content as [c0 |]; cbn [negb Cbe.bytes_of app]; [| reflexivity].
    reflexivity.
Qed.

(** [Decode] stitches partial chunks: on a buffer that starts with a
    complete partial chunk it returns the chunk's payload followed by
    the content that it returns on the rest of the buffer, with that
    rest's remainder; an error on the rest is the error of the whole. *)
Theorem Decode_partial_chunk (buf : list byte) (ofs n : Z) :
  Cbe.decodeHeader buf = (ofs, n, true, None) -> ofs + n <= len buf ->
  Cbe.Decode buf =
    match Cbe.Decode (from buf (ofs + n)) with
    | Some (c, r, None) => Some (slice buf ofs (ofs + n) ++ c, r, None)
    | other => other
    end.
Proof.
  intros E Hl. unfold Cbe.Decode at 1.
  rewrite (Decode_loop_partial _ _ _ _ _ E Hl).
  pose proof (decodeHeader_shape buf) as Hs. rewrite E in Hs.
  destruct Hs as (_ & _ & Hp). destruct (Hp eq_refl) as [-> Hn].
  assert (Hlen : (length (from buf (4 + n)) < length buf)%nat).
  { unfold from. rewrite length_skipn. unfold len in Hl. lia. }
  rewrite (Decode_loop_fuel _ (S (length (from buf (4 + n))))) by lia.
  rewrite Decode_loop_content. unfold Cbe.Decode.
  destruct (Cbe.Decode_loop (S (length (from buf (4 + n)))) None (from buf (4 + n)))
    as [[[c r] [e |]] |]; try reflexivity.
  rewrite bytes_of_append_nil. reflexivity.
Qed.

Lemma Decode_partial_chunk_witness :
  Cbe.Decode ([Byte.x81; Byte.x40; Byte.x00; Byte.x00] ++ make 16448 ++
              [Byte.x82; Byte.xab; Byte.xcd; Byte.x07]) =
    Some (make 16448 ++ [Byte.xab; Byte.xcd], [Byte.x07], None).
Proof.
  rewrite (Decode_partial_chunk _ 4 16448); vm_compute; try reflexivity.
  discriminate.
Defined.

Lemma decodeHeader_progress (buf : list byte) (ofs n : Z) (part : bool) :
  Cbe.decodeHeader buf = (ofs, n, part, None) -> 0 <= ofs /\ 0 <= n /\ 1 <= ofs + n.
Proof.
  intros E.
  assert (Eo : fst (fst (fst (Cbe.decodeHeader buf))) = ofs) by now rewrite E.
  assert (En : snd (fst (fst (Cbe.decodeHeader buf))) = n) by now rewrite E.
  assert (Ee : snd (Cbe.decodeHeader buf) = None) by now rewrite E.
  clear E. revert Eo En Ee. unfold Cbe.decodeHeader.
  pose proof (u8_range (idx buf 1)). pose proof (u8_range (idx buf 2)).
  pose proof (u8_range (idx buf 3)).
  pose proof (u8_range (band (idx buf 0) (to_byte 63))).
  pose proof (u8_range (band (idx buf 1) (to_byte 0x3f))).
  pose proof (u8_range (bsub (idx buf 0) (to_byte 128))).
  repeat rewrite Z.shiftl_mul_pow2 by lia.
  ztests; cbn [fst snd]; intros Eo En Ee; subst; try discriminate; lia.
Qed.

(** On success the loop of [Decode] has consumed a non-empty prefix of
    the buffer, at least as long as the content it added. *)
Lemma Decode_loop_consumes (f : nat) :
  forall content buf c r,
  Cbe.Decode_loop f content buf = Some (c, r, None) ->
  exists pre, buf = pre ++ r /\ 0 < len pre /\
              len c <= len (Cbe.bytes_of content) + len pre.
Proof.
  induction f as [| f IH]; intros content buf c r; [discriminate |].
  cbn [Cbe.Decode_loop].
  destruct (Cbe.decodeHeader buf) as [[[ofs n] part] [e |]] eqn:E; cbn [is_err];
    [discriminate |].
  destruct (decodeHeader_progress buf ofs n part E) as (Ho & Hn & Hon).
  destruct (Z.ltb_spec (len buf) (ofs + n)) as [Hl | Hl]; [discriminate |].
  assert (Hpre : len (firstn (Z.to_nat (ofs + n)) buf) = ofs + n)
    by (rewrite len_firstn; lia).
  assert (Hsl : len (slice buf ofs (ofs + n)) = n).
  { replace n with (ofs + n - ofs) at 2 by lia. apply len_slice_in; lia. }
  assert (Hsplit : buf = firstn (Z.to_nat (ofs + n)) buf ++ from buf (ofs + n))
    by (symmetry; apply firstn_skipn).
  destruct part; cbn [negb andb].
  - intros R. apply IH in R. destruct R as (pre & Hb & Hp & Hc).
    exists (firstn (Z.to_nat (ofs + n)) buf ++ pre).
    rewrite <- app_assoc, <- Hb. split; [exact Hsplit |].
    rewrite bytes_of_append_nil, len_app in Hc. rewrite len_app. lia.
  - assert (G : forall c0, c = c0 ++ slice buf ofs (ofs + n) ->
                r = from buf (ofs + n) -> len c0 = len (Cbe.bytes_of content) ->
                exists pre, buf = pre ++ r /\ 0 < len pre /\
                            len c <= len (Cbe.bytes_of content) + len pre).
    { intros c0 -> -> Hc0. exists (firstn (Z.to_nat (ofs + n)) buf).
      split; [exact Hsplit |]. rewrite len_app. lia. }
    destruct content as [c0 |]; cbn [negb]; intros R; injection R as <- <-.
    + apply (G c0); reflexivity.
    + apply (G []); reflexivity.
Qed.

Lemma Decode_loop_error (f : nat) :
  forall content buf c r e,
  Cbe.Decode_loop f content buf = Some (c, r, Some e) -> c = [] /\ r = [].
Proof.
  induction f as [| f IH]; intros content buf c r e; [discriminate |].
  cbn [Cbe.Decode_loop].
  destruct (Cbe.decodeHeader buf) as [[[ofs n] part] [e' |]]; cbn [is_err].
  - intros R. injection R as <- <- _. auto.
  - destruct (len buf <? ofs + n); [intros R; injection R as <- <-; auto |].
    destruct part; cbn [negb andb]; [apply IH |].
    destruct content; cbn [negb]; discriminate.
Qed.

(** [Decode] always returns.  Its only error is EOF, with nil content
    and remainder; on success the remainder is a proper suffix of the
    buffer, so decoding blob after blob from one buffer makes progress,
    and the content is no longer than what was consumed. *)
Theorem Decode_outcome (buf : list byte) :
  exists c r e,
    Cbe.Decode buf = Some (c, r, e) /\
    match e with
    | Some e' => e' = EOF /\ c = [] /\ r = []
    | None => exists pre, buf = pre ++ r /\ 0 < len pre /\ len c <= len pre
    end.
Proof.
  destruct (Decode_loop_returns (S (length buf)) None buf) as (c & r & e & E & He);
    [lia |].
  exists c, r, e. split; [exact E |].
  destruct He as [-> | ->].
  - destruct (Decode_loop_consumes _ _ _ _ _ E) as (pre & Hb & Hp & Hc).
    exists pre. cbn in Hc. auto.
  - split; [reflexivity |]. apply (Decode_loop_error _ _ _ _ _ _ E).
Qed.

(** The full [decodeHeader] reads a prefix: whatever it returns without
    error on a buffer it returns on every extension of the buffer. *)
Lemma decodeHeader_extend (p tl : list byte) :
  snd (Cbe.decodeHeader p) = Some EOF \/
  Cbe.decodeHeader (p ++ tl) = Cbe.decodeHeader p.
Proof.
  pose proof (len_nonneg tl) as Ht.
  destruct p as [| b0 [| b1 [| b2 [| b3 p]]]]; [left; reflexivity | | | |];
    cbn [app]; unfold Cbe.decodeHeader;
    rewrite ?len_cons, ?len_nil, ?idx_0, ?idx_1;
    try pose proof (len_nonneg p);
    try pose proof (len_nonneg (p ++ tl));
    try change (idx (b0 :: b1 :: b2 :: tl) 2) with b2;
    try change (idx [b0; b1; b2] 2) with b2;
    try change (idx (b0 :: b1 :: b2 :: b3 :: p ++ tl) 2) with b2;
    try change (idx (b0 :: b1 :: b2 :: b3 :: p) 2) with b2;
    try change (idx (b0 :: b1 :: b2 :: b3 :: p ++ tl) 3) with b3;
    try change (idx (b0 :: b1 :: b2 :: b3 :: p) 3) with b3;
    ztests; cbn [fst snd]; try (left; reflexivity); try (right; reflexivity);
    try lia.
Qed.

(** A buffer cut inside its first chunk: [Decode] returns EOF. *)
Theorem Decode_truncated (buf : list byte) (ofs n : Z) (part : bool) (k : Z) :
  Cbe.decodeHeader buf = (ofs, n, part, None) -> k < ofs + n ->
  Cbe.Decode (firstn (Z.to_nat k) buf) = Some ([], [], Some EOF).
Proof.
  intros E Hk.
  destruct (decodeHeader_progress buf ofs n part E) as (Ho & Hn & Hon).
  set (p := firstn (Z.to_nat k) buf).
  assert (Hp : len p <= Z.max 0 k) by (unfold p; rewrite len_firstn; lia).
  destruct (decodeHeader_extend p (skipn (Z.to_nat k) buf)) as [He | He].
  - destruct (Cbe.decodeHeader p) as [[[o' n'] p'] e'] eqn:E'.
    cbn [snd] in He. subst e'. apply (Decode_header_error _ _ _ _ _ E').
  - unfold p in He at 1. rewrite firstn_skipn, E in He.
    apply (Decode_short p ofs n part); [symmetry; exact He | lia].
Qed.

Lemma Decode_truncated_witness :
  Cbe.Decode (firstn (Z.to_nat 2) [Byte.x83; Byte.xab; Byte.xcd; Byte.xef]) =
    Some ([], [], Some EOF).
Proof.
  apply (Decode_truncated [Byte.x83; Byte.xab; Byte.xcd; Byte.xef] 1 3 false 2);
    vm_compute; reflexivity.
Defined.

(** ** The streaming encoder: configuration, chunk arithmetic, reuse *)

(** [SetChunkLen] panics with "chunk size too small" below
    [MinChunkLen] and with "chunk size too large" above [MaxChunkLen];
    otherwise it sets the chunk size, leaves the sink alone, and keeps
    the backing array of the chunk buffer whenever its capacity is
    enough for the new size. *)
Theorem SetChunkLen_outcome (e : Encoder) (c : Z) :
  match SetChunkLen e c with
  | Panics p =>
      (c < MinChunkLen /\ p = ChunkTooSmall) \/
      (MinChunkLen <= c /\ MaxChunkLen < c /\ p = ChunkTooLarge)
  | Returns e' =>
      MinChunkLen <= c <= MaxChunkLen /\ ChunkLen e' = c /\ enc_w e' = enc_w e /\
      match enc_buf e, enc_buf e' with
      | Some b, Some b' =>
          4 + c <= len (vis b ++ spare b) ->
          vis b' ++ spare b' = vis b ++ spare b
      | _, None => False
      | None, Some b' => vis b' = make (4 + c) /\ spare b' = []
      end
  end.
Proof.
  unfold SetChunkLen.
  destruct (Z.ltb_spec c MinChunkLen); [left; auto |].
  rewrite Z.gtb_ltb. destruct (Z.ltb_spec MaxChunkLen c); [right; auto |].
  split; [lia |].
  assert (Hc : 0 < 4 + c) by (unfold MinChunkLen in *; lia).
  cbn [enc_w enc_buf]. unfold ChunkLen, getBuf. cbn [enc_buf vis spare].
  destruct (enc_buf e) as [b |].
  - destruct (Z.ltb_spec (len (vis b ++ spare b)) (4 + c)) as [Hl | Hl].
    + split; [| split; [reflexivity | lia]].
      unfold slice. cbn [Z.to_nat skipn]. rewrite len_firstn, len_make; lia.
    + split; [| split; [reflexivity |]].
      * unfold slice. cbn [Z.to_nat skipn]. rewrite len_firstn. lia.
      * intros _. unfold slice, from. cbn [Z.to_nat skipn].
        rewrite Z.sub_0_r. apply firstn_skipn.
  - change (len (@nil byte)) with 0.
    destruct (Z.ltb_spec 0 (4 + c)); [| lia].
    assert (Es : slice (make (4 + c)) 0 (4 + c) = make (4 + c)).
    { unfold slice. cbn [Z.to_nat skipn]. rewrite Z.sub_0_r.
      apply firstn_whole. rewrite len_make; lia. }
    rewrite Es. split; [rewrite len_make; lia |].
    split; [reflexivity |]. split; [reflexivity |].
    unfold from. apply skipn_whole. rewrite len_make; lia.
Qed.

Lemma emits_functional (c : Z) (r : list byte) (cs1 cs2 : list chunk) :
  emits c r cs1 -> emits c r cs2 -> cs1 = cs2.
Proof.
  intros H1. revert cs2. induction H1 as [r Hr | r cs Hr Hcs IH]; intros cs2 H2.
  - symmetry. apply (emits_inv_final c); assumption.
  - apply emits_inv_partial in H2; [| exact Hr].
    destruct H2 as (cs' & -> & H2). f_equal. apply IH. exact H2.
Qed.

(** What [ReadFrom] writes depends on the chunk size and the source
    only: two encoders of the same chunk size, whatever their sinks hold
    and whatever earlier calls left in their chunk buffers, emit the same
    chunks and append the same octets. *)
Theorem ReadFrom_depends_on_chunk_size (e1 e2 : Encoder) (r : list byte) :
  legal e1 -> ChunkLen e2 = ChunkLen e1 ->
  exists res1 res2 out,
    ReadFrom e1 r = Some res1 /\ ReadFrom e2 r = Some res2 /\
    enc_w (e_enc res1) = enc_w e1 ++ out /\
    enc_w (e_enc res2) = enc_w e2 ++ out /\
    e_chunks res1 = e_chunks res2.
Proof.
  intros H1 Hc.
  assert (H2 : legal e2) by (unfold legal in *; rewrite Hc; exact H1).
  destruct (ReadFrom_emits e1 r H1) as (cs1 & res1 & Hcs1 & E1 & _ & _ & Hw1 & Hch1 & _).
  destruct (ReadFrom_emits e2 r H2) as (cs2 & res2 & Hcs2 & E2 & _ & _ & Hw2 & Hch2 & _).
  rewrite Hc in Hcs2.
  assert (cs1 = cs2) by (eapply emits_functional; eassumption). subst cs2.
  exists res1, res2, (wire_of cs1). repeat split; try assumption; congruence.
Qed.

Lemma ReadFrom_depends_on_chunk_size_witness :
  exists res1 res2 out,
    ReadFrom (NewEncoder []) (make 300) = Some res1 /\
    ReadFrom (mkEncoder [Byte.x07] (Some (mkbuf (repeat Byte.xff (Z.to_nat 16388)) [])))
             (make 300) = Some res2 /\
    enc_w (e_enc res1) = [] ++ out /\
    enc_w (e_enc res2) = [Byte.x07] ++ out /\
    e_chunks res1 = e_chunks res2.
Proof.
  apply (ReadFrom_depends_on_chunk_size (NewEncoder [])
           (mkEncoder [Byte.x07] (Some (mkbuf (repeat Byte.xff (Z.to_nat 16388)) [])))
           (make 300)).
  - unfold legal. vm_compute. intuition discriminate.
  - vm_compute. reflexivity.
Defined.

(** Chunk arithmetic of [emits]: [len r / c] partial chunks, a final
    chunk of [len r mod c] octets, and four header octets per partial
    chunk plus the final header on the wire. *)
Lemma emits_count (c : Z) (r : list byte) (cs : list chunk) :
  0 < c -> emits c r cs ->
  len cs = len r / c + 1 /\
  (exists fin, last cs fin = fin /\ c_more (last cs fin) = false /\
               c_len (last cs fin) = len r mod c) /\
  len r + 4 * (len r / c) <= len (wire_of cs) <= len r + 4 * (len r / c) + 4.
Proof.
  intros Hc. induction 1 as [r Hr | r cs Hr Hcs IH].
  - pose proof (len_nonneg r).
    rewrite Z.div_small, Z.mod_small by lia.
    split; [reflexivity |]. split.
    + exists (final_chunk r). cbn. auto.
    + unfold wire_of, final_chunk. cbn [map concat c_wire].
      rewrite app_nil_r, len_app.
      assert (0 <= len (final_header r) <= 4).
      { unfold final_header.
        destruct ((len r =? 1) && (u8 (idx r 0) <? 128)); [cbn; lia |].
        destruct (len r <? 128); [cbn; lia |].
        destruct (len r <? 16384 + 128); cbn; lia. }
      lia.
  - destruct IH as (Hn & (fin & Hlast & Hm & Hl) & Hw).
    set (data := firstn (Z.to_nat c) r) in *.
    set (rest := skipn (Z.to_nat c) r) in *.
    assert (Hd : len data = c) by (unfold data; rewrite len_firstn; lia).
    assert (Hrest : len rest = len r - c) by (unfold rest; rewrite len_skipn; lia).
    assert (Hdiv : len r / c = (len r - c) / c + 1).
    { replace (len r) with ((len r - c) + 1 * c) at 1 by lia.
      apply Z.div_add. lia. }
    assert (Hmod : len r mod c = (len r - c) mod c).
    { replace (len r) with ((len r - c) + 1 * c) at 1 by lia.
      apply Z.mod_add. lia. }
    rewrite Hrest in *.
    split; [rewrite len_cons; lia |]. split.
    + destruct cs as [| ch cs]; [inversion Hcs |].
      exists fin. cbn [last] in *. rewrite Hmod. auto.
    + unfold wire_of in *. cbn [map concat]. rewrite len_app.
      assert (Hp : len (c_wire (partial_chunk data)) = 4 + c).
      { unfold partial_chunk, partial_header. cbn [c_wire].
        rewrite len_app, Hd. reflexivity. }
      rewrite Hp. lia.
Qed.

(** [ReadFrom] reports the number of octets read, emits
    [len r / ChunkLen] partial chunks and a final chunk that carries the
    remaining [len r mod ChunkLen] octets, and appends to the sink the
    source's octets plus four header octets per partial chunk and at
    most four for the final chunk. *)
Theorem ReadFrom_chunk_count (e : Encoder) (r : list byte) :
  legal e ->
  exists res fin,
    ReadFrom e r = Some res /\ e_err res = None /\ e_n res = len r /\
    len (e_chunks res) = len r / ChunkLen e + 1 /\
    last (e_chunks res) fin = fin /\ c_more fin = false /\
    c_len fin = len r mod ChunkLen e /\
    len (enc_w e) + len r + 4 * (len r / ChunkLen e)
      <= len (enc_w (e_enc res))
      <= len (enc_w e) + len r + 4 * (len r / ChunkLen e) + 4.
Proof.
  intros H.
  destruct (ReadFrom_emits e r H) as (cs & res & Hcs & E & Hn & He & Hw & Hch & _).
  assert (Hpos : 0 < ChunkLen e) by (unfold legal, MinChunkLen in H; lia).
  destruct (emits_count _ _ _ Hpos Hcs) as (Hc & (fin & Hlast & Hm & Hl) & Hb).
  rewrite Hlast in Hm, Hl.
  exists res, fin. rewrite Hch, Hw, len_app.
  repeat split; try assumption; lia.
Qed.

Lemma ReadFrom_chunk_count_witness :
  exists res fin,
    ReadFrom (NewEncoder []) (make 40000) = Some res /\ e_err res = None /\
    e_n res = len (make 40000) /\
    len (e_chunks res) = len (make 40000) / ChunkLen (NewEncoder []) + 1 /\
    last (e_chunks res) fin = fin /\ c_more fin = false /\
    c_len fin = len (make 40000) mod ChunkLen (NewEncoder []) /\
    len (enc_w (NewEncoder [])) + len (make 40000)
      + 4 * (len (make 40000) / ChunkLen (NewEncoder []))
      <= len (enc_w (e_enc res))
      <= len (enc_w (NewEncoder [])) + len (make 40000)
         + 4 * (len (make 40000) / ChunkLen (NewEncoder [])) + 4.
Proof.
  apply (ReadFrom_chunk_count (NewEncoder []) (make 40000)).
  unfold legal. vm_compute. intuition discriminate.
Defined.

(** ** Blob after blob on one stream *)

(** [WriteTo] on the chunks of a blob followed by more input. *)
Lemma WriteTo_emits_rest (c : Z) (r rest : list byte) (cs : list chunk)
  (l : option byte) (w : list byte) :
  MinChunkLen <= c <= MaxChunkLen -> emits c r cs ->
  exists l',
    WriteTo {| dec_in := wire_of cs ++ rest; dec_last := l |} w =
      Some (mkdrained (len r) None (w ++ r)
                      {| dec_in := rest; dec_last := l' |}).
Proof.
  intros Hc Hcs. unfold WriteTo. cbn [dec_in].
  assert (Hpos : 0 < c) by (unfold MinChunkLen in Hc; lia).
  pose proof (emits_length c r cs Hpos Hcs) as Hlen.
  apply (drain_emits c r cs Hc Hcs). rewrite length_app. lia.
Qed.

(** One encoder, one decoder, two blobs: a second [ReadFrom] on the
    encoder that the first one left appends the second blob's encoding
    to the sink, and two calls of [WriteTo] on the resulting stream
    deliver the first and then the second source, consuming the stream
    exactly. *)
Theorem two_blobs_round_trip (e : Encoder) (s1 s2 : list byte) :
  legal e ->
  exists res1 res2 out1 out2 d1 d2,
    ReadFrom e s1 = Some res1 /\ e_err res1 = None /\
    ReadFrom (e_enc res1) s2 = Some res2 /\ e_err res2 = None /\
    ChunkLen (e_enc res2) = ChunkLen e /\
    enc_w (e_enc res2) = enc_w e ++ out1 ++ out2 /\
    WriteTo (NewDecoder (out1 ++ out2)) [] =
      Some (mkdrained (len s1) None s1 d1) /\
    WriteTo d1 [] = Some (mkdrained (len s2) None s2 d2) /\
    dec_in d2 = [].
Proof.
  intros H.
  destruct (ReadFrom_emits e s1 H)
    as (cs1 & res1 & Hcs1 & E1 & _ & He1 & Hw1 & _ & Hc1).
  assert (H' : legal (e_enc res1)) by (unfold legal in *; rewrite Hc1; exact H).
  destruct (ReadFrom_emits (e_enc res1) s2 H')
    as (cs2 & res2 & Hcs2 & E2 & _ & He2 & Hw2 & _ & Hc2).
  rewrite Hc1 in Hcs2.
  destruct (WriteTo_emits_rest _ s1 (wire_of cs2) cs1 None [] H Hcs1) as (l1 & D1).
  destruct (WriteTo_emits_rest _ s2 [] cs2 l1 [] H Hcs2) as (l2 & D2).
  rewrite app_nil_r in D2.
  exists res1, res2, (wire_of cs1), (wire_of cs2).
  eexists. eexists.
  repeat split; try eassumption.
  - congruence.
  - rewrite Hw2, Hw1, <- app_assoc. reflexivity.
  - reflexivity.
Qed.

Lemma two_blobs_round_trip_witness :
  exists res1 res2 out1 out2 d1 d2,
    ReadFrom (NewEncoder []) (make 20000) = Some res1 /\ e_err res1 = None /\
    ReadFrom (e_enc res1) [Byte.x2a] = Some res2 /\ e_err res2 = None /\
    ChunkLen (e_enc res2) = ChunkLen (NewEncoder []) /\
    enc_w (e_enc res2) = enc_w (NewEncoder []) ++ out1 ++ out2 /\
    WriteTo (NewDecoder (out1 ++ out2)) [] =
      Some (mkdrained (len (make 20000)) None (make 20000) d1) /\
    WriteTo d1 [] = Some (mkdrained (len [Byte.x2a]) None [Byte.x2a] d2) /\
    dec_in d2 = [].
Proof.
  apply (two_blobs_round_trip (NewEncoder []) (make 20000) [Byte.x2a]).
  unfold legal. vm_compute. intuition discriminate.
Defined.

(** ** Truncated streams *)

(** [header] reads a prefix of its input: if it returns without error on
    the input [p], it returns the same on [p] followed by [tl] and leaves
    [tl] behind what it left of [p]; its only error is EOF. *)
Lemma header_extend (p tl : list byte) (l : option byte) :
  snd (fst (header {| dec_in := p; dec_last := l |})) = Some EOF \/
  (snd (fst (header {| dec_in := p; dec_last := l |})) = None /\
   header {| dec_in := p ++ tl; dec_last := l |} =
     (fst (header {| dec_in := p; dec_last := l |}),
      {| dec_in := dec_in (snd (header {| dec_in := p; dec_last := l |})) ++ tl;
         dec_last := dec_last (snd (header {| dec_in := p; dec_last := l |})) |})).
Proof.
  destruct p as [| b0 [| b1 [| b2 [| b3 p]]]]; [left; reflexivity | | | |];
    unfold header;
    repeat (cbn [ReadByte UnreadByte dec_in dec_last app is_err negb fst snd];
            rewrite ?Z.geb_leb;
            match goal with
            | |- context [Z.ltb ?a ?b] => destruct (Z.ltb_spec a b)
            | |- context [Z.leb ?a ?b] => destruct (Z.leb_spec a b)
            | |- context [Z.eqb ?a ?b] => destruct (Z.eqb_spec a b)
            end);
    cbn [ReadByte UnreadByte dec_in dec_last app is_err negb fst snd];
    try (left; reflexivity); right; split; reflexivity.
Qed.

(** A stream cut inside a chunk: the loop of [WriteTo] reports EOF. *)
Lemma drain_cut (W data : list byte) (m : bool) (l l' : option byte) (k : Z)
  (f : nat) (w : list byte) (tot : Z) :
  header {| dec_in := W; dec_last := l |} =
    ((len data, m, None), {| dec_in := data; dec_last := l' |}) ->
  k < len W ->
  exists w' d',
    drain (S f) {| dec_in := firstn (Z.to_nat k) W; dec_last := l |} w tot =
      Some (mkdrained 0 (Some EOF) w' d').
Proof.
  intros E Hk.
  set (p := firstn (Z.to_nat k) W). set (q := skipn (Z.to_nat k) W).
  assert (HW : W = p ++ q) by (symmetry; apply firstn_skipn).
  assert (HW0 : 0 < len W).
  { destruct W; [discriminate E | rewrite len_cons; pose proof (len_nonneg W); lia]. }
  assert (Hq : 0 < len q) by (unfold q; rewrite len_skipn; lia).
  cbn [drain].
  destruct (header_extend p q l) as [He | [He Hx]].
  - destruct (header {| dec_in := p; dec_last := l |}) as [[[n' m'] e'] d'].
    cbn [fst snd] in He. subst e'. cbn [is_err]. eauto.
  - rewrite <- HW, E in Hx.
    destruct (header {| dec_in := p; dec_last := l |}) as [[[n' m'] e'] d'].
    cbn [fst snd] in He, Hx. subst e'. injection Hx as <- <- Hd _.
    cbn [is_err]. unfold CopyN.
    assert (Hlt : len (firstn (Z.to_nat (len data)) (dec_in d')) < len data).
    { rewrite len_firstn. rewrite Hd, len_app. pose proof (len_nonneg (dec_in d')). lia. }
    destruct (Z.ltb_spec (len (firstn (Z.to_nat (len data)) (dec_in d'))) (len data));
      [| lia].
    cbn [is_err]. eauto.
Qed.

Lemma drain_truncated (c : Z) (r : list byte) (cs : list chunk) :
  MinChunkLen <= c <= MaxChunkLen -> emits c r cs ->
  forall k fuel l w tot,
    k < len (wire_of cs) ->
    (length (firstn (Z.to_nat k) (wire_of cs)) < fuel)%nat ->
    exists w' d',
      drain fuel {| dec_in := firstn (Z.to_nat k) (wire_of cs); dec_last := l |}
            w tot = Some (mkdrained 0 (Some EOF) w' d').
Proof.
  intros Hc. induction 1 as [r Hr | r cs Hr Hcs IH];
    intros k fuel l w tot Hk Hf; (destruct fuel as [| f]; [lia |]).
  - unfold wire_of in *. cbn [map concat] in *. rewrite app_nil_r in *.
    destruct (header_final_chunk r [] l) as (l' & E); [lia |].
    rewrite !app_nil_r in E.
    apply (drain_cut _ r false l l'); assumption.
  - unfold wire_of in *. cbn [map concat] in *. fold (wire_of cs) in *.
    set (data := firstn (Z.to_nat c) r) in *.
    assert (Hd : len data = c)
      by (unfold data, MinChunkLen in *; rewrite len_firstn; lia).
    set (W := c_wire (partial_chunk data)) in *.
    assert (HW : len W = 4 + c).
    { unfold W, partial_chunk, partial_header. cbn [c_wire].
      rewrite len_app, Hd. reflexivity. }
    destruct (Z.lt_ge_cases k (len W)) as [Hlt | Hge].
    + assert (Ef : firstn (Z.to_nat k) (W ++ wire_of cs) = firstn (Z.to_nat k) W).
      { rewrite firstn_app.
        replace (Z.to_nat k - length W)%nat with 0%nat by (unfold len in Hlt; lia).
        cbn [firstn]. apply app_nil_r. }
      rewrite Ef.
      destruct (header_partial_chunk data [] l) as (l' & E); [lia |].
      fold W in E. rewrite !app_nil_r in E.
      apply (drain_cut _ data true l l'); assumption.
    + assert (Ef : firstn (Z.to_nat k) (W ++ wire_of cs) =
                   W ++ firstn (Z.to_nat (k - len W)) (wire_of cs)).
      { rewrite firstn_app, firstn_whole by lia.
        f_equal. f_equal. unfold len. lia. }
      rewrite Ef in *. rewrite len_app in Hk.
      cbn [drain].
      destruct (header_partial_chunk data
                  (firstn (Z.to_nat (k - len W)) (wire_of cs)) l) as (l1 & E);
        [lia |].
      fold W in E. rewrite E. cbn [is_err].
      destruct (CopyN_exact w data (firstn (Z.to_nat (k - len W)) (wire_of cs)) l1)
        as (l2 & ->).
      cbn [is_err]. rewrite Z.eqb_refl. cbn [negb].
      apply IH; [lia |].
      rewrite length_app in Hf. unfold len, MinChunkLen in *. lia.
Qed.

(** Truncated input: on any proper prefix of the octets that [ReadFrom]
    wrote for a blob, [WriteTo] returns the error EOF and the count 0. *)
Theorem WriteTo_truncated (e : Encoder) (s : list byte) (k : Z) :
  legal e ->
  exists res out,
    ReadFrom e s = Some res /\ enc_w (e_enc res) = enc_w e ++ out /\
    (k < len out ->
     exists w d,
       WriteTo (NewDecoder (firstn (Z.to_nat k) out)) [] =
         Some (mkdrained 0 (Some EOF) w d)).
Proof.
  intros H.
  destruct (ReadFrom_emits e s H) as (cs & res & Hcs & E & _ & _ & Hw & _).
  exists res, (wire_of cs). split; [exact E | split; [exact Hw |]].
  intros Hk. unfold WriteTo, NewDecoder. cbn [dec_in].
  apply (drain_truncated _ s cs H Hcs); [exact Hk | lia].
Qed.

Lemma WriteTo_truncated_witness :
  exists res out,
    ReadFrom (NewEncoder []) (make 20000) = Some res /\
    enc_w (e_enc res) = enc_w (NewEncoder []) ++ out /\
    (17000 < len out ->
     exists w d,
       WriteTo (NewDecoder (firstn (Z.to_nat 17000) out)) [] =
         Some (mkdrained 0 (Some EOF) w d)).
Proof.
  apply (WriteTo_truncated (NewEncoder []) (make 20000) 17000).
  unfold legal. vm_compute. intuition discriminate.
Defined.

(** ** Integer adapters *)

(** Zig-zag is a bijection between int64 and uint64 that orders by
    magnitude: [unzigzag] inverts [zigzag] on every uint64, and the
    int64 values in [-2^k, 2^k) are exactly those with a code below
    [2^(k+1)]. *)
Theorem zigzag_bijection (u v k : Z) :
  is_uint64 u -> is_int64 v -> 0 <= k <= 63 ->
  is_int64 (unzigzag u) /\ zigzag (unzigzag u) = u /\
  (zigzag v < 2 ^ (k + 1) <-> - 2 ^ k <= v < 2 ^ k).
Proof.
  intros Hu Hv Hk.
  destruct (unzigzag_spec u Hu) as [Eu Hi].
  destruct (zigzag_spec (unzigzag u) Hi) as [Ez _].
  destruct (zigzag_spec v Hv) as [Ev _].
  split; [exact Hi |]. split.
  - rewrite Ez, Eu. unfold is_uint64 in Hu. rewrite Z.geb_leb.
    destruct (Z.even u) eqn:Ee.
    + assert (Hm : u mod 2 = 0) by (rewrite Zmod_even, Ee; reflexivity).
      destruct (Z.leb_spec 0 (u / 2)); Z.div_mod_to_equations; lia.
    + assert (Hm : u mod 2 = 1) by (rewrite Zmod_even, Ee; reflexivity).
      destruct (Z.leb_spec 0 (- ((u - 1) / 2) - 1)); Z.div_mod_to_equations; lia.
  - rewrite Ev, Z.geb_leb. rewrite Z.pow_add_r by lia. change (2 ^ 1) with 2.
    assert (0 < 2 ^ k) by (apply Z.pow_pos_nonneg; lia).
    destruct (Z.leb_spec 0 v); lia.
Qed.

Lemma zigzag_bijection_witness :
  is_int64 (unzigzag 7) /\ zigzag (unzigzag 7) = 7 /\
  (zigzag (-64) < 2 ^ (6 + 1) <-> - 2 ^ 6 <= -64 < 2 ^ 6).
Proof.
  apply (zigzag_bijection 7 (-64) 6);
    unfold is_uint64, is_int64; vm_compute; intuition discriminate.
Defined.

(** [Encoder.Bytes] on less than a chunk: one final chunk, which
    [Decoder.Bytes] reads back. *)
Lemma Bytes_final (e : Encoder) (b : list byte) :
  legal e -> len b < 16384 ->
  exists res d,
    Encoder_Bytes e b = Some res /\ e_err res = None /\
    enc_w (e_enc res) = enc_w e ++ final_header b ++ b /\
    Decoder_Bytes (NewDecoder (final_header b ++ b)) = Some ((b, None), d) /\
    dec_in d = [].
Proof.
  intros H Hb. unfold Encoder_Bytes, Decoder_Bytes.
  destruct (ReadFrom_emits e b H) as (cs & res & Hcs & E & _ & He & Hw & _).
  pose proof H as H'. unfold legal, MinChunkLen in H'.
  assert (Hlt : len b < ChunkLen e) by lia.
  pose proof (emits_inv_final _ _ _ Hlt Hcs) as Ecs.
  destruct (WriteTo_emits _ b cs [] H Hcs) as (d & Hd & Hin).
  subst cs. unfold wire_of, final_chunk in *. cbn [map concat c_wire] in *.
  rewrite app_nil_r in *.
  exists res, d. rewrite Hd. cbn [d_err is_err d_w d_dec app].
  repeat split; assumption.
Qed.

Lemma shiftr_small (u k : Z) : 0 <= u < 256 -> 8 <= k -> Z.shiftr u k = 0.
Proof.
  intros Hu Hk. rewrite Z.shiftr_div_pow2 by lia. apply Z.div_small.
  assert (2 ^ 8 <= 2 ^ k) by (apply Z.pow_le_mono_r; lia).
  change (2 ^ 8) with 256 in *. lia.
Qed.

Lemma trim_PutUint64_small (u : Z) :
  0 <= u < 256 ->
  trim (PutUint64 u) = if u =? 0 then [] else [to_byte u].
Proof.
  intros H. unfold PutUint64.
  rewrite !shiftr_small by lia.
  change (to_byte 0) with Byte.x00.
  cbn [trim]. change (u8 Byte.x00 =? 0) with true. cbv iota.
  rewrite u8_to_byte_small by lia.
  destruct (u =? 0); reflexivity.
Qed.

(** Small integers are short: for [-64 <= v <= 63], [Encoder.Int64]
    appends exactly one octet to the sink, [0x80] (the empty blob) for 0
    and the zig-zag code of [v] itself otherwise. *)
Theorem Int64_one_octet (e : Encoder) (v : Z) :
  legal e -> -64 <= v <= 63 ->
  exists res,
    Encoder_Int64 e v = Some res /\ e_err res = None /\
    enc_w (e_enc res) =
      enc_w e ++ [if v =? 0 then Byte.x80
                  else to_byte (if v >=? 0 then 2 * v else 2 * (- v - 1) + 1)].
Proof.
  intros H Hv.
  assert (Hi : is_int64 v) by (unfold is_int64; lia).
  destruct (zigzag_spec v Hi) as [Ez _].
  set (u := if v >=? 0 then 2 * v else 2 * (- v - 1) + 1) in *.
  assert (Hu : 0 <= u < 128 /\ (u = 0 <-> v = 0)).
  { unfold u. rewrite Z.geb_leb. destruct (Z.leb_spec 0 v); lia. }
  unfold Encoder_Int64, Encoder_Uint64. rewrite Ez.
  rewrite trim_PutUint64_small by lia.
  destruct (Bytes_final e (if u =? 0 then [] else [to_byte u]) H)
    as (res & d & E & He & Hw & _).
  { destruct (u =? 0); cbn; lia. }
  exists res. split; [exact E | split; [exact He |]].
  rewrite Hw. f_equal.
  destruct (Z.eqb_spec u 0) as [U0 | U0], (Z.eqb_spec v 0) as [V0 | V0];
    try lia; [reflexivity |].
  unfold final_header. rewrite idx_0, u8_to_byte_small by lia.
  change (len [to_byte u]) with 1. cbn [Z.eqb Pos.eqb andb].
  destruct (Z.ltb_spec u 128); [reflexivity | lia].
Qed.

Lemma Int64_one_octet_witness :
  exists res,
    Encoder_Int64 (NewEncoder []) (-3) = Some res /\ e_err res = None /\
    enc_w (e_enc res) = enc_w (NewEncoder []) ++ [Byte.x05].
Proof.
  apply (Int64_one_octet (NewEncoder []) (-3)).
  - unfold legal. vm_compute. intuition discriminate.
  - lia.
Defined.

(** A blob of more than eight octets is too large for a uint64:
    [Decoder.Uint64] and [Decoder.Int64] consume it and report
    "integer value too large for uint64". *)
Theorem Uint64_overflow (e : Encoder) (b : list byte) :
  legal e -> 8 < len b ->
  exists res out d,
    Encoder_Bytes e b = Some res /\ e_err res = None /\
    enc_w (e_enc res) = enc_w e ++ out /\
    Decoder_Uint64 (NewDecoder out) = Some ((0, Some ErrUint64Overflow), d) /\
    Decoder_Int64 (NewDecoder out) = Some ((0, Some ErrUint64Overflow), d) /\
    dec_in d = [].
Proof.
  intros H Hb.
  destruct (Bytes_round_trip e b H) as (res & out & d & E & He & Hw & Ed & Hd).
  exists res, out, d. unfold Decoder_Int64, Decoder_Uint64. rewrite Ed.
  cbn [is_err]. rewrite Z.gtb_ltb.
  destruct (Z.ltb_spec 8 (len b)); [| lia].
  cbn [is_err]. repeat split; assumption.
Qed.

Lemma Uint64_overflow_witness :
  exists res out d,
    Encoder_Bytes (NewEncoder []) (make 9) = Some res /\ e_err res = None /\
    enc_w (e_enc res) = enc_w (NewEncoder []) ++ out /\
    Decoder_Uint64 (NewDecoder out) = Some ((0, Some ErrUint64Overflow), d) /\
    Decoder_Int64 (NewDecoder out) = Some ((0, Some ErrUint64Overflow), d) /\
    dec_in d = [].
Proof.
  apply (Uint64_overflow (NewEncoder []) (make 9)).
  - unfold legal. vm_compute. intuition discriminate.
  - vm_compute. reflexivity.
Defined.

(** [Decoder.Uint64] gives back every uint64 that [Encoder.Uint64]
    wrote, and the encoding takes at most nine octets. *)
Theorem Uint64_blob_round_trip (e : Encoder) (u : Z) :
  legal e -> is_uint64 u ->
  exists res out d,
    Encoder_Uint64 e u = Some res /\ e_err res = None /\
    enc_w (e_enc res) = enc_w e ++ out /\ len out <= 9 /\
    Decoder_Uint64 (NewDecoder out) = Some ((u, None), d) /\ dec_in d = [].
Proof.
  intros H Hu. unfold Encoder_Uint64, Decoder_Uint64.
  pose proof (len_trim (PutUint64 u)) as Hl. rewrite len_PutUint64 in Hl.
  pose proof (len_nonneg (trim (PutUint64 u))) as Hl0.
  destruct (Bytes_final e (trim (PutUint64 u)) H) as (res & d & E & He & Hw & Ed & Hd);
    [lia |].
  exists res, (final_header (trim (PutUint64 u)) ++ trim (PutUint64 u)), d.
  rewrite Ed. cbn [is_err]. rewrite Z.gtb_ltb.
  destruct (Z.ltb_spec 8 (len (trim (PutUint64 u)))); [lia |].
  rewrite pad_trim by reflexivity.
  rewrite BigEndian_PutUint64 by exact Hu.
  repeat split; try assumption.
  rewrite len_app. unfold final_header.
  destruct ((len (trim (PutUint64 u)) =? 1) && _);
    [rewrite len_nil; lia |].
  destruct (Z.ltb_spec (len (trim (PutUint64 u))) 128);
    [rewrite len_cons, len_nil; lia | lia].
Qed.

Lemma Uint64_blob_round_trip_witness :
  exists res out d,
    Encoder_Uint64 (NewEncoder []) 1000 = Some res /\ e_err res = None /\
    enc_w (e_enc res) = enc_w (NewEncoder []) ++ out /\ len out <= 9 /\
    Decoder_Uint64 (NewDecoder out) = Some ((1000, None), d) /\ dec_in d = [].
Proof.
  apply (Uint64_blob_round_trip (NewEncoder []) 1000).
  - unfold legal. vm_compute. intuition discriminate.
  - unfold is_uint64. vm_compute. intuition discriminate.
Defined.

(** ** Big integers *)

Lemma big_SetBytes_app (l : list byte) (b : byte) :
  big_SetBytes (l ++ [b]) = big_SetBytes l * 256 + u8 b.
Proof. unfold big_SetBytes. rewrite fold_left_app. reflexivity. Qed.

Lemma be_octets_value (f : nat) :
  forall n, 0 <= n < 2 ^ Z.of_nat f -> big_SetBytes (be_octets f n) = n.
Proof.
  induction f as [| f IH]; intros n H.
  - change (2 ^ Z.of_nat 0) with 1 in H. cbn. lia.
  - cbn [be_octets]. destruct (Z.leb_spec n 0); [cbn; lia |].
    rewrite big_SetBytes_app, u8_to_byte.
    rewrite Nat2Z.inj_succ, Z.pow_succ_r in H by lia.
    assert (0 < 2 ^ Z.of_nat f) by (apply Z.pow_pos_nonneg; lia).
    rewrite IH by (Z.div_mod_to_equations; lia).
    Z.div_mod_to_equations. lia.
Qed.

(** [SetBytes] reads back what [Bytes] wrote: the absolute value. *)
Lemma big_SetBytes_Bytes (x : Z) : big_SetBytes (big_Bytes x) = Z.abs x.
Proof.
  unfold big_Bytes. apply be_octets_value.
  pose proof (Z.abs_nonneg x) as H. split; [exact H |].
  destruct (Z.eq_dec (Z.abs x) 0) as [-> | N]; [reflexivity |].
  rewrite Nat2Z.inj_succ, Z2Nat.id by apply Z.log2_nonneg.
  apply Z.log2_spec. lia.
Qed.

(** [Encoder.UnsignedInt] encodes the absolute value:
    [Decoder.UnsignedInt] on what it wrote for [v] places [|v|] into the
    designated big.Int, whatever that held before. *)
Theorem UnsignedInt_round_trip (e : Encoder) (v v0 : Z) :
  legal e ->
  exists res out d,
    Encoder_UnsignedInt e v = Some res /\ e_err res = None /\
    enc_w (e_enc res) = enc_w e ++ out /\
    Decoder_UnsignedInt (NewDecoder out) v0 = Some ((Z.abs v, None), d) /\
    dec_in d = [].
Proof.
  intros H. unfold Encoder_UnsignedInt, Decoder_UnsignedInt.
  destruct (Bytes_round_trip e (big_Bytes v) H)
    as (res & out & d & E & He & Hw & Ed & Hd).
  exists res, out, d. rewrite Ed. cbn [is_err].
  rewrite big_SetBytes_Bytes. repeat split; assumption.
Qed.

Lemma UnsignedInt_round_trip_witness :
  exists res out d,
    Encoder_UnsignedInt (NewEncoder []) (- 2 ^ 70) = Some res /\
    e_err res = None /\
    enc_w (e_enc res) = enc_w (NewEncoder []) ++ out /\
    Decoder_UnsignedInt (NewDecoder out) 5 = Some ((Z.abs (- 2 ^ 70), None), d) /\
    dec_in d = [].
Proof.
  apply (UnsignedInt_round_trip (NewEncoder []) (- 2 ^ 70) 5).
  unfold legal. vm_compute. intuition discriminate.
Defined.

(** The zig-zag code that [Encoder.SignedInt] computes. *)
Lemma SignedInt_code (v : Z) :
  (if Z.sgn v >=? 0 then Z.shiftl v 1 else Z.setbit (Z.shiftl (-1 - v) 1) 0) =
  (if 0 <=? v then 2 * v else 2 * (-1 - v) + 1).
Proof.
  rewrite Z.geb_leb.
  destruct (Z.leb_spec 0 v) as [H | H].
  - destruct (Z.leb_spec 0 (Z.sgn v)); [| pose proof (Z.sgn_nonneg v); lia].
    rewrite Z.shiftl_mul_pow2 by lia. change (2 ^ 1) with 2. lia.
  - destruct (Z.leb_spec 0 (Z.sgn v)); [pose proof (Z.sgn_nonneg v); lia |].
    rewrite Z.shiftl_mul_pow2 by lia. change (2 ^ 1) with 2.
    rewrite Z.setbit_spec'. change (Z.shiftl 1 0) with 1.
    assert (E : Z.land ((-1 - v) * 2) 1 = 0).
    { replace (Z.land ((-1 - v) * 2) 1)
        with (Z.land ((-1 - v) * 2) (Z.ones 1)) by reflexivity.
      rewrite Z.land_ones by lia.
      change (2 ^ 1) with 2. apply Z.mod_mul. lia. }
    rewrite <- Z.lxor_lor by exact E.
    rewrite <- Z.add_nocarry_lxor by exact E. lia.
Qed.

(** Signed big integers of any size round-trip: [Decoder.SignedInt] on
    what [Encoder.SignedInt] wrote for [v] places [v] into the
    designated big.Int. *)
Theorem SignedInt_round_trip (e : Encoder) (v v0 : Z) :
  legal e ->
  exists res out d,
    Encoder_SignedInt e v = Some res /\ e_err res = None /\
    enc_w (e_enc res) = enc_w e ++ out /\
    Decoder_SignedInt (NewDecoder out) v0 = Some ((v, None), d) /\
    dec_in d = [].
Proof.
  intros H. unfold Encoder_SignedInt, Decoder_SignedInt, Decoder_UnsignedInt.
  rewrite SignedInt_code.
  set (u := if 0 <=? v then 2 * v else 2 * (-1 - v) + 1).
  assert (Hu : 0 <= u) by (unfold u; destruct (Z.leb_spec 0 v); lia).
  destruct (Bytes_round_trip e (big_Bytes u) H)
    as (res & out & d & E & He & Hw & Ed & Hd).
  exists res, out, d. rewrite Ed. cbn [is_err].
  rewrite big_SetBytes_Bytes, Z.abs_eq by exact Hu.
  rewrite Z.shiftr_div_pow2 by lia. change (2 ^ 1) with 2.
  repeat split; try assumption.
  do 3 f_equal. unfold u.
  destruct (Z.leb_spec 0 v).
  - rewrite Z.testbit_even_0. Z.div_mod_to_equations. lia.
  - rewrite Z.testbit_odd_0. Z.div_mod_to_equations. lia.
Qed.

Lemma SignedInt_round_trip_witness :
  exists res out d,
    Encoder_SignedInt (NewEncoder []) (- 2 ^ 70) = Some res /\
    e_err res = None /\
    enc_w (e_enc res) = enc_w (NewEncoder []) ++ out /\
    Decoder_SignedInt (NewDecoder out) 5 = Some ((- 2 ^ 70, None), d) /\
    dec_in d = [].
Proof.
  apply (SignedInt_round_trip (NewEncoder []) (- 2 ^ 70) 5).
  unfold legal. vm_compute. intuition discriminate.
Defined.

(** ** The small-only codec of package [cbs] and the streaming codec *)

Lemma cbs_Encode_final_header (dst s : list byte) :
  len s < 16384 -> Cbs.Encode dst s = Returns (dst ++ final_header s ++ s).
Proof.
  intros H. unfold Cbs.Encode, final_header.
  destruct ((len s =? 1) && (u8 (idx s 0) <? 128)); [reflexivity |].
  destruct (Z.ltb_spec (len s) 128); [now rewrite <- app_assoc |].
  destruct (Z.ltb_spec (len s) 16384); [| lia].
  destruct (Z.ltb_spec (len s) (16384 + 128)); [| lia].
  now rewrite <- app_assoc.
Qed.

(** [cbs.Encode] and the streaming encoder agree: [cbs.Encode] panics
    exactly from 16384 octets on, and below that it appends to [dst]
    what [ReadFrom], at any legal chunk size, appends to its sink. *)
Theorem cbs_Encode_is_stream (e : Encoder) (s : list byte) :
  legal e ->
  (Cbs.Encode (enc_w e) s = Panics ContentTooLarge <-> 16384 <= len s) /\
  (len s < 16384 ->
   exists res,
     ReadFrom e s = Some res /\ e_err res = None /\
     Cbs.Encode (enc_w e) s = Returns (enc_w (e_enc res))).
Proof.
  intros H. split.
  - split.
    + intros E. destruct (Z.lt_ge_cases (len s) 16384) as [Hl | Hl]; [| exact Hl].
      rewrite cbs_Encode_final_header in E by exact Hl. discriminate E.
    + intros Hl. unfold Cbs.Encode.
      destruct (Z.eqb_spec (len s) 1); [lia |]. cbn [andb].
      destruct (Z.ltb_spec (len s) 128); [lia |].
      destruct (Z.ltb_spec (len s) 16384); [lia | reflexivity].
  - intros Hl.
    destruct (ReadFrom_emits e s H) as (cs & res & Hcs & E & _ & He & Hw & _).
    unfold legal, MinChunkLen in H.
    apply emits_inv_final in Hcs; [| lia]. subst cs.
    exists res. split; [exact E | split; [exact He |]].
    rewrite Hw, cbs_Encode_final_header by exact Hl.
    unfold wire_of, final_chunk. cbn [map concat c_wire].
    rewrite app_nil_r. reflexivity.
Qed.

Lemma cbs_Encode_is_stream_witness :
  exists res,
    ReadFrom (NewEncoder []) (make 204) = Some res /\ e_err res = None /\
    Cbs.Encode (enc_w (NewEncoder [])) (make 204) = Returns (enc_w (e_enc res)).
Proof.
  apply (proj2 (cbs_Encode_is_stream (NewEncoder []) (make 204)
                  ltac:(unfold legal; vm_compute; intuition discriminate))).
  vm_compute. reflexivity.
Defined.

Lemma CopyN_enough (w x : list byte) (l : option byte) (n : Z) :
  0 <= n <= len x ->
  exists l',
    CopyN w {| dec_in := x; dec_last := l |} n =
      ((n, None), w ++ firstn (Z.to_nat n) x,
       {| dec_in := skipn (Z.to_nat n) x; dec_last := l' |}).
Proof.
  intros H.
  assert (Hn : len (firstn (Z.to_nat n) x) = n) by (rewrite len_firstn; lia).
  destruct (CopyN_exact w (firstn (Z.to_nat n) x) (skipn (Z.to_nat n) x) l)
    as (l' & E).
  rewrite firstn_skipn, Hn in E. exists l'. exact E.
Qed.

(** One pass of the loop of [WriteTo] on a final chunk. *)
Lemma drain_final (f : nat) (x rest : list byte) (l l1 : option byte)
  (w : list byte) (tot n : Z) :
  header {| dec_in := x; dec_last := l |} =
    ((n, false, None), {| dec_in := rest; dec_last := l1 |}) ->
  0 <= n <= len rest ->
  exists l',
    drain (S f) {| dec_in := x; dec_last := l |} w tot =
      Some (mkdrained (tot + n) None (w ++ firstn (Z.to_nat n) rest)
                      {| dec_in := skipn (Z.to_nat n) rest; dec_last := l' |}).
Proof.
  intros E H. cbn [drain]. rewrite E. cbn [is_err].
  destruct (CopyN_enough w rest l1 n H) as (l' & ->).
  cbn [is_err]. rewrite Z.eqb_refl. cbn [negb]. eauto.
Qed.

Lemma slice_from_skip {A : Type} (pre x : list A) (k n : Z) :
  len pre = k -> 0 <= n ->
  slice (pre ++ x) k (k + n) = firstn (Z.to_nat n) x /\
  from (pre ++ x) (k + n) = skipn (Z.to_nat n) x.
Proof.
  intros Hk Hn. pose proof (len_nonneg pre). unfold slice, from. split.
  - rewrite skipn_exact by exact Hk. f_equal. lia.
  - replace (Z.to_nat (k + n)) with (Z.to_nat n + Z.to_nat k)%nat by lia.
    rewrite <- skipn_skipn. rewrite skipn_exact by exact Hk. reflexivity.
Qed.

Lemma triple_eq (c c' r r' : list byte) :
  (c, r, @None error) = (c', r', None) -> c = c' /\ r = r'.
Proof. intros E. split; congruence. Qed.

(** The contiguous decoder of package [cbs] and the streaming decoder
    read the same grammar: whenever [cbs.Decode] succeeds on a buffer,
    [WriteTo] on the same octets writes the same content to the sink and
    leaves the same remainder unread. *)
Theorem cbs_Decode_is_stream (buf content rem w : list byte) :
  Cbs.Decode buf = (content, rem, None) ->
  exists d,
    WriteTo (NewDecoder buf) w =
      Some (mkdrained (len content) None (w ++ content) d) /\
    dec_in d = rem.
Proof.
  unfold Cbs.Decode, Cbs.decodeHeader, WriteTo, NewDecoder. cbn [dec_in].
  destruct buf as [| b0 buf]; [cbn; discriminate |].
  rewrite len_cons, idx_0. pose proof (len_nonneg buf) as Hb.
  pose proof (u8_range b0) as R0.
  destruct (Z.eqb_spec (1 + len buf) 0); [lia |].
  destruct (Z.ltb_spec (u8 b0) 128) as [H0 | H0].
  { cbn [is_err]. destruct (Z.ltb_spec (1 + len buf) (0 + 1)); [lia |].
    intros R. apply triple_eq in R. destruct R as [<- <-].
    destruct (drain_final (length (b0 :: buf)) (b0 :: buf) (b0 :: buf) None None w 0 1)
      as (l' & ->); [apply header_inline; lia | rewrite len_cons; lia |].
    eexists. split; reflexivity. }
  destruct (Z.eqb_spec (u8 b0) 129) as [E9 | E9]; cbn [negb].
  2:{ cbn [is_err]. rewrite u8_bsub by lia.
      destruct (Z.ltb_spec (1 + len buf) (1 + (u8 b0 - 128))) as [Hl | Hl];
        [discriminate |].
      intros R. apply triple_eq in R. destruct R as [<- <-].
      destruct (slice_from_skip [b0] buf 1 (u8 b0 - 128) eq_refl) as [Es Ef];
        [lia |].
      cbn [app] in Es, Ef. rewrite Es, Ef, len_firstn.
      replace (Z.min (Z.max 0 (u8 b0 - 128)) (len buf)) with (u8 b0 - 128) by lia.
      destruct (drain_final (length (b0 :: buf)) (b0 :: buf) buf None (Some b0) w 0
                            (u8 b0 - 128)) as (l' & ->);
        [apply header_short; lia | lia |].
      eexists. split; reflexivity. }
  destruct buf as [| b1 buf]; [cbn; discriminate |].
  rewrite !len_cons, idx_1 in *. pose proof (len_nonneg buf) as Hb'.
  pose proof (u8_range b1) as R1.
  destruct (Z.ltb_spec (1 + (1 + len buf)) 2); [lia |].
  rewrite Z.geb_leb. destruct (Z.leb_spec 128 (u8 b1)) as [H1 | H1].
  { cbn [is_err]. destruct (Z.ltb_spec (1 + (1 + len buf)) (1 + 1)); [lia |].
    intros R. apply triple_eq in R. destruct R as [<- <-].
    destruct (drain_final (length (b0 :: b1 :: buf)) (b0 :: b1 :: buf) (b1 :: buf) None None
                          w 0 1) as (l' & ->);
      [apply header_inline2; lia | rewrite len_cons; lia |].
    eexists. split; reflexivity. }
  destruct buf as [| b2 buf]; [cbn; discriminate |].
  rewrite !len_cons in *. pose proof (len_nonneg buf) as Hb''.
  pose proof (u8_range b2) as R2.
  destruct (Z.ltb_spec (1 + (1 + (1 + len buf))) 3); [lia |].
  change (idx _ 2) with b2.
  destruct (Z.ltb_spec (u8 b1) 64) as [H64 | H64]; [| cbn; discriminate].
  cbn [is_err]. rewrite Z.shiftl_mul_pow2 by lia. change (2 ^ 8) with 256.
  set (m := 128 + u8 b1 * 256 + u8 b2).
  destruct (Z.ltb_spec (1 + (1 + (1 + len buf))) (3 + m)) as [Hl | Hl];
    [discriminate |].
  intros R. apply triple_eq in R. destruct R as [<- <-].
  assert (Hn : 0 <= m <= len buf) by (unfold m in *; lia).
  destruct (slice_from_skip [b0; b1; b2] buf 3 m eq_refl) as [Es Ef]; [lia |].
  cbn [app] in Es, Ef. rewrite Es, Ef, len_firstn.
  replace (Z.min (Z.max 0 m) (len buf)) with m by lia.
  destruct (drain_final (length (b0 :: b1 :: b2 :: buf)) (b0 :: b1 :: b2 :: buf) buf None
                        (Some b2) w 0 m) as (l' & ->);
    [apply header_medium; lia | lia |].
  eexists. split; reflexivity.
Qed.

Lemma cbs_Decode_is_stream_witness :
  exists d,
    WriteTo (NewDecoder [Byte.x82; Byte.xab; Byte.xcd; Byte.x07]) [] =
      Some (mkdrained (len [Byte.xab; Byte.xcd]) None ([] ++ [Byte.xab; Byte.xcd]) d) /\
    dec_in d = [Byte.x07].
Proof.
  apply (cbs_Decode_is_stream [Byte.x82; Byte.xab; Byte.xcd; Byte.x07]).
  vm_compute. reflexivity.
Defined.

Lemma cbs_decodeHeader_encoded (s rest : list byte) :
  len s < 16384 ->
  Cbs.decodeHeader (final_header s ++ s ++ rest) =
    (len (final_header s), len s, None).
Proof.
  intros H. pose proof (len_nonneg s) as H0. pose proof (len_nonneg rest) as Hr.
  unfold final_header.
  destruct ((len s =? 1) && (u8 (idx s 0) <? 128)) eqn:E1.
  { apply andb_prop in E1. destruct E1 as [E1 E2].
    apply Z.eqb_eq in E1. apply Z.ltb_lt in E2.
    destruct s as [| d0 [| d1 s]];
      try (unfold len in E1; cbn [length] in E1; lia).
    rewrite idx_0 in E2. cbn [app].
    unfold Cbs.decodeHeader. rewrite len_cons, idx_0.
    destruct (Z.eqb_spec (1 + len rest) 0); [lia |].
    destruct (Z.ltb_spec (u8 d0) 128); [reflexivity | lia]. }
  destruct (Z.ltb_spec (len s) 128) as [Hs | Hs].
  { cbn [app]. set (b0 := to_byte (128 + len s)).
    assert (Hb0 : u8 b0 = 128 + len s)
      by (unfold b0; apply u8_to_byte_small; lia).
    unfold Cbs.decodeHeader. rewrite len_cons, len_app, idx_0, Hb0.
    destruct (Z.eqb_spec (len s) 1) as [L1 | L1].
    - destruct s as [| d0 [| d1 s]];
        try (unfold len in L1; cbn [length] in L1; lia).
      cbn [andb] in E1. rewrite idx_0 in E1. apply Z.ltb_ge in E1.
      cbn [app]. rewrite idx_1. rewrite L1.
      rewrite Z.geb_leb.
      destruct (Z.leb_spec 128 (u8 d0)); [| lia].
      ztests; try lia; reflexivity.
    - rewrite u8_bsub by lia. rewrite Hb0.
      ztests; try lia; do 2 f_equal; lia. }
  destruct (Z.ltb_spec (len s) (16384 + 128)) as [Hm | Hm]; [| lia].
  cbn [app]. set (m := len s - 128).
  destruct (split_2 m) as [Hx Hn]; [change (2 ^ 14) with 16384; lia |].
  set (b1 := to_byte (Z.shiftr m 8)). set (b2 := to_byte m).
  assert (Hb1 : u8 b1 = Z.shiftr m 8) by (unfold b1; apply u8_to_byte_small; lia).
  assert (Hb2 : u8 b2 = m mod 256) by (unfold b2; apply u8_to_byte).
  unfold Cbs.decodeHeader. rewrite !len_cons, len_app, idx_0, idx_1.
  change (idx _ 2) with b2.
  change (u8 (to_byte 129)) with 129.
  rewrite Hb1, Hb2. rewrite Z.shiftl_mul_pow2 by lia. change (2 ^ 8) with 256.
  ztests; try lia; do 2 f_equal; lia.
Qed.

(** Round trip of the [cbs] codec with anything after the blob: below
    16384 octets [cbs.Encode] appends [src] behind at most three header
    octets, and [cbs.Decode] on the encoding followed by [rest] returns
    [src] and [rest]. *)
Theorem cbs_Decode_Encode_rest (src rest : list byte) :
  len src < 16384 ->
  exists enc,
    (forall dst, Cbs.Encode dst src = Returns (dst ++ enc)) /\
    len src <= len enc <= len src + 3 /\
    Cbs.Decode (enc ++ rest) = (src, rest, None).
Proof.
  intros H. exists (final_header src ++ src).
  split; [intros dst; apply cbs_Encode_final_header; exact H |].
  assert (Hh : 0 <= len (final_header src) <= 3).
  { unfold final_header.
    destruct ((len src =? 1) && (u8 (idx src 0) <? 128)); [cbn; lia |].
    destruct (len src <? 128); [cbn; lia |].
    destruct (Z.ltb_spec (len src) (16384 + 128)); [cbn; lia | lia]. }
  split; [rewrite len_app; lia |].
  rewrite <- app_assoc. unfold Cbs.Decode.
  rewrite cbs_decodeHeader_encoded by exact H.
  cbn [is_err]. rewrite !len_app. pose proof (len_nonneg rest).
  destruct (Z.ltb_spec (len (final_header src) + (len src + len rest))
                       (len (final_header src) + len src)); [lia |].
  rewrite (slice_exact (final_header src) src rest) by (try reflexivity; lia).
  rewrite app_assoc, from_exact by (rewrite len_app; reflexivity).
  reflexivity.
Qed.

Lemma cbs_Decode_Encode_rest_witness :
  exists enc,
    (forall dst, Cbs.Encode dst (make 204) = Returns (dst ++ enc)) /\
    len (make 204) <= len enc <= len (make 204) + 3 /\
    Cbs.Decode (enc ++ [Byte.x2a]) = (make 204, [Byte.x2a], None).
Proof.
  apply (cbs_Decode_Encode_rest (make 204) [Byte.x2a]).
  vm_compute. reflexivity.
Defined.

(** ** Large blobs through the contiguous [Encode] *)

(** From 4210752 octets on, [Encode] returns, without panic, what the
    streaming encoder writes at the maximum chunk size, and the
    streaming decoder reads it back: [WriteTo] on the result delivers
    the source and consumes all of it. *)
Theorem Encode_large_stream_round_trip (src : list byte) :
  4210752 <= len src ->
  exists enc d,
    (forall dst, Cbe.Encode dst src = Some (Returns (dst ++ enc))) /\
    len src + 4 * (len src / MaxChunkLen) <= len enc
      <= len src + 4 * (len src / MaxChunkLen) + 4 /\
    WriteTo (NewDecoder enc) [] = Some (mkdrained (len src) None src d) /\
    dec_in d = [].
Proof.
  intros H.
  destruct (Encode_fallback [] src H) as (cs & Hcs & _).
  assert (Hc : MinChunkLen <= MaxChunkLen <= MaxChunkLen)
    by (unfold MinChunkLen, MaxChunkLen; lia).
  destruct (WriteTo_emits _ src cs [] Hc Hcs) as (d & Hd & Hin).
  destruct (emits_count MaxChunkLen src cs ltac:(unfold MaxChunkLen; lia) Hcs)
    as (_ & _ & Hb).
  exists (wire_of cs), d. repeat split; try assumption; try lia.
  intros dst. destruct (Encode_fallback dst src H) as (cs' & Hcs' & E).
  rewrite E. assert (cs' = cs) by (eapply emits_functional; eassumption).
  subst cs'. reflexivity.
Qed.

Lemma Encode_large_stream_round_trip_witness :
  exists enc d,
    (forall dst, Cbe.Encode dst (make 4210752) = Some (Returns (dst ++ enc))) /\
    len (make 4210752) + 4 * (len (make 4210752) / MaxChunkLen) <= len enc
      <= len (make 4210752) + 4 * (len (make 4210752) / MaxChunkLen) + 4 /\
    WriteTo (NewDecoder enc) [] =
      Some (mkdrained (len (make 4210752)) None (make 4210752) d) /\
    dec_in d = [].
Proof.
  apply (Encode_large_stream_round_trip (make 4210752)).
  rewrite len_make; lia.
Defined.
